(** * Usual-puppet-dash: the per-frame physics of GameCanvas

    A shallow embedding of the simulation core of the game canvas component
    (the [triggerInteraction] callback, the spatial index and the [update]
    frame function with its sub-step loop and collision resolver), followed
    by the properties the specification states about it.

    Numbers.  The source computes with JavaScript numbers.  They are modelled
    as exact rationals [Q]: every comparison and branch of the source is kept,
    rounding is not modelled.  The one place where IEEE arithmetic and [Q]
    disagree on a branch (division by a zero triangle area) is written out in
    [pointInTriangle].

    State.  The component keeps its state in React refs that the callbacks
    mutate.  The refs the physics reads or writes are the fields of [Sim];
    the callbacks are functions [Sim -> Sim].  Sounds, shakes, flashes and
    callbacks to the host ([onGameOver], [onWin]) are recorded as an
    append-only log of [Event]s.  Purely visual refs (trail, particles,
    shake decay) and the wall clock are left out: the physics never reads
    them. *)

From Stdlib Require Import QArith Qround Lqa ZArith Lia List Bool String.
From stdpp Require Import gmap list relations.
From stdpp Require Import strings.

Local Open Scope Q_scope.

(** ** JavaScript number operations used by the source *)

Definition Qltb (a b : Q) : bool := negb (Qle_bool b a).
Definition Qgtb (a b : Q) : bool := Qltb b a.
Definition Qleb (a b : Q) : bool := Qle_bool a b.
Definition Qgeb (a b : Q) : bool := Qle_bool b a.

(** [Math.max], [Math.min], [Math.floor], [Math.ceil], [Math.round]. *)
Definition Math_max (a b : Q) : Q := if Qle_bool a b then b else a.
Definition Math_min (a b : Q) : Q := if Qle_bool a b then a else b.
Definition Math_floor (a : Q) : Z := Qfloor a.
Definition Math_ceil (a : Q) : Z := Qceiling a.
Definition Math_round (a : Q) : Q := inject_Z (Qfloor (a + 0.5)).

(** ** Constants of the component *)

Definition SHIP_THRUST : Q := -0.65.
Definition SHIP_GRAVITY : Q := 0.40.
Definition JETPACK_THRUST : Q := -0.75.
Definition JETPACK_GRAVITY : Q := 0.45.
Definition BALL_GRAVITY : Q := 0.7.
Definition UFO_GRAVITY : Q := 0.6.
Definition UFO_JUMP : Q := -9.
Definition WAVE_SPEED_Y : Q := 6.
Definition ROBOT_JUMP_INITIAL : Q := -7.
Definition ROBOT_JUMP_SUSTAIN : Q := -0.8.
Definition ROBOT_MAX_JUMP_FRAMES : Z := 12.
Definition SWING_GRAVITY : Q := 0.5.
Definition MAX_VY : Q := 12.
Definition MIN_WIN_DISTANCE : Q := 3000.
Definition CHUNK_SIZE : Q := 600.

(** The component imports [PLAYER_SIZE], [BLOCK_SIZE], [GRAVITY] and
    [JUMP_FORCE] from the constants module, and uses [Math.atan2] and
    [Math.PI] for the sprite rotation.  They are parameters of the model. *)
Class Constants := mkConstants {
  PLAYER_SIZE : Q;
  BLOCK_SIZE : Q;
  GRAVITY : Q;
  JUMP_FORCE : Q;
  Math_PI : Q;
  Math_atan2 : Q -> Q -> Q
}.

(** ** Data model *)

Inductive PlayerMode :=
| CUBE | SHIP | BALL | UFO | WAVE | ROBOT | SPIDER | SWING | JETPACK.

(** [ObjectType] is a string enumeration.  The members the component names
    are constructors; any other string (a coin, a type of newer content) is
    [OTHER], so that the [startsWith('PORTAL_')] test keeps its meaning. *)
Inductive ObjectType :=
| BLOCK | SPIKE
| PORTAL_SHIP | PORTAL_BALL | PORTAL_UFO | PORTAL_WAVE | PORTAL_ROBOT
| PORTAL_SPIDER | PORTAL_SWING | PORTAL_JETPACK | PORTAL_CUBE
| OTHER (name : string).

Definition startsWith_PORTAL (t : ObjectType) : bool :=
  match t with
  | BLOCK | SPIKE => false
  | OTHER name => String.prefix "PORTAL_" name
  | _ => true
  end.

Module GameObject.
Record t := mk { id : string; type : ObjectType; x : Q; y : Q }.
End GameObject.

Module Player.
Record t := mk {
  x : Q; y : Q; vy : Q; rotation : Q;
  isDead : bool; isJumping : bool;
  mode : PlayerMode; gravityDir : Q
}.
End Player.

(** Effects on the host: [playSound('jump')], the death sequence
    ([playSound('death')], shake, [onGameOver]), the portal morph
    ([playSound('portal')], shake, flash and the animation record pushed on
    [portalAnimsRef], with its position and hue),
    the Spider teleport line and [onWin]. *)
Inductive Event :=
| EvJump
| EvDeath
| EvMorph (x y : Q) (hue : Z)
| EvTeleport (fromY toY : Q)
| EvWin.

(** The refs of the component that the physics uses. *)
Record Sim := mkSim {
  player : Player.t;
  cameraX : Q;
  frame : Z;
  isJumpButtonPressed : bool;
  robotJumpFrames : Z;
  onSurfaceRef : bool;
  actionBufferActive : bool;
  completion : Q;
  events : list Event
}.

Definition mode_eqb (a b : PlayerMode) : bool :=
  match a, b with
  | CUBE, CUBE | SHIP, SHIP | BALL, BALL | UFO, UFO | WAVE, WAVE
  | ROBOT, ROBOT | SPIDER, SPIDER | SWING, SWING | JETPACK, JETPACK => true
  | _, _ => false
  end.

(** Field updates. *)
Definition with_player (p : Player.t) (s : Sim) : Sim :=
  mkSim p (cameraX s) (frame s) (isJumpButtonPressed s) (robotJumpFrames s)
        (onSurfaceRef s) (actionBufferActive s) (completion s) (events s).
Definition with_cameraX (c : Q) (s : Sim) : Sim :=
  mkSim (player s) c (frame s) (isJumpButtonPressed s) (robotJumpFrames s)
        (onSurfaceRef s) (actionBufferActive s) (completion s) (events s).
Definition with_frame (f : Z) (s : Sim) : Sim :=
  mkSim (player s) (cameraX s) f (isJumpButtonPressed s) (robotJumpFrames s)
        (onSurfaceRef s) (actionBufferActive s) (completion s) (events s).
Definition with_pressed (b : bool) (s : Sim) : Sim :=
  mkSim (player s) (cameraX s) (frame s) b (robotJumpFrames s)
        (onSurfaceRef s) (actionBufferActive s) (completion s) (events s).
Definition with_robotJumpFrames (n : Z) (s : Sim) : Sim :=
  mkSim (player s) (cameraX s) (frame s) (isJumpButtonPressed s) n
        (onSurfaceRef s) (actionBufferActive s) (completion s) (events s).
Definition with_onSurface (b : bool) (s : Sim) : Sim :=
  mkSim (player s) (cameraX s) (frame s) (isJumpButtonPressed s) (robotJumpFrames s)
        b (actionBufferActive s) (completion s) (events s).
Definition with_actionBuffer (b : bool) (s : Sim) : Sim :=
  mkSim (player s) (cameraX s) (frame s) (isJumpButtonPressed s) (robotJumpFrames s)
        (onSurfaceRef s) b (completion s) (events s).
Definition with_completion (c : Q) (s : Sim) : Sim :=
  mkSim (player s) (cameraX s) (frame s) (isJumpButtonPressed s) (robotJumpFrames s)
        (onSurfaceRef s) (actionBufferActive s) c (events s).
Definition emit (e : Event) (s : Sim) : Sim :=
  mkSim (player s) (cameraX s) (frame s) (isJumpButtonPressed s) (robotJumpFrames s)
        (onSurfaceRef s) (actionBufferActive s) (completion s) (events s ++ [e]).

Definition set_x (v : Q) (p : Player.t) : Player.t :=
  Player.mk v (Player.y p) (Player.vy p) (Player.rotation p) (Player.isDead p)
            (Player.isJumping p) (Player.mode p) (Player.gravityDir p).
Definition set_y (v : Q) (p : Player.t) : Player.t :=
  Player.mk (Player.x p) v (Player.vy p) (Player.rotation p) (Player.isDead p)
            (Player.isJumping p) (Player.mode p) (Player.gravityDir p).
Definition set_vy (v : Q) (p : Player.t) : Player.t :=
  Player.mk (Player.x p) (Player.y p) v (Player.rotation p) (Player.isDead p)
            (Player.isJumping p) (Player.mode p) (Player.gravityDir p).
Definition set_rotation (v : Q) (p : Player.t) : Player.t :=
  Player.mk (Player.x p) (Player.y p) (Player.vy p) v (Player.isDead p)
            (Player.isJumping p) (Player.mode p) (Player.gravityDir p).
Definition set_isDead (b : bool) (p : Player.t) : Player.t :=
  Player.mk (Player.x p) (Player.y p) (Player.vy p) (Player.rotation p) b
            (Player.isJumping p) (Player.mode p) (Player.gravityDir p).
Definition set_isJumping (b : bool) (p : Player.t) : Player.t :=
  Player.mk (Player.x p) (Player.y p) (Player.vy p) (Player.rotation p) (Player.isDead p)
            b (Player.mode p) (Player.gravityDir p).
Definition set_mode (m : PlayerMode) (p : Player.t) : Player.t :=
  Player.mk (Player.x p) (Player.y p) (Player.vy p) (Player.rotation p) (Player.isDead p)
            (Player.isJumping p) m (Player.gravityDir p).
Definition set_gravityDir (g : Q) (p : Player.t) : Player.t :=
  Player.mk (Player.x p) (Player.y p) (Player.vy p) (Player.rotation p) (Player.isDead p)
            (Player.isJumping p) (Player.mode p) g.

(** [stateRef]'s initial value and the initial refs. *)
Definition initialPlayer : Player.t :=
  Player.mk 50 360 0 0 false false CUBE 1.
Definition initialSim : Sim :=
  mkSim initialPlayer 0 0 false 0 false false 0 [].

(** ** Geometry helpers *)

(** IEEE note: when [area] is zero the source divides by zero, [s] and [t]
    are infinities or NaN and the conjunction is false.  [Q] has [x / 0 = 0],
    which would make it true, so that case is written out. *)
Definition pointInTriangle (px py x1 y1 x2 y2 x3 y3 : Q) : bool :=
  let area := 0.5 * (-y2 * x3 + y1 * (-x2 + x3) + x1 * (y2 - y3) + x2 * y3) in
  let s := 1 / (2 * area) * (y1 * x3 - x1 * y3 + (y3 - y1) * px + (x1 - x3) * py) in
  let t := 1 / (2 * area) * (x1 * y2 - y1 * x2 + (y1 - y2) * px + (x2 - x1) * py) in
  negb (Qeq_bool area 0) && Qgeb s 0 && Qgeb t 0 && Qgeb (1 - s - t) 0.

Definition getPortalHue (t : ObjectType) : Z :=
  match t with
  | PORTAL_SHIP => 0
  | PORTAL_BALL => 30
  | PORTAL_UFO => 120
  | PORTAL_WAVE => 190
  | PORTAL_ROBOT => 60
  | PORTAL_SPIDER => 330
  | PORTAL_SWING => 240
  | PORTAL_JETPACK => 270
  | _ => 300
  end%Z.

(** The portal-type to mode mapping of the resolver's [else if] chain;
    [None] for a [PORTAL_] type it does not name. *)
Definition portalMode (t : ObjectType) : option PlayerMode :=
  match t with
  | PORTAL_SHIP => Some SHIP
  | PORTAL_BALL => Some BALL
  | PORTAL_UFO => Some UFO
  | PORTAL_WAVE => Some WAVE
  | PORTAL_ROBOT => Some ROBOT
  | PORTAL_SPIDER => Some SPIDER
  | PORTAL_SWING => Some SWING
  | PORTAL_JETPACK => Some JETPACK
  | PORTAL_CUBE => Some CUBE
  | _ => None
  end.

(** ** Spatial index *)

Definition chunkOf (x : Q) : Z := Math_floor (x / CHUNK_SIZE).

(** [level.objects.forEach]: push each object on the list of its chunk. *)
Definition buildChunks (objects : list GameObject.t) : gmap Z (list GameObject.t) :=
  foldl (fun chunks obj =>
           let chunkId := chunkOf (GameObject.x obj) in
           <[chunkId := default [] (chunks !! chunkId) ++ [obj]]> chunks)
        ∅ objects.

(** [for (c = pChunk - 1; c <= pChunk + 2; c++)]: the candidate buffer. *)
Definition gather (chunks : gmap Z (list GameObject.t)) (pChunk : Z) : list GameObject.t :=
  concat (map (fun c => default [] (chunks !! c))
              [pChunk - 1; pChunk; pChunk + 1; pChunk + 2]%Z).

(** [lastObjX] and [winX], computed when the level is mounted. *)
Definition lastObjX (objects : list GameObject.t) : Q :=
  foldl (fun max obj => Math_max max (GameObject.x obj)) 0 objects.
Definition winX (objects : list GameObject.t) : Q :=
  Math_max MIN_WIN_DISTANCE (lastObjX objects + 1000).

(** [Math.max(1, Math.ceil(settings.speed / 4))]. *)
Definition stepsOf (speed : Q) : Z := Z.max 1 (Math_ceil (speed / 4)).

Definition flipGravity (gravityDir : Q) : Q :=
  if Qeq_bool gravityDir 1 then -1 else 1.

(** The four assignments shared by the world-bound clamp and the block
    landings: [y = v; vy = 0; isJumping = false; onSurfaceRef = true]. *)
Definition land (v : Q) (s : Sim) : Sim :=
  with_onSurface true
    (with_player (set_isJumping false (set_vy 0 (set_y v (player s)))) s).

(** The death sequence: [isDead = true], shake, sound, [onGameOver]. *)
Definition die (s : Sim) : Sim :=
  emit EvDeath (with_player (set_isDead true (player s)) s).

Section Simulation.
Context {K : Constants}.

(** *** triggerInteraction *)

(** The inner [for (const obj of candidates)] of the Spider teleport
    scan at height [y]: the landing height of the first block hit. *)
Fixpoint scanCandidates (px y gravityDir : Q) (candidates : list GameObject.t)
  : option Q :=
  match candidates with
  | [] => None
  | obj :: rest =>
    let ox := GameObject.x obj in
    let oy := GameObject.y obj in
    if match GameObject.type obj with BLOCK => true | _ => false end
       && Qltb px (ox + BLOCK_SIZE) && Qgtb (px + PLAYER_SIZE) ox
    then
      if Qeq_bool gravityDir 1 && Qgeb (y + PLAYER_SIZE) oy && Qltb y oy
      then Some (oy - PLAYER_SIZE)
      else if Qeq_bool gravityDir (-1) && Qleb y (oy + BLOCK_SIZE) && Qgtb y oy
      then Some (oy + BLOCK_SIZE)
      else scanCandidates px y gravityDir rest
    else scanCandidates px y gravityDir rest
  end.

(** The outer [for (let y = currentY + step; ...; y += step)].  [None]
    is fuel exhaustion, [Some None] is the loop ending with
    [found = false], [Some (Some v)] is [found] with [currentY = v]. *)
Fixpoint scanRows (fuel : nat) (px gravityDir step y : Q)
         (candidates : list GameObject.t) : option (option Q) :=
  if (if Qeq_bool gravityDir 1 then Qltb y 360 else Qgtb y 0) then
    match fuel with
    | O => None
    | S fuel' =>
      match scanCandidates px y gravityDir candidates with
      | Some v => Some (Some v)
      | None => scanRows fuel' px gravityDir step (y + step) candidates
      end
    end
  else Some None.

(** Rows the scan can visit from [y0] in direction [gravityDir]. *)
Definition scanFuel (gravityDir y0 : Q) : nat :=
  Z.to_nat (Math_ceil ((if Qeq_bool gravityDir 1 then 360 - y0 else y0) / 5)).

Definition spiderTeleport (chunks : gmap Z (list GameObject.t)) (s : Sim) : Sim :=
  let p := player s in
  let oldY := Player.y p in
  let gd := flipGravity (Player.gravityDir p) in
  let s := with_player (set_vy 0 (set_gravityDir gd p)) s in
  let s := with_onSurface false s in
  let s := emit EvJump s in
  let step := gd * 5 in
  let candidates := gather chunks (chunkOf (Player.x p)) in
  let currentY :=
    match scanRows (scanFuel gd oldY) (Player.x p) gd step (oldY + step) candidates with
    | Some (Some v) => v
    | _ => if Qeq_bool gd 1 then 360 else 0
    end in
  let s := with_player (set_y currentY (player s)) s in
  let s := with_onSurface true s in
  emit (EvTeleport oldY currentY) s.

Definition triggerInteraction (paused isAutoJump : bool)
           (chunks : gmap Z (list GameObject.t)) (s : Sim) : Sim :=
  let p := player s in
  if Player.isDead p || paused then s else
  match Player.mode p with
  | CUBE =>
    if onSurfaceRef s then
      emit EvJump (with_onSurface false (with_player
        (set_isJumping true (set_vy (JUMP_FORCE * Player.gravityDir p) p)) s))
    else s
  | BALL =>
    if onSurfaceRef s then
      emit EvJump (with_onSurface false (with_player
        (set_vy 0 (set_gravityDir (flipGravity (Player.gravityDir p)) p)) s))
    else s
  | UFO =>
    if negb isAutoJump || onSurfaceRef s then
      emit EvJump (with_onSurface false (with_player (set_vy UFO_JUMP p) s))
    else s
  | ROBOT =>
    if onSurfaceRef s then
      emit EvJump (with_robotJumpFrames 1 (with_onSurface false (with_player
        (set_isJumping true (set_vy (ROBOT_JUMP_INITIAL * Player.gravityDir p) p)) s)))
    else s
  | SWING =>
    if negb isAutoJump || onSurfaceRef s then
      emit EvJump (with_onSurface false (with_player
        (set_gravityDir (flipGravity (Player.gravityDir p)) p) s))
    else s
  | SPIDER =>
    if onSurfaceRef s then spiderTeleport chunks s else s
  | SHIP | WAVE | JETPACK => s
  end.

(** *** update: velocity *)

(** The per-mode velocity rule at the head of [update]; returns the new
    [frameVy] and the new [robotJumpFrames]. *)
Definition frameVelocity (mode : PlayerMode) (pressed : bool) (jumpFrames : Z)
           (gravityDir vy : Q) : Q * Z :=
  match mode with
  | CUBE | ROBOT | SPIDER =>
    let '(frameVy, jumpFrames') :=
      if mode_eqb mode ROBOT && pressed && (0 <? jumpFrames)%Z
         && (jumpFrames <? ROBOT_MAX_JUMP_FRAMES)%Z
      then (vy + ROBOT_JUMP_SUSTAIN * gravityDir, (jumpFrames + 1)%Z)
      else (vy, 0%Z) in
    (frameVy + GRAVITY * gravityDir, jumpFrames')
  | SHIP => (vy + (SHIP_GRAVITY + (if pressed then SHIP_THRUST else 0)), jumpFrames)
  | JETPACK => (vy + (JETPACK_GRAVITY + (if pressed then JETPACK_THRUST else 0)), jumpFrames)
  | SWING => (vy + SWING_GRAVITY * gravityDir, jumpFrames)
  | BALL => (vy + BALL_GRAVITY * gravityDir, jumpFrames)
  | UFO => (vy + UFO_GRAVITY, jumpFrames)
  | WAVE => (if pressed then - WAVE_SPEED_Y else WAVE_SPEED_Y, jumpFrames)
  end.

Definition clampVy (frameVy : Q) : Q :=
  let frameVy := if Qgtb frameVy MAX_VY then MAX_VY else frameVy in
  if Qltb frameVy (- MAX_VY) then - MAX_VY else frameVy.

(** *** update: one sub-step *)

Definition rotate (speed : Q) (steps : Z) (pressed : bool) (p : Player.t) : Player.t :=
  let rot := Player.rotation p in
  match Player.mode p with
  | CUBE =>
    if Player.isJumping p
    then set_rotation (rot + (0.15 / inject_Z steps) * Player.gravityDir p) p
    else
      let targetRotation := Math_round (rot / (Math_PI / 2)) * (Math_PI / 2) in
      set_rotation (rot + (targetRotation - rot) * 0.2) p
  | SHIP | SWING | JETPACK | UFO =>
    let targetRot :=
      Math_atan2 (Player.vy p)
                 (speed * (if mode_eqb (Player.mode p) UFO then 2 else 1.8)) in
    set_rotation (rot + (targetRot - rot) * 0.2) p
  | BALL => set_rotation (rot + (0.2 / inject_Z steps) * Player.gravityDir p) p
  | WAVE => set_rotation (if pressed then - Math_PI / 4 else Math_PI / 4) p
  | ROBOT | SPIDER => p
  end.

(** The world-bound clamp. *)
Definition clampY (s : Sim) : Sim :=
  if Qgeb (Player.y (player s)) 360 then land 360 s
  else if Qleb (Player.y (player s)) 0 then land 0 s
  else s.

Definition spikeHit (phX phY : Q) (obj : GameObject.t) : bool :=
  let phW := PLAYER_SIZE - 8 in
  let phH := PLAYER_SIZE - 8 in
  let shrink := 8 in
  let x1 := GameObject.x obj + shrink in
  let y1 := GameObject.y obj + BLOCK_SIZE - 2 in
  let x2 := GameObject.x obj + BLOCK_SIZE / 2 in
  let y2 := GameObject.y obj + shrink in
  let x3 := GameObject.x obj + BLOCK_SIZE - shrink in
  let y3 := GameObject.y obj + BLOCK_SIZE - 2 in
  let corners := [(phX, phY); (phX + phW, phY); (phX, phY + phH); (phX + phW, phY + phH)] in
  existsb (fun c => pointInTriangle (fst c) (snd c) x1 y1 x2 y2 x3 y3) corners.

Definition blockOverlap (p : Player.t) (obj : GameObject.t) : bool :=
  Qltb (Player.x p) (GameObject.x obj + BLOCK_SIZE)
  && Qgtb (Player.x p + PLAYER_SIZE) (GameObject.x obj)
  && Qltb (Player.y p) (GameObject.y obj + BLOCK_SIZE)
  && Qgtb (Player.y p + PLAYER_SIZE) (GameObject.y obj).

Definition portalOverlap (p : Player.t) (obj : GameObject.t) : bool :=
  let portalCollisionHeight := 150 in
  let portalY := GameObject.y obj + BLOCK_SIZE / 2 - portalCollisionHeight / 2 in
  Qltb (Player.x p) (GameObject.x obj + BLOCK_SIZE)
  && Qgtb (Player.x p + PLAYER_SIZE) (GameObject.x obj)
  && Qltb (Player.y p) (portalY + portalCollisionHeight)
  && Qgtb (Player.y p + PLAYER_SIZE) portalY.

(** The body of [for (const obj of collisionBufferRef.current)] for one
    object.  The boolean is [true] when the body ends in [break]. *)
Definition collideObject (phX phY prevX internalPrevY : Q)
           (obj : GameObject.t) (s : Sim) : Sim * bool :=
  let p := player s in
  match GameObject.type obj with
  | SPIKE =>
    if spikeHit phX phY obj then (die s, true) else (s, false)
  | BLOCK =>
    if blockOverlap p obj then
      if mode_eqb (Player.mode p) WAVE then (die s, true) else
      let tolerance := 12 in
      let wasAbove := Qleb (internalPrevY + PLAYER_SIZE) (GameObject.y obj + tolerance) in
      let wasBelow := Qgeb internalPrevY (GameObject.y obj + BLOCK_SIZE - tolerance) in
      if wasAbove && Qgeb (Player.vy p * Player.gravityDir p) 0
         && Qeq_bool (Player.gravityDir p) 1
      then (land (GameObject.y obj - PLAYER_SIZE) s, false)
      else if wasBelow && Qgeb (Player.vy p * Player.gravityDir p) 0
              && Qeq_bool (Player.gravityDir p) (-1)
      then (land (GameObject.y obj + BLOCK_SIZE) s, false)
      else (die s, true)
    else (s, false)
  | t =>
    if startsWith_PORTAL t then
      if portalOverlap p obj then
        if Qleb (prevX + PLAYER_SIZE) (GameObject.x obj + 15) then
          let prevMode := Player.mode p in
          let newMode := match portalMode t with Some m => m | None => prevMode end in
          let s := with_player (set_mode newMode p) s in
          if negb (mode_eqb prevMode newMode) then
            (emit (EvMorph (GameObject.x obj + BLOCK_SIZE / 2)
                           (GameObject.y obj + BLOCK_SIZE / 2) (getPortalHue t))
                  (with_player (set_gravityDir 1 (player s)) s), false)
          else (s, false)
        else (s, false)
      else (s, false)
    else (s, false)
  end.

(** The collision loop over the candidate buffer, with its [break]. *)
Fixpoint collide (phX phY prevX internalPrevY : Q)
         (buffer : list GameObject.t) (s : Sim) : Sim :=
  match buffer with
  | [] => s
  | obj :: rest =>
    let '(s', stop) := collideObject phX phY prevX internalPrevY obj s in
    if stop then s' else collide phX phY prevX internalPrevY rest s'
  end.

(** The candidates the loop actually visits (those up to the [break]). *)
Fixpoint visited (phX phY prevX internalPrevY : Q)
         (buffer : list GameObject.t) (s : Sim) : list GameObject.t :=
  match buffer with
  | [] => []
  | obj :: rest =>
    let '(s', stop) := collideObject phX phY prevX internalPrevY obj s in
    obj :: (if stop then [] else visited phX phY prevX internalPrevY rest s')
  end.

(** The state at the collision loop of a sub-step: moved, rotated and
    clamped. *)
Definition advance (speed : Q) (steps : Z) (stepX stepY : Q) (s : Sim) : Sim :=
  let p := player s in
  let p := set_y (Player.y p + stepY) (set_x (Player.x p + stepX) p) in
  let p := rotate speed steps (isJumpButtonPressed s) p in
  clampY (with_player p s).

(** The body of [for (let st = 0; st < steps; st++)] after the
    [isDead] test. *)
Definition subStep (speed : Q) (steps : Z) (stepX stepY prevX : Q)
           (chunks : gmap Z (list GameObject.t)) (s : Sim) : Sim :=
  let internalPrevY := Player.y (player s) in
  let s := advance speed steps stepX stepY s in
  let phX := Player.x (player s) + 4 in
  let phY := Player.y (player s) + 4 in
  let buffer := gather chunks (chunkOf (Player.x (player s))) in
  collide phX phY prevX internalPrevY buffer s.

Fixpoint subSteps (n : nat) (speed : Q) (steps : Z) (stepX stepY prevX : Q)
         (chunks : gmap Z (list GameObject.t)) (s : Sim) : Sim :=
  match n with
  | O => s
  | S n' =>
    if Player.isDead (player s) then s
    else subSteps n' speed steps stepX stepY prevX chunks
                  (subStep speed steps stepX stepY prevX chunks s)
  end.

(** *** update: the frame *)

(** The velocity phase: [frameVy] by mode, the clamp to [MAX_VY], and
    [s.player.vy = frameVy]. *)
Definition applyVelocity (s : Sim) : Sim :=
  let p := player s in
  let '(frameVy, jumpFrames) :=
    frameVelocity (Player.mode p) (isJumpButtonPressed s) (robotJumpFrames s)
                  (Player.gravityDir p) (Player.vy p) in
  with_player (set_vy (clampVy frameVy) p) (with_robotJumpFrames jumpFrames s).

(** From [const prevX = s.player.x] to the end of the sub-step loop. *)
Definition integrate (speed : Q) (chunks : gmap Z (list GameObject.t)) (s : Sim) : Sim :=
  let prevX := Player.x (player s) in
  let steps := stepsOf speed in
  let stepX := speed / inject_Z steps in
  let s := applyVelocity s in
  let stepY := Player.vy (player s) / inject_Z steps in
  subSteps (Z.to_nat steps) speed steps stepX stepY prevX chunks s.

(** The auto-repeat rule after the sub-step loop. *)
Definition autoJump (paused : bool) (chunks : gmap Z (list GameObject.t)) (s : Sim) : Sim :=
  if isJumpButtonPressed s && onSurfaceRef s && negb (actionBufferActive s)
  then with_actionBuffer true (triggerInteraction paused true chunks s)
  else if negb (onSurfaceRef s) then with_actionBuffer false s
  else s.

Definition update (paused : bool) (speed winX : Q)
           (chunks : gmap Z (list GameObject.t)) (s : Sim) : Sim :=
  if paused then s else
  let s := with_frame (frame s + 1)%Z s in
  if Player.isDead (player s) then s else
  let s := integrate speed chunks s in
  let s := with_cameraX (Player.x (player s) - 150) s in
  let s := with_completion (Math_min 100 (Player.x (player s) / winX * 100)) s in
  let s := autoJump paused chunks s in
  if Qgtb (Player.x (player s)) winX then emit EvWin s else s.

(** *** Input handlers and sessions *)

Definition onPress (paused : bool) (chunks : gmap Z (list GameObject.t)) (s : Sim) : Sim :=
  with_pressed true
    (if isJumpButtonPressed s then s else triggerInteraction paused false chunks s).

Definition onRelease (s : Sim) : Sim := with_pressed false s.

Inductive Input := Tick | Press | Release.

Definition handle (speed : Q) (objects : list GameObject.t) (s : Sim) (i : Input) : Sim :=
  match i with
  | Tick => update false speed (winX objects) (buildChunks objects) s
  | Press => onPress false (buildChunks objects) s
  | Release => onRelease s
  end.

(** An unpaused session: the callbacks run in the order of [inputs]. *)
Definition play (speed : Q) (objects : list GameObject.t) (inputs : list Input) : Sim :=
  foldl (handle speed objects) initialSim inputs.

End Simulation.

(** ** Sample constants and levels

    The constants module is not part of the component, so concrete runs
    need values for its constants.  The level generator's prompt describes
    a 40-unit grid with the ground row at [y = 360]; [sampleConstants]
    takes both sizes as 40.  The sprite rotation never feeds back into the
    physics, so any [Math_atan2] does for a run. *)

Definition sampleConstants : Constants :=
  mkConstants 40 40 0.8 (-12) 3.14159 (fun _ _ => 0).

Definition block (x y : Q) : GameObject.t := GameObject.mk "obj" BLOCK x y.
Definition portal (t : ObjectType) (x y : Q) : GameObject.t := GameObject.mk "obj" t x y.

Definition ticks (n : nat) : list Input := repeat Tick n.

(** Sample levels for the concrete runs below. *)

(** A low step with a block hanging over it. *)
Definition levelStep : list GameObject.t := [block 120 395; block 120 318].

(** A Swing portal. *)
Definition levelSwing : list GameObject.t := [portal PORTAL_SWING 100 320].

(** A Ball portal and a block whose bottom is 5 units under the floor line. *)
Definition levelHang : list GameObject.t := [portal PORTAL_BALL 100 320; block 108 325].

(** A Spider portal on the ground and a Robot portal at the ceiling. *)
Definition levelRobot : list GameObject.t :=
  [portal PORTAL_SPIDER 100 320; portal PORTAL_ROBOT 200 0].

(** The specification's scenario: objects spanning x from 0 to 5000. *)
Definition levelLong : list GameObject.t := [block 0 320; block 5000 320].

(** The inputs that bring the player of [levelRobot] to the ceiling as a
    Spider, through the Robot portal, and into a held Robot jump. *)
Definition inputsRobot : list Input :=
  ticks 3 ++ [Press; Release] ++ ticks 20 ++ [Press; Tick; Tick].


(** The state of the [levelStep] run at the object loop of the first
    sub-step of frame 7, at speed 5: the frame's velocity applied, the
    player moved and clamped. *)
Definition stepBefore : Sim := @play sampleConstants 5 levelStep (ticks 6).
Definition stepState : Sim :=
  let v := @applyVelocity sampleConstants stepBefore in
  @advance sampleConstants 5 (stepsOf 5) (5 / inject_Z (stepsOf 5))
           (Player.vy (player v) / inject_Z (stepsOf 5)) v.

(** The Swing player of [levelSwing] right after its morph, still inside
    the portal's gate, and the same player eleven frames later, straddling
    the portal past the gate. *)
Definition swingEntering : Sim := @play sampleConstants 5 levelSwing (ticks 3).
Definition swingStraddling : Sim := @play sampleConstants 5 levelSwing (ticks 14).

(** The grounded Robot of [levelRobot] in its sustain window. *)
Definition robotGrounded : Sim := @play sampleConstants 5 levelRobot inputsRobot.


(** A Spike on the ground row, the player's state when it reaches it at
    speed 5, and a grounded Spider. *)
Definition spike (x y : Q) : GameObject.t := GameObject.mk "obj" SPIKE x y.
Definition levelSpike : list GameObject.t := [spike 100 360].
Definition spikeState : Sim :=
  mkSim (Player.mk 75 360 0 0 false false CUBE 1) 0 0 false 0 true false 0 [].
Definition spiderState : Sim :=
  mkSim (Player.mk 100 360 0 0 false false SPIDER 1) 0 0 false 0 true false 0 [].




(** Objects that some chunk of the index holds. *)
Definition indexed (chunks : gmap Z (list GameObject.t)) (obj : GameObject.t) : Prop :=
  exists c l, chunks !! c = Some l /\ In obj l.

Definition inChunk (c : Z) (obj : GameObject.t) : bool :=
  (chunkOf (GameObject.x obj) =? c)%Z.

(** What one pass of the object loop's body can do to the state: nothing,
    the death sequence with [break], a landing on or under a Block, or a
    portal morph. *)
Inductive outcome {K : Constants} (prevX internalPrevY : Q)
          (obj : GameObject.t) (s : Sim) : Sim * bool -> Prop :=
| out_none : outcome prevX internalPrevY obj s (s, false)
| out_death : outcome prevX internalPrevY obj s (die s, true)
| out_land v :
    GameObject.type obj = BLOCK ->
    blockOverlap (player s) obj = true ->
    Player.mode (player s) <> WAVE ->
    0 <= Player.vy (player s) * Player.gravityDir (player s) ->
    (v = GameObject.y obj - PLAYER_SIZE
     /\ internalPrevY + PLAYER_SIZE <= GameObject.y obj + 12
     /\ Player.gravityDir (player s) == 1)
    \/ (v = GameObject.y obj + BLOCK_SIZE
        /\ GameObject.y obj + BLOCK_SIZE - 12 <= internalPrevY
        /\ Player.gravityDir (player s) == -1) ->
    outcome prevX internalPrevY obj s (land v s, false)
| out_morph m :
    startsWith_PORTAL (GameObject.type obj) = true ->
    portalMode (GameObject.type obj) = Some m ->
    m <> Player.mode (player s) ->
    portalOverlap (player s) obj = true ->
    prevX + PLAYER_SIZE <= GameObject.x obj + 15 ->
    outcome prevX internalPrevY obj s
      (emit (EvMorph (GameObject.x obj + BLOCK_SIZE / 2)
                     (GameObject.y obj + BLOCK_SIZE / 2)
                     (getPortalHue (GameObject.type obj)))
            (with_player (set_gravityDir 1 (set_mode m (player s))) s), false).


(** The pair the gravity claims are about. *)
Definition modeGravity (s : Sim) : PlayerMode * Q :=
  (Player.mode (player s), Player.gravityDir (player s)).

(** A discrete interaction flips gravity in place, in Ball, Swing and
    Spider mode. *)
Inductive interactionFlip : PlayerMode * Q -> PlayerMode * Q -> Prop :=
| flip_ball g : interactionFlip (BALL, g) (BALL, flipGravity g)
| flip_swing g : interactionFlip (SWING, g) (SWING, flipGravity g)
| flip_spider g : interactionFlip (SPIDER, g) (SPIDER, flipGravity g).

(** A portal that changes the mode resets gravity to 1. *)
Inductive portalReset : PlayerMode * Q -> PlayerMode * Q -> Prop :=
| reset_mode m g m' : m' <> m -> portalReset (m, g) (m', 1).

Definition gravityStep (a b : PlayerMode * Q) : Prop :=
  interactionFlip a b \/ portalReset a b.


(** The world bounds of the player's y, and the two resting heights a
    Block gives: on top of it and under it. *)
Definition inBounds (y : Q) : Prop := 0 <= y <= 360.

Definition onBlockSurface {K : Constants} (objects : list GameObject.t) (y : Q) : Prop :=
  exists obj, In obj objects /\ GameObject.type obj = BLOCK
              /\ (y = GameObject.y obj - PLAYER_SIZE \/ y = GameObject.y obj + BLOCK_SIZE).

(** Levels none of whose Blocks gives a resting height outside the world
    bounds: a Block's top is not in the first [PLAYER_SIZE] units under the
    upper bound and its bottom is not in the first [BLOCK_SIZE] units under
    the lower one. *)
Definition blocksClearOfBounds {K : Constants} (objects : list GameObject.t) : bool :=
  forallb (fun obj =>
             match GameObject.type obj with
             | BLOCK =>
               (Qleb (GameObject.y obj) 0 || Qleb PLAYER_SIZE (GameObject.y obj))
               && (Qleb (GameObject.y obj + BLOCK_SIZE) 360 || Qleb 360 (GameObject.y obj))
             | _ => true
             end) objects.


(** The player's y is inside the world bounds or rests on a Block of the
    level. *)
Definition rests {K : Constants} (objects : list GameObject.t) (s : Sim) : Prop :=
  inBounds (Player.y (player s)) \/ onBlockSurface objects (Player.y (player s)).

(** [s'] extends the event log of [s] by events other than [EvWin]. *)
Definition emitsNoWin (s s' : Sim) : Prop :=
  exists evs, events s' = events s ++ evs /\ ~ In EvWin evs.

(** The completion the last frame displayed is the one of the current x. *)
Definition completionCurrent (wx : Q) (s : Sim) : Prop :=
  completion s = Math_min 100 (Player.x (player s) / wx * 100).


(** A morph event of a frame that started at [x0] stems from a portal of
    the index that passed the leading-edge gate for [x0]; other events are
    unconstrained. *)
Definition morphFromGate {K : Constants} (chunks : gmap Z (list GameObject.t))
           (x0 : Q) (e : Event) : Prop :=
  match e with
  | EvMorph ax ay hue =>
    exists obj,
      indexed chunks obj
      /\ startsWith_PORTAL (GameObject.type obj) = true
      /\ ax = GameObject.x obj + BLOCK_SIZE / 2
      /\ ay = GameObject.y obj + BLOCK_SIZE / 2
      /\ hue = getPortalHue (GameObject.type obj)
      /\ x0 + PLAYER_SIZE <= GameObject.x obj + 15
  | _ => True
  end.


(** The state with the mode and the sprite rotation blanked out: two states
    with the same [physics] differ at most in those two fields. *)
Definition physics (s : Sim) : Sim :=
  with_player (set_rotation 0 (set_mode CUBE (player s))) s.

(** Modes whose velocity rule is gravity alone. *)
Definition gravityOnly (s : Sim) : Prop :=
  Player.mode (player s) = CUBE \/ Player.mode (player s) = SPIDER.

(** A Spider (or Cube) state and a Cube (or Spider) state that agree on
    everything but the mode and the rotation. *)
Definition fallsAlike (s c : Sim) : Prop :=
  gravityOnly s /\ gravityOnly c /\ physics s = physics c.


(** The sign the physics multiplies by: [gravityDir] is 1 or -1. *)
Definition unitGravity (s : Sim) : Prop :=
  Player.gravityDir (player s) = 1 \/ Player.gravityDir (player s) = -1.

(** The player's mode is the initial one or the mode of a portal of the
    level. *)
Definition modeFromLevel (objects : list GameObject.t) (s : Sim) : Prop :=
  Player.mode (player s) = CUBE
  \/ exists obj, In obj objects
                 /\ startsWith_PORTAL (GameObject.type obj) = true
                 /\ portalMode (GameObject.type obj) = Some (Player.mode (player s)).

(** The death sequences of the event log, and the log of a session that
    ran the death sequence exactly when the player is dead. *)
Definition isDeath (e : Event) : bool :=
  match e with EvDeath => true | _ => false end.
Definition deaths (s : Sim) : nat := length (List.filter isDeath (events s)).
Definition deathLogged (s : Sim) : Prop :=
  deaths s = if Player.isDead (player s) then 1%nat else 0%nat.




(** The progress bar lags the player: the displayed completion is
    between 0 and the completion of the current [x]. *)
Definition progressSound (wx : Q) (s : Sim) : Prop :=
  0 <= Player.x (player s)
  /\ 0 <= completion s <= Math_min 100 (Player.x (player s) / wx * 100).



(** ** The draw buffer

    [draw] gathers the chunks from [floor((cameraX - 100) / CHUNK_SIZE)]
    to [floor((cameraX + GAME_WIDTH + 100) / CHUNK_SIZE)].  [GAME_WIDTH]
    comes from the constants module.  [drawBuffer] is the buffer at the end
    of the gathering loop; the sort by layer that follows permutes it. *)

Definition drawChunks (GAME_WIDTH cameraX : Q) : list Z :=
  let startC := Math_floor ((cameraX - 100) / CHUNK_SIZE) in
  let endC := Math_floor ((cameraX + GAME_WIDTH + 100) / CHUNK_SIZE) in
  seqZ startC (endC - startC + 1).

Definition drawBuffer (GAME_WIDTH : Q) (chunks : gmap Z (list GameObject.t))
           (cameraX : Q) : list GameObject.t :=
  concat (map (fun c => default [] (chunks !! c)) (drawChunks GAME_WIDTH cameraX)).



(** * Pausing

    [togglePause] and the interval callback of its countdown, over the
    state and refs they share.  The clock reading [now] is an input;
    [countdownTimer] tells whether [countdownTimerRef] holds an interval,
    and the callback only runs while it does. *)

Module Pause.

Record t := mk {
  isLocalPaused : bool;
  countdown : option Z;
  countdownTimer : bool;
  pauseStartTime : option Q;
  totalPauseDuration : Q
}.


Definition togglePause (now : Q) (st : t) : t :=
  let willPause := negb (isLocalPaused st) in
  if willPause then
    if countdownTimer st
    then mk willPause None false (pauseStartTime st) (totalPauseDuration st)
    else mk willPause (countdown st) false (Some now) (totalPauseDuration st)
  else mk willPause (Some 3%Z) true (pauseStartTime st) (totalPauseDuration st).

(** The end of the countdown: the interval is cleared and the time since
    the game froze is added to the total, when a start time is set (a
    start time of 0 is falsy and is left). *)
Definition endCountdown (now : Q) (st : t) : t :=
  match pauseStartTime st with
  | Some start =>
    if Qeq_bool start 0
    then mk (isLocalPaused st) None false (pauseStartTime st) (totalPauseDuration st)
    else mk (isLocalPaused st) None false None (totalPauseDuration st + (now - start))
  | None => mk (isLocalPaused st) None false None (totalPauseDuration st)
  end.

(** The callback given to [setInterval]. *)
Definition countdownTick (now : Q) (st : t) : t :=
  if negb (countdownTimer st) then st else
  match countdown st with
  | Some c =>
    if (1 <? c)%Z
    then mk (isLocalPaused st) (Some (c - 1)%Z) (countdownTimer st)
            (pauseStartTime st) (totalPauseDuration st)
    else endCountdown now st
  | None => endCountdown now st
  end.



Inductive Input := Toggle (now : Q) | Interval (now : Q).

Definition step (st : t) (i : Input) : t :=
  match i with
  | Toggle now => togglePause now st
  | Interval now => countdownTick now st
  end.




End Pause.


(** * The level editor

    [components/Editor.tsx] keeps the level as a list of objects with an
    optional layer [z], an index of it by chunks of 400 units, a selection
    and an undo stack.  [GAME_WIDTH] comes from the constants module, the
    new ids from the clock. *)

Module Obj.
Record t := mk { base : GameObject.t; z : option Q }.
Definition id (o : t) : string := GameObject.id (base o).
Definition type (o : t) : ObjectType := GameObject.type (base o).
Definition x (o : t) : Q := GameObject.x (base o).
Definition y (o : t) : Q := GameObject.y (base o).
(** [o.z || 0] *)
Definition zOf (o : t) : Q := default 0 (z o).
End Obj.

Module Editor.

Definition CHUNK_SIZE : Q := 400.

(** [Array.prototype.sort] is stable, and the comparators of the editor
    are differences of layers: the result is the input in the order of the
    layers, objects of one layer in their input order.  Insertion from the
    right computes it. *)
Fixpoint insertBy {A : Type} (le : A -> A -> bool) (a : A) (l : list A) : list A :=
  match l with
  | [] => [a]
  | b :: rest => if le a b then a :: l else b :: insertBy le a rest
  end.

Definition sortBy {A : Type} (le : A -> A -> bool) (l : list A) : list A :=
  foldr (insertBy le) [] l.

(** [(a, b) => (a.z || 0) - (b.z || 0)] and [(a, b) => (b.z || 0) - (a.z || 0)]. *)
Definition byLayer (a b : Obj.t) : bool := Qle_bool (Obj.zOf a) (Obj.zOf b).
Definition byLayerDesc (a b : Obj.t) : bool := Qle_bool (Obj.zOf b) (Obj.zOf a).

Fixpoint findIndex {A : Type} (p : A -> bool) (l : list A) : option nat :=
  match l with
  | [] => None
  | a :: rest => if p a then Some O else option_map S (findIndex p rest)
  end.

Record State := mkState {
  objects : list Obj.t;
  selectedId : option string;
  undoStack : list (list Obj.t);
  redoStack : list (list Obj.t)
}.

(** [pushUndo]: keep the last 49 snapshots, add the level, clear redo. *)
Definition pushUndo (st : State) : State :=
  mkState (objects st) (selectedId st)
          (drop (length (undoStack st) - 49) (undoStack st) ++ [objects st]) [].

Inductive Tool := Place (t : ObjectType) | ERASER | SELECT.



Section Canvas.
Context {K : Constants}.
Variable GAME_WIDTH : Q.

(** [spatialIndex]: every object, in layer order, is pushed on each chunk
    from the one of its left edge to the one of its right edge. *)
Definition chunksOf (o : Obj.t) : list Z :=
  let chunkX := Math_floor (Obj.x o / CHUNK_SIZE) in
  let chunkXEnd := Math_floor ((Obj.x o + BLOCK_SIZE) / CHUNK_SIZE) in
  seqZ chunkX (chunkXEnd - chunkX + 1).

Definition pushChunk (o : Obj.t) (index : gmap Z (list Obj.t)) (i : Z)
  : gmap Z (list Obj.t) :=
  <[i := default [] (index !! i) ++ [o]]> index.

Definition spatialIndex (objects : list Obj.t) : gmap Z (list Obj.t) :=
  foldl (fun index o => foldl (pushChunk o) index (chunksOf o))
        ∅ (sortBy byLayer objects).

(** The render effect's gathering of the visible objects: the chunks of
    the view, each object once by id, inside the view, in layer order. *)
Definition pushVisible (viewLeft viewRight : Q)
           (st : list Obj.t * gset string) (o : Obj.t) : list Obj.t * gset string :=
  let '(visibleObjects, processedIds) := st in
  if bool_decide (Obj.id o ∈ processedIds) then st
  else if Qgeb (Obj.x o + BLOCK_SIZE) viewLeft && Qleb (Obj.x o) viewRight
       then (visibleObjects ++ [o], {[Obj.id o]} ∪ processedIds)
       else st.

Definition gatherVisible (index : gmap Z (list Obj.t)) (scrollX : Q)
  : list Obj.t * gset string :=
  let startChunk := Math_floor (scrollX / CHUNK_SIZE) in
  let endChunk := Math_floor ((scrollX + GAME_WIDTH) / CHUNK_SIZE) in
  let viewLeft := scrollX in
  let viewRight := scrollX + GAME_WIDTH in
  foldl (fun st i => foldl (pushVisible viewLeft viewRight) st (default [] (index !! i)))
        ([], ∅) (seqZ startChunk (endChunk - startChunk + 1)).

Definition visibleObjects (index : gmap Z (list Obj.t)) (scrollX : Q) : list Obj.t :=
  sortBy byLayer (fst (gatherVisible index scrollX)).

(** [handleCanvasClick], from the world coordinates of the click. *)
Definition snap (snapToGrid : bool) (world : Q) : Q :=
  if snapToGrid then inject_Z (Math_floor (world / BLOCK_SIZE)) * BLOCK_SIZE
  else world - BLOCK_SIZE / 2.

Definition hit (worldX worldY : Q) (o : Obj.t) : bool :=
  Qgeb worldX (Obj.x o) && Qleb worldX (Obj.x o + BLOCK_SIZE)
  && Qgeb worldY (Obj.y o) && Qleb worldY (Obj.y o + BLOCK_SIZE).

Definition clickedObj (objects : list Obj.t) (worldX worldY : Q) : option Obj.t :=
  head (sortBy byLayerDesc (List.filter (hit worldX worldY) objects)).

(** [blocked] is [confirmingAction || isPreviewing || viewingHistory];
    [now] is the clock reading the new id is made of.  [findIndex] cannot
    fail in the replacing branch: the clicked object is one of the level. *)
Definition handleCanvasClick (blocked snapToGrid : bool) (activeTool : Tool)
           (now : string) (worldX worldY : Q) (st : State) : State :=
  if blocked then st else
  let x := snap snapToGrid worldX in
  let y := snap snapToGrid worldY in
  let clicked := clickedObj (objects st) worldX worldY in
  match activeTool with
  | SELECT =>
    let sel := match clicked with
               | Some o => if String.eqb (Obj.id o) EmptyString then None
                           else Some (Obj.id o)
               | None => None
               end in
    mkState (objects st) sel (undoStack st) (redoStack st)
  | ERASER =>
    let st := pushUndo st in
    match clicked with
    | Some o =>
      mkState (List.filter (fun o' => negb (String.eqb (Obj.id o') (Obj.id o))) (objects st))
              (match selectedId st with
               | Some sid => if String.eqb sid (Obj.id o) then None else Some sid
               | None => None
               end)
              (undoStack st) (redoStack st)
    | None => st
    end
  | Place t =>
    let st := pushUndo st in
    let newObj := Obj.mk (GameObject.mk (String.append "obj-" now) t x y) (Some 0) in
    match clicked with
    | Some o =>
      match findIndex (fun o' => String.eqb (Obj.id o') (Obj.id o)) (objects st) with
      | Some idx =>
        mkState (<[idx := Obj.mk (Obj.base newObj) (Obj.z o)]> (objects st))
                (selectedId st) (undoStack st) (redoStack st)
      | None => st
      end
    | None =>
      mkState (objects st ++ [newObj]) (selectedId st) (undoStack st) (redoStack st)
    end
  end.

(** [autoRoof].  [roofId] makes the id of the roof block at [x] from the
    clock; the loop [for (x = 0; x <= maxX; x += BLOCK_SIZE)] takes fuel,
    [None] is fuel exhaustion. *)
Variable roofId : Q -> string.

Definition isRoofAt (x : Q) (o : Obj.t) : bool :=
  Qeq_bool (Obj.x o) x && Qeq_bool (Obj.y o) 0
  && match Obj.type o with BLOCK => true | _ => false end.

Definition roofBlock (x : Q) : Obj.t :=
  Obj.mk (GameObject.mk (roofId x) BLOCK x 0) (Some 0).

Fixpoint roofLoop (fuel : nat) (x maxX : Q) (newObjects : list Obj.t)
  : option (list Obj.t) :=
  if Qleb x maxX then
    match fuel with
    | O => None
    | S fuel' =>
      roofLoop fuel' (x + BLOCK_SIZE) maxX
               (if negb (existsb (isRoofAt x) newObjects)
                then newObjects ++ [roofBlock x] else newObjects)
    end
  else Some newObjects.

Definition roofMaxX (objects : list Obj.t) : Q :=
  foldl (fun max o => Math_max max (Obj.x o)) 0 objects + 1000.

(** Iterations the loop can take up to [maxX]. *)
Definition roofFuel (maxX : Q) : nat :=
  Z.to_nat (Math_floor (maxX / BLOCK_SIZE) + 1).

Definition autoRoof (st : State) : option State :=
  let st' := pushUndo st in
  let maxX := roofMaxX (objects st) in
  match roofLoop (roofFuel maxX) 0 maxX (objects st) with
  | Some newObjects =>
    Some (mkState newObjects (selectedId st') (undoStack st') (redoStack st'))
  | None => None
  end.

End Canvas.

End Editor.

(** A level in the editor: a Block that lies across the border of the
    chunks 0 and 1, and a Spike of layer 1; the Spike is selected. *)
Definition editorLevel : list Obj.t :=
  [Obj.mk (GameObject.mk "a" BLOCK 380 360) None;
   Obj.mk (GameObject.mk "b" SPIKE 420 360) (Some 1)].
Definition editorState : Editor.State :=
  Editor.mkState editorLevel (Some "b"%string) [] [].



(** What the gathering loop keeps true of the visible objects and of the
    processed ids, after scanning [scanned]. *)
Definition gathered {K : Constants} (viewLeft viewRight : Q) (scanned : list Obj.t)
           (st : list Obj.t * gset string) : Prop :=
  (forall s, s ∈ snd st <-> In s (map Obj.id (fst st)))
  /\ NoDup (map Obj.id (fst st))
  /\ (forall o, In o (fst st) ->
                In o scanned /\ viewLeft <= Obj.x o + BLOCK_SIZE /\ Obj.x o <= viewRight)
  /\ (forall o, In o scanned ->
                viewLeft <= Obj.x o + BLOCK_SIZE -> Obj.x o <= viewRight ->
                Obj.id o ∈ snd st).


(** * Properties *)

(** ** Comparisons as propositions *)

Lemma Qltb_lt a b : Qltb a b = true <-> a < b.
Proof.
  unfold Qltb. rewrite negb_true_iff, <- not_true_iff_false, Qle_bool_iff.
  split; [apply Qnot_le_lt | apply Qlt_not_le].
Qed.

Lemma Qgtb_lt a b : Qgtb a b = true <-> b < a.
Proof. apply Qltb_lt. Qed.

Lemma Qleb_le a b : Qleb a b = true <-> a <= b.
Proof. apply Qle_bool_iff. Qed.

Lemma Qgeb_le a b : Qgeb a b = true <-> b <= a.
Proof. apply Qle_bool_iff. Qed.

Lemma Qltb_ge a b : Qltb a b = false <-> b <= a.
Proof.
  unfold Qltb. rewrite negb_false_iff. apply Qle_bool_iff.
Qed.

Lemma Qleb_gt a b : Qleb a b = false <-> b < a.
Proof.
  unfold Qleb. rewrite <- not_true_iff_false, Qle_bool_iff.
  split; [apply Qnot_le_lt | apply Qlt_not_le].
Qed.

Lemma Qeqb_eq a b : Qeq_bool a b = true <-> a == b.
Proof. apply Qeq_bool_iff. Qed.

Lemma Qeqb_neq a b : Qeq_bool a b = false <-> ~ a == b.
Proof. rewrite <- not_true_iff_false, Qeq_bool_iff. tauto. Qed.

(** Turn the boolean tests of the model in the context into (in)equalities. *)
Ltac props :=
  repeat match goal with
  | H : _ && _ = true |- _ => apply andb_true_iff in H; destruct H
  | H : Qltb _ _ = true |- _ => apply Qltb_lt in H
  | H : Qgtb _ _ = true |- _ => apply Qgtb_lt in H
  | H : Qleb _ _ = true |- _ => apply Qleb_le in H
  | H : Qgeb _ _ = true |- _ => apply Qgeb_le in H
  | H : Qltb _ _ = false |- _ => apply Qltb_ge in H
  | H : Qgtb _ _ = false |- _ => apply Qltb_ge in H
  | H : Qleb _ _ = false |- _ => apply Qleb_gt in H
  | H : Qgeb _ _ = false |- _ => apply Qleb_gt in H
  | H : Qeq_bool _ _ = true |- _ => apply Qeqb_eq in H
  | H : Qeq_bool _ _ = false |- _ => apply Qeqb_neq in H
  end.

Lemma mode_eqb_eq a b : mode_eqb a b = true <-> a = b.
Proof. destruct a, b; simpl; split; congruence. Qed.

Lemma mode_eqb_neq a b : mode_eqb a b = false <-> a <> b.
Proof. rewrite <- not_true_iff_false, mode_eqb_eq. tauto. Qed.

(** ** The integrator's sub-step count *)

Lemma stepsOf_facts (speed : Q) :
  stepsOf speed = Z.max 1 (Qceiling (speed / 4))
  /\ (1 <= stepsOf speed)%Z
  /\ stepsOf speed <> 0%Z
  /\ (1 <= Z.to_nat (stepsOf speed))%nat
  /\ ~ inject_Z (stepsOf speed) == 0
  /\ speed / inject_Z (stepsOf speed) * inject_Z (stepsOf speed) == speed
  /\ (forall vy, vy / inject_Z (stepsOf speed) * inject_Z (stepsOf speed) == vy)
  /\ speed / inject_Z (stepsOf speed) <= 4
  /\ (forall n, (1 <= n)%Z -> speed / inject_Z n <= 4 -> (stepsOf speed <= n)%Z).
Proof.
  assert (Hpos : (1 <= stepsOf speed)%Z) by (unfold stepsOf; lia).
  assert (Hq : 1 <= inject_Z (stepsOf speed)).
  { change 1 with (inject_Z 1). rewrite <- Zle_Qle. exact Hpos. }
  assert (Hnz : ~ inject_Z (stepsOf speed) == 0) by lra.
  repeat split; try (unfold stepsOf; lia); try exact Hnz.
  - field. exact Hnz.
  - intros vy. field. exact Hnz.
  - apply Qle_shift_div_r; [lra|].
    assert (Hc : speed / 4 <= inject_Z (stepsOf speed)).
    { eapply Qle_trans; [apply Qle_ceiling|].
      rewrite <- Zle_Qle. unfold stepsOf, Math_ceil. lia. }
    assert (Hsp : speed == 4 * (speed / 4)) by field.
    revert Hc Hsp. generalize (speed / 4). intros q Hc Hsp. lra.
  - intros n Hn Hle.
    assert (Hnq : 1 <= inject_Z n).
    { change 1 with (inject_Z 1). rewrite <- Zle_Qle. exact Hn. }
    assert (Hs : speed / 4 <= inject_Z n).
    { assert (speed == speed / inject_Z n * inject_Z n) by (field; lra).
      assert (speed / inject_Z n * inject_Z n <= 4 * inject_Z n).
      { apply Qmult_le_compat_r; lra. }
      assert (Hsp : speed == 4 * (speed / 4)) by field.
      revert H H0 Hsp. generalize (speed / inject_Z n * inject_Z n), (speed / 4).
      intros a b ? ? ?. lra. }
    unfold stepsOf, Math_ceil. apply Z.max_lub; [exact Hn|].
    assert (Hlt : inject_Z (Qceiling (speed / 4) - 1) < inject_Z n).
    { eapply Qlt_le_trans; [apply Qceiling_lt | exact Hs]. }
    rewrite <- Zlt_Qlt in Hlt. lia.
Qed.

(** ** The collision resolver, one object at a time *)

Section Resolver.
Context {K : Constants}.

Lemma land_fields v s :
  Player.y (player (land v s)) = v
  /\ Player.vy (player (land v s)) = 0
  /\ Player.isJumping (player (land v s)) = false
  /\ onSurfaceRef (land v s) = true
  /\ Player.isDead (player (land v s)) = Player.isDead (player s)
  /\ Player.x (player (land v s)) = Player.x (player s)
  /\ Player.mode (player (land v s)) = Player.mode (player s)
  /\ Player.gravityDir (player (land v s)) = Player.gravityDir (player s)
  /\ events (land v s) = events s.
Proof. repeat split. Qed.

Lemma die_fields s :
  Player.isDead (player (die s)) = true
  /\ events (die s) = events s ++ [EvDeath]
  /\ Player.y (player (die s)) = Player.y (player s)
  /\ Player.mode (player (die s)) = Player.mode (player s)
  /\ Player.gravityDir (player (die s)) = Player.gravityDir (player s).
Proof. repeat split. Qed.

Lemma tests_true a b c e f :
  Qleb a b && Qgeb c 0 && Qeq_bool e f = true <-> a <= b /\ 0 <= c /\ e == f.
Proof. rewrite !andb_true_iff, Qleb_le, Qgeb_le, Qeqb_eq. tauto. Qed.

(** The three ways the loop body treats an overlapping Block. *)
Lemma block_cases phX phY prevX internalPrevY obj s :
  GameObject.type obj = BLOCK ->
  blockOverlap (player s) obj = true ->
  let p := player s in
  let r := collideObject phX phY prevX internalPrevY obj s in
  let above :=
    internalPrevY + PLAYER_SIZE <= GameObject.y obj + 12
    /\ 0 <= Player.vy p * Player.gravityDir p
    /\ Player.gravityDir p == 1 in
  let below :=
    GameObject.y obj + BLOCK_SIZE - 12 <= internalPrevY
    /\ 0 <= Player.vy p * Player.gravityDir p
    /\ Player.gravityDir p == -1 in
  (Player.mode p = WAVE ->
     r = (die s, true) /\ Player.isDead (player (fst r)) = true)
  /\ (Player.mode p <> WAVE -> above ->
        r = (land (GameObject.y obj - PLAYER_SIZE) s, false)
        /\ Player.y (player (fst r)) = GameObject.y obj - PLAYER_SIZE
        /\ Player.vy (player (fst r)) = 0
        /\ onSurfaceRef (fst r) = true)
  /\ (Player.mode p <> WAVE -> below ->
        r = (land (GameObject.y obj + BLOCK_SIZE) s, false)
        /\ Player.y (player (fst r)) = GameObject.y obj + BLOCK_SIZE
        /\ Player.vy (player (fst r)) = 0
        /\ onSurfaceRef (fst r) = true)
  /\ (Player.mode p <> WAVE -> ~ above -> ~ below ->
        r = (die s, true) /\ Player.isDead (player (fst r)) = true).
Proof.
  intros Hty Hov p r above below. subst p r above below.
  unfold collideObject. rewrite Hty, Hov.
  destruct (mode_eqb (Player.mode (player s)) WAVE) eqn:Hw.
  { apply mode_eqb_eq in Hw.
    split; [intros _; split; reflexivity|].
    repeat split; intros; contradiction. }
  apply mode_eqb_neq in Hw.
  split; [intros; contradiction|].
  destruct (Qleb (internalPrevY + PLAYER_SIZE) (GameObject.y obj + 12)
            && Qgeb (Player.vy (player s) * Player.gravityDir (player s)) 0
            && Qeq_bool (Player.gravityDir (player s)) 1) eqn:Ha.
  { apply tests_true in Ha.
    split; [intros; repeat split; reflexivity|].
    split.
    - intros _ (_ & _ & Hg). destruct Ha as (_ & _ & Hg1).
      rewrite Hg1 in Hg. discriminate Hg.
    - intros _ Hna _. contradiction. }
  split; [intros _ Habove; apply tests_true in Habove; congruence|].
  destruct (Qgeb internalPrevY (GameObject.y obj + BLOCK_SIZE - 12)
            && Qgeb (Player.vy (player s) * Player.gravityDir (player s)) 0
            && Qeq_bool (Player.gravityDir (player s)) (-1)) eqn:Hb.
  { apply (tests_true (GameObject.y obj + BLOCK_SIZE - 12) internalPrevY) in Hb.
    split; [intros; repeat split; reflexivity|].
    intros _ _ Hnb. contradiction. }
  split; [|intros; split; reflexivity].
  intros _ Hbelow.
  apply (tests_true (GameObject.y obj + BLOCK_SIZE - 12) internalPrevY) in Hbelow.
  unfold Qgeb, Qleb in *. congruence.
Qed.

(** C2.  A Block whose full tile overlaps the player's full box: Wave
    dies; otherwise the pre-sub-step y and the tolerance of 12 decide
    between landing on top (gravityDir = 1), hanging below
    (gravityDir = -1) and death. *)
Theorem block_classification phX phY prevX internalPrevY obj s :
  GameObject.type obj = BLOCK ->
  blockOverlap (player s) obj = true ->
  let p := player s in
  let r := collideObject phX phY prevX internalPrevY obj s in
  let above :=
    internalPrevY + PLAYER_SIZE <= GameObject.y obj + 12
    /\ 0 <= Player.vy p * Player.gravityDir p
    /\ Player.gravityDir p == 1 in
  let below :=
    GameObject.y obj + BLOCK_SIZE - 12 <= internalPrevY
    /\ 0 <= Player.vy p * Player.gravityDir p
    /\ Player.gravityDir p == -1 in
  (Player.mode p = WAVE ->
     r = (die s, true) /\ Player.isDead (player (fst r)) = true)
  /\ (Player.mode p <> WAVE -> above ->
        r = (land (GameObject.y obj - PLAYER_SIZE) s, false)
        /\ Player.y (player (fst r)) = GameObject.y obj - PLAYER_SIZE
        /\ Player.vy (player (fst r)) = 0
        /\ onSurfaceRef (fst r) = true)
  /\ (Player.mode p <> WAVE -> below ->
        r = (land (GameObject.y obj + BLOCK_SIZE) s, false)
        /\ Player.y (player (fst r)) = GameObject.y obj + BLOCK_SIZE
        /\ Player.vy (player (fst r)) = 0
        /\ onSurfaceRef (fst r) = true)
  /\ (Player.mode p <> WAVE -> ~ above -> ~ below ->
        r = (die s, true) /\ Player.isDead (player (fst r)) = true).
Proof. apply block_cases. Qed.

Lemma with_player_same s : with_player (player s) s = s.
Proof. destruct s; reflexivity. Qed.

Lemma set_mode_same p : set_mode (Player.mode p) p = p.
Proof. destruct p; reflexivity. Qed.

Lemma mode_eqb_refl m : mode_eqb m m = true.
Proof. destruct m; reflexivity. Qed.

(** C8.  A portal whose kind maps to the player's current mode leaves
    the whole state as it was, whether or not the collision triggers:
    no morph event, no gravity reset, and the loop goes on. *)
Theorem portal_same_mode_noop phX phY prevX internalPrevY obj s :
  portalMode (GameObject.type obj) = Some (Player.mode (player s)) ->
  collideObject phX phY prevX internalPrevY obj s = (s, false)
  /\ events (fst (collideObject phX phY prevX internalPrevY obj s)) = events s
  /\ Player.gravityDir (player (fst (collideObject phX phY prevX internalPrevY obj s)))
     = Player.gravityDir (player s).
Proof.
  intros Hm.
  assert (Hr : collideObject phX phY prevX internalPrevY obj s = (s, false)).
  { unfold collideObject.
    destruct (GameObject.type obj) eqn:Hty; simpl in Hm; try discriminate;
      injection Hm as Hm; simpl startsWith_PORTAL; cbv iota;
      destruct (portalOverlap (player s) obj); try reflexivity;
      destruct (Qleb (prevX + PLAYER_SIZE) (GameObject.x obj + 15)); try reflexivity;
      simpl; rewrite <- Hm, mode_eqb_refl; simpl;
      rewrite Hm, set_mode_same, with_player_same; reflexivity. }
  rewrite Hr. repeat split.
Qed.

(** The leading-edge gate of a portal, on the body of the object loop. *)
Lemma portal_gate phX phY prevX internalPrevY obj s :
  startsWith_PORTAL (GameObject.type obj) = true ->
  let r := collideObject phX phY prevX internalPrevY obj s in
  (r <> (s, false) ->
     portalOverlap (player s) obj = true
     /\ prevX + PLAYER_SIZE <= GameObject.x obj + 15)
  /\ (GameObject.x obj + 15 < prevX + PLAYER_SIZE -> r = (s, false))
  /\ (Player.mode (player (fst r)) <> Player.mode (player s)
      \/ Player.gravityDir (player (fst r)) <> Player.gravityDir (player s)
      \/ events (fst r) <> events s ->
      prevX + PLAYER_SIZE <= GameObject.x obj + 15).
Proof.
  intros Hp r.
  assert (Hcases :
    r = (s, false)
    \/ (portalOverlap (player s) obj = true
        /\ prevX + PLAYER_SIZE <= GameObject.x obj + 15)).
  { subst r. unfold collideObject.
    destruct (GameObject.type obj) eqn:Hty; try (simpl in Hp; discriminate);
      cbv beta iota; rewrite Hp;
      (destruct (portalOverlap (player s) obj); [|left; reflexivity]);
      (destruct (Qleb (prevX + PLAYER_SIZE) (GameObject.x obj + 15)) eqn:Hg;
       [|left; reflexivity]);
      right; (split; [reflexivity | apply Qleb_le; exact Hg]). }
  split; [|split].
  - intros Hne. destruct Hcases as [Hs | Hs]; [contradiction | exact Hs].
  - intros Hlt. destruct Hcases as [Hs | [_ Hle]]; [exact Hs | lra].
  - intros Hch. destruct Hcases as [Hs | [_ Hle]]; [|exact Hle].
    rewrite Hs in Hch. simpl in Hch. tauto.
Qed.


End Resolver.

(** ** The spatial index *)

Lemma buildChunks_foldl objects (chunks : gmap Z (list GameObject.t)) c :
  default [] (foldl (fun chunks obj =>
                       let chunkId := chunkOf (GameObject.x obj) in
                       <[chunkId := default [] (chunks !! chunkId) ++ [obj]]> chunks)
                    chunks objects !! c)
  = default [] (chunks !! c) ++ List.filter (inChunk c) objects.
Proof.
  revert chunks. induction objects as [|obj objects IH]; intros chunks; simpl.
  - rewrite app_nil_r. reflexivity.
  - rewrite IH. unfold inChunk at 2.
    destruct (Z.eqb_spec (chunkOf (GameObject.x obj)) c) as [->|Hne].
    + rewrite lookup_insert_eq. simpl. rewrite <- app_assoc. reflexivity.
    + rewrite lookup_insert_ne by exact Hne. reflexivity.
Qed.

(** A chunk holds the level's objects of that chunk, in level order. *)
Lemma buildChunks_lookup objects c :
  default [] (buildChunks objects !! c) = List.filter (inChunk c) objects.
Proof.
  unfold buildChunks. rewrite buildChunks_foldl, lookup_empty. reflexivity.
Qed.

Lemma gather_buildChunks objects pChunk :
  gather (buildChunks objects) pChunk
  = List.filter (inChunk (pChunk - 1)) objects
    ++ List.filter (inChunk pChunk) objects
    ++ List.filter (inChunk (pChunk + 1)) objects
    ++ List.filter (inChunk (pChunk + 2)) objects.
Proof.
  unfold gather. simpl. rewrite !buildChunks_lookup, app_nil_r. reflexivity.
Qed.

Lemma gather_indexed chunks pChunk obj :
  In obj (gather chunks pChunk) -> indexed chunks obj.
Proof.
  unfold gather. rewrite in_concat. intros (l & Hl & Hobj).
  apply in_map_iff in Hl. destruct Hl as (c & Hc & _).
  destruct (chunks !! c) as [l'|] eqn:Hlk; simpl in Hc; subst l.
  - exists c, l'. split; assumption.
  - contradiction.
Qed.

Lemma indexed_buildChunks objects obj :
  indexed (buildChunks objects) obj -> In obj objects.
Proof.
  intros (c & l & Hl & Hobj).
  pose proof (buildChunks_lookup objects c) as Hc. rewrite Hl in Hc. simpl in Hc.
  rewrite Hc in Hobj. apply filter_In in Hobj. tauto.
Qed.

(** ** The object loop *)

Section Loop.
Context {K : Constants}.

Lemma collideObject_outcome phX phY prevX internalPrevY obj s :
  outcome prevX internalPrevY obj s
          (collideObject phX phY prevX internalPrevY obj s).
Proof.
  unfold collideObject.
  destruct (GameObject.type obj) eqn:Hty.
  1: { (* Block *)
    destruct (blockOverlap (player s) obj) eqn:Hov; [|constructor].
    destruct (mode_eqb (Player.mode (player s)) WAVE) eqn:Hw; [constructor|].
    apply mode_eqb_neq in Hw.
    destruct (Qleb (internalPrevY + PLAYER_SIZE) (GameObject.y obj + 12)
              && Qgeb (Player.vy (player s) * Player.gravityDir (player s)) 0
              && Qeq_bool (Player.gravityDir (player s)) 1) eqn:Ha.
    { apply tests_true in Ha. apply out_land; tauto. }
    destruct (Qgeb internalPrevY (GameObject.y obj + BLOCK_SIZE - 12)
              && Qgeb (Player.vy (player s) * Player.gravityDir (player s)) 0
              && Qeq_bool (Player.gravityDir (player s)) (-1)) eqn:Hb.
    { apply (tests_true (GameObject.y obj + BLOCK_SIZE - 12) internalPrevY) in Hb.
      apply out_land; tauto. }
    constructor. }
  1: { (* Spike *) destruct (spikeHit phX phY obj); constructor. }
  all: cbv beta iota;
    (destruct (startsWith_PORTAL _) eqn:Hsp; [|constructor]);
    (destruct (portalOverlap (player s) obj) eqn:Hov; [|constructor]);
    (destruct (Qleb (prevX + PLAYER_SIZE) (GameObject.x obj + 15)) eqn:Hg;
     [apply Qleb_le in Hg|constructor]);
    cbv zeta;
    pose proof (out_morph prevX internalPrevY obj s) as Hmorph;
    rewrite Hty in Hmorph;
    (destruct (portalMode _) as [m|] eqn:Hpm;
     [destruct (mode_eqb (Player.mode (player s)) m) eqn:Hm; simpl negb; cbv iota;
      [apply mode_eqb_eq in Hm; subst m;
       rewrite set_mode_same, with_player_same; constructor
      |apply mode_eqb_neq in Hm; apply (Hmorph m); auto]
     |rewrite mode_eqb_refl; simpl negb; cbv iota;
      rewrite set_mode_same, with_player_same; constructor]).
Qed.

Lemma outcome_stop prevX internalPrevY obj s r :
  outcome prevX internalPrevY obj s r -> snd r = true -> r = (die s, true).
Proof. intros Ho Hs. inversion Ho; subst; simpl in Hs; congruence. Qed.

Lemma outcome_continue prevX internalPrevY obj s r :
  outcome prevX internalPrevY obj s r -> snd r = false ->
  Player.isDead (player (fst r)) = Player.isDead (player s).
Proof. intros Ho Hs. inversion Ho; subst; simpl in *; congruence. Qed.

Lemma outcome_x prevX internalPrevY obj s r :
  outcome prevX internalPrevY obj s r ->
  Player.x (player (fst r)) = Player.x (player s).
Proof. intros Ho. inversion Ho; subst; reflexivity. Qed.

(** Loop invariants: a property kept by every outcome is kept by the
    object loop. *)
Lemma collide_invariant (P : Sim -> Prop) phX phY prevX internalPrevY buffer s :
  (forall obj s0 r, In obj buffer -> P s0 ->
                    outcome prevX internalPrevY obj s0 r -> P (fst r)) ->
  P s -> P (collide phX phY prevX internalPrevY buffer s).
Proof.
  revert s. induction buffer as [|obj rest IH]; intros s Hstep Hs; simpl; [exact Hs|].
  pose proof (collideObject_outcome phX phY prevX internalPrevY obj s) as Ho.
  destruct (collideObject phX phY prevX internalPrevY obj s) as [s1 stop] eqn:Hc.
  assert (H1 : P s1) by (apply (Hstep obj s (s1, stop)); simpl; auto).
  destruct stop; [exact H1|].
  apply IH; [|exact H1].
  intros obj' s0 r Hin. apply Hstep. right. exact Hin.
Qed.

Lemma visited_collide phX phY prevX internalPrevY buffer s :
  Player.isDead (player s) = false ->
  let v := visited phX phY prevX internalPrevY buffer s in
  let s' := collide phX phY prevX internalPrevY buffer s in
  (exists rest, buffer = v ++ rest)
  /\ s' = collide phX phY prevX internalPrevY v s
  /\ (Player.isDead (player s') = false -> v = buffer)
  /\ (Player.isDead (player s') = true ->
      exists pre obj,
        v = pre ++ [obj]
        /\ visited phX phY prevX internalPrevY pre s = pre
        /\ Player.isDead (player (collide phX phY prevX internalPrevY pre s)) = false
        /\ collideObject phX phY prevX internalPrevY obj
                         (collide phX phY prevX internalPrevY pre s)
           = (die (collide phX phY prevX internalPrevY pre s), true)
        /\ s' = die (collide phX phY prevX internalPrevY pre s)).
Proof.
  revert s. induction buffer as [|obj rest IH]; intros s Halive; simpl.
  { repeat split; try reflexivity.
    - exists []. reflexivity.
    - intros Hd. congruence. }
  pose proof (collideObject_outcome phX phY prevX internalPrevY obj s) as Ho.
  destruct (collideObject phX phY prevX internalPrevY obj s) as [s1 stop] eqn:Hc.
  destruct stop.
  - apply outcome_stop in Ho; [|reflexivity]. injection Ho as ->.
    simpl. rewrite Hc.
    repeat split.
    + exists rest. reflexivity.
    + simpl. intros Hd. discriminate.
    + intros _. exists [], obj. simpl. rewrite Hc. repeat split. exact Halive.
  - apply outcome_continue in Ho; [|reflexivity]. simpl in Ho.
    assert (Halive1 : Player.isDead (player s1) = false) by congruence.
    destruct (IH s1 Halive1) as ((rest' & Hrest) & Hcol & Hall & Hdead).
    repeat split.
    + exists rest'. simpl. f_equal. exact Hrest.
    + simpl. rewrite Hc. exact Hcol.
    + intros Hd. f_equal. apply Hall. exact Hd.
    + intros Hd. destruct (Hdead Hd) as (pre & o & Hv & Hpre & Hpa & Hk & Hs').
      exists (obj :: pre), o. simpl. rewrite Hc.
      repeat split; try assumption.
      * f_equal. exact Hv.
      * f_equal. exact Hpre.
Qed.


Lemma blockOverlap_true p obj :
  Player.x p < GameObject.x obj + BLOCK_SIZE ->
  GameObject.x obj < Player.x p + PLAYER_SIZE ->
  Player.y p < GameObject.y obj + BLOCK_SIZE ->
  GameObject.y obj < Player.y p + PLAYER_SIZE ->
  blockOverlap p obj = true.
Proof.
  intros H1 H2 H3 H4. unfold blockOverlap.
  rewrite !andb_true_iff, !Qltb_lt, !Qgtb_lt. tauto.
Qed.

(** Whatever the sizes, a landing does not end the loop: a player on the
    floor steps onto a block 5 units high and is killed, in the same pass,
    by a block hanging 2 units over its new height. *)
Lemma landing_then_death_any_size phX phY prevX :
  0 < PLAYER_SIZE -> 0 < BLOCK_SIZE -> 10 < PLAYER_SIZE + BLOCK_SIZE ->
  let s := mkSim (Player.mk 0 360 0 0 false false CUBE 1) 0 0 false 0 true false 0 [] in
  let A := block 0 (355 + PLAYER_SIZE) in
  let B := block 0 (358 - BLOCK_SIZE) in
  collideObject phX phY prevX 360 A s = (land (355 + PLAYER_SIZE - PLAYER_SIZE) s, false)
  /\ visited phX phY prevX 360 [A; B] s = [A; B]
  /\ collide phX phY prevX 360 [A; B] s
     = die (land (355 + PLAYER_SIZE - PLAYER_SIZE) s).
Proof.
  intros HP HB Hsum s A B.
  assert (HA : collideObject phX phY prevX 360 A s
               = (land (355 + PLAYER_SIZE - PLAYER_SIZE) s, false)).
  { assert (Hov : blockOverlap (player s) A = true)
      by (apply blockOverlap_true; cbn; lra).
    destruct (block_cases phX phY prevX 360 A s eq_refl Hov) as (_ & Hab & _).
    apply Hab; [cbn; discriminate|]. cbn. repeat split; lra. }
  assert (HBd : collideObject phX phY prevX 360 B (land (355 + PLAYER_SIZE - PLAYER_SIZE) s)
                = (die (land (355 + PLAYER_SIZE - PLAYER_SIZE) s), true)).
  { assert (Hov : blockOverlap (player (land (355 + PLAYER_SIZE - PLAYER_SIZE) s)) B = true)
      by (apply blockOverlap_true; cbn; lra).
    destruct (block_cases phX phY prevX 360 B _ eq_refl Hov) as (_ & _ & _ & Hd).
    apply Hd; [cbn; discriminate | cbn; intros (H & _); lra | cbn; intros (_ & _ & H); lra]. }
  split; [exact HA|]. split.
  - cbn [visited]. rewrite HA, HBd. reflexivity.
  - cbn [collide]. rewrite HA, HBd. reflexivity.
Qed.


(** C1 (amended).  The candidate buffer is the four chunks around the
    player in chunk order, each in level order.  The loop visits a prefix
    of it and stops only at the first lethal outcome: when the player
    survives, every candidate was checked; when the player dies, the
    candidates before the lethal one were all checked without a break.
    A landing does not end the loop: the rest of the buffer is checked
    against the landed state. *)
Theorem resolver_stops_at_first_death objects pChunk phX phY prevX internalPrevY s :
  Player.isDead (player s) = false ->
  let buffer := gather (buildChunks objects) pChunk in
  let v := visited phX phY prevX internalPrevY buffer s in
  let s' := collide phX phY prevX internalPrevY buffer s in
  buffer = List.filter (inChunk (pChunk - 1)) objects
           ++ List.filter (inChunk pChunk) objects
           ++ List.filter (inChunk (pChunk + 1)) objects
           ++ List.filter (inChunk (pChunk + 2)) objects
  /\ (exists rest, buffer = v ++ rest)
  /\ s' = collide phX phY prevX internalPrevY v s
  /\ (Player.isDead (player s') = false -> v = buffer)
  /\ (Player.isDead (player s') = true ->
      exists pre obj,
        v = pre ++ [obj]
        /\ visited phX phY prevX internalPrevY pre s = pre
        /\ Player.isDead (player (collide phX phY prevX internalPrevY pre s)) = false
        /\ collideObject phX phY prevX internalPrevY obj
                         (collide phX phY prevX internalPrevY pre s)
           = (die (collide phX phY prevX internalPrevY pre s), true)
        /\ s' = die (collide phX phY prevX internalPrevY pre s))
  /\ (forall obj rest y,
        collideObject phX phY prevX internalPrevY obj s = (land y s, false) ->
        collide phX phY prevX internalPrevY (obj :: rest) s
        = collide phX phY prevX internalPrevY rest (land y s)
        /\ visited phX phY prevX internalPrevY (obj :: rest) s
           = obj :: visited phX phY prevX internalPrevY rest (land y s)).
Proof.
  intros Halive buffer v s'.
  split; [apply gather_buildChunks|].
  pose proof (visited_collide phX phY prevX internalPrevY buffer s Halive)
    as (Hpre & Hcol & Hall & Hdead).
  repeat split; try assumption.
  - simpl. rewrite H. reflexivity.
  - simpl. rewrite H. reflexivity.
Qed.


End Loop.

(** ** Sub-steps and frames *)

Section Frame.
Context {K : Constants}.

Lemma rotate_fields speed steps pressed p :
  let p' := rotate speed steps pressed p in
  Player.x p' = Player.x p /\ Player.y p' = Player.y p
  /\ Player.vy p' = Player.vy p /\ Player.isDead p' = Player.isDead p
  /\ Player.isJumping p' = Player.isJumping p
  /\ Player.mode p' = Player.mode p
  /\ Player.gravityDir p' = Player.gravityDir p.
Proof.
  unfold rotate.
  destruct (Player.mode p) eqn:Hm; try destruct (Player.isJumping p) eqn:Hj;
    simpl; rewrite ?Hm, ?Hj; repeat split.
Qed.

(** After the move and the clamp of a sub-step the player is inside the
    world bounds, whatever y it started from. *)
Lemma advance_fields speed steps stepX stepY s :
  let s' := advance speed steps stepX stepY s in
  0 <= Player.y (player s') <= 360
  /\ Player.x (player s') = Player.x (player s) + stepX
  /\ Player.mode (player s') = Player.mode (player s)
  /\ Player.gravityDir (player s') = Player.gravityDir (player s)
  /\ Player.isDead (player s') = Player.isDead (player s)
  /\ events s' = events s
  /\ completion s' = completion s
  /\ isJumpButtonPressed s' = isJumpButtonPressed s.
Proof.
  unfold advance, clampY.
  set (p1 := set_y _ _).
  pose proof (rotate_fields speed steps (isJumpButtonPressed s) p1)
    as (Hx & Hy & Hvy & Hd & Hj & Hm & Hg).
  cbv zeta in *. simpl player.
  destruct (Qgeb (Player.y (rotate speed steps (isJumpButtonPressed s) p1)) 360) eqn:H1;
    [|destruct (Qleb (Player.y (rotate speed steps (isJumpButtonPressed s) p1)) 0) eqn:H2];
    props; simpl; rewrite ?Hx, ?Hm, ?Hg, ?Hd; repeat split; try lra.
Qed.

Lemma subStep_invariant (P : Sim -> Prop) (R : Q -> Sim -> Prop)
      speed steps stepX stepY prevX chunks s :
  (forall s0, P s0 -> R (Player.y (player s0)) (advance speed steps stepX stepY s0)) ->
  (forall internalPrevY obj s0 r,
      indexed chunks obj -> R internalPrevY s0 ->
      outcome prevX internalPrevY obj s0 r -> R internalPrevY (fst r)) ->
  (forall internalPrevY s0, R internalPrevY s0 -> P s0) ->
  P s -> P (subStep speed steps stepX stepY prevX chunks s).
Proof.
  intros Hadv Hout HRP Hs. unfold subStep.
  apply (HRP (Player.y (player s))).
  apply collide_invariant; [|apply Hadv; exact Hs].
  intros obj s0 r Hin. apply Hout. eapply gather_indexed. exact Hin.
Qed.

Lemma subSteps_invariant (P : Sim -> Prop) n speed steps stepX stepY prevX chunks s :
  (forall s0, P s0 -> P (subStep speed steps stepX stepY prevX chunks s0)) ->
  P s -> P (subSteps n speed steps stepX stepY prevX chunks s).
Proof.
  intros Hstep. revert s. induction n as [|n IH]; intros s Hs; simpl; [exact Hs|].
  destruct (Player.isDead (player s)); [exact Hs|].
  apply IH, Hstep, Hs.
Qed.

(** A frame's integration keeps every property that the velocity phase,
    the move-and-clamp and each outcome of the object loop keep. *)
Lemma integrate_invariant (P : Sim -> Prop) (R : Q -> Sim -> Prop) speed chunks s :
  (forall s0, P s0 -> P (applyVelocity s0)) ->
  (forall steps stepX stepY s0,
      P s0 -> R (Player.y (player s0)) (advance speed steps stepX stepY s0)) ->
  (forall internalPrevY obj s0 r,
      indexed chunks obj -> R internalPrevY s0 ->
      outcome (Player.x (player s)) internalPrevY obj s0 r -> R internalPrevY (fst r)) ->
  (forall internalPrevY s0, R internalPrevY s0 -> P s0) ->
  P s -> P (integrate speed chunks s).
Proof.
  intros Hvel Hadv Hout HRP Hs. unfold integrate.
  apply subSteps_invariant; [|apply Hvel, Hs].
  intros s0 Hs0.
  apply (subStep_invariant P R);
    [intros; apply Hadv; assumption | exact Hout | exact HRP | exact Hs0].
Qed.

(** *** gravityDir *)

Lemma outcome_gravity prevX internalPrevY obj s r :
  outcome prevX internalPrevY obj s r ->
  modeGravity (fst r) = modeGravity s
  \/ (startsWith_PORTAL (GameObject.type obj) = true
      /\ portalReset (modeGravity s) (modeGravity (fst r))).
Proof.
  intros Ho. inversion Ho; subst; simpl; try (left; reflexivity).
  right. split; [assumption|]. unfold modeGravity. simpl.
  constructor. assumption.
Qed.

Lemma applyVelocity_fields s :
  let s' := applyVelocity s in
  modeGravity s' = modeGravity s
  /\ Player.x (player s') = Player.x (player s)
  /\ Player.y (player s') = Player.y (player s)
  /\ Player.isDead (player s') = Player.isDead (player s)
  /\ events s' = events s
  /\ completion s' = completion s
  /\ onSurfaceRef s' = onSurfaceRef s
  /\ isJumpButtonPressed s' = isJumpButtonPressed s.
Proof.
  unfold applyVelocity.
  destruct (frameVelocity _ _ _ _ _) as [v j]. repeat split.
Qed.

Lemma integrate_gravity speed chunks s :
  rtc portalReset (modeGravity s) (modeGravity (integrate speed chunks s)).
Proof.
  apply (integrate_invariant
           (fun s0 => rtc portalReset (modeGravity s) (modeGravity s0))
           (fun _ s0 => rtc portalReset (modeGravity s) (modeGravity s0))).
  - intros s0 H. destruct (applyVelocity_fields s0) as (-> & _). exact H.
  - intros steps stepX stepY s0 H.
    destruct (advance_fields speed steps stepX stepY s0)
      as (_ & _ & Hm & Hg & _).
    unfold modeGravity in *. rewrite Hm, Hg. exact H.
  - intros ipy obj s0 r _ H Ho.
    destruct (outcome_gravity _ _ _ _ _ Ho) as [-> | [_ Hr]]; [exact H|].
    eapply rtc_r; eassumption.
  - auto.
  - apply rtc_refl.
Qed.

Lemma spiderTeleport_gravity chunks s :
  modeGravity (spiderTeleport chunks s)
  = (Player.mode (player s), flipGravity (Player.gravityDir (player s))).
Proof. reflexivity. Qed.

Lemma triggerInteraction_gravity paused isAutoJump chunks s :
  let s' := triggerInteraction paused isAutoJump chunks s in
  modeGravity s' = modeGravity s
  \/ interactionFlip (modeGravity s) (modeGravity s').
Proof.
  unfold triggerInteraction.
  destruct (Player.isDead (player s) || paused); [left; reflexivity|].
  destruct (Player.mode (player s)) eqn:Hm;
    try destruct (negb isAutoJump || onSurfaceRef s);
    try destruct (onSurfaceRef s);
    try (left; reflexivity);
    right; unfold modeGravity; try rewrite spiderTeleport_gravity;
    simpl; rewrite Hm; constructor.
Qed.

Lemma autoJump_gravity paused chunks s :
  let s' := autoJump paused chunks s in
  modeGravity s' = modeGravity s
  \/ interactionFlip (modeGravity s) (modeGravity s').
Proof.
  unfold autoJump.
  destruct (isJumpButtonPressed s && onSurfaceRef s && negb (actionBufferActive s)).
  - apply (triggerInteraction_gravity paused true chunks s).
  - destruct (negb (onSurfaceRef s)); left; reflexivity.
Qed.

Lemma update_gravity paused speed wx chunks s :
  let s' := update paused speed wx chunks s in
  exists mid,
    rtc portalReset (modeGravity s) mid
    /\ (modeGravity s' = mid \/ interactionFlip mid (modeGravity s')).
Proof.
  unfold update.
  destruct paused; [exists (modeGravity s); split; [apply rtc_refl | left; reflexivity]|].
  simpl player.
  destruct (Player.isDead (player s));
    [exists (modeGravity s); split; [apply rtc_refl | left; reflexivity]|].
  set (s1 := integrate speed chunks (with_frame (frame s + 1) s)).
  exists (modeGravity s1). split.
  - apply (integrate_gravity speed chunks (with_frame (frame s + 1) s)).
  - set (s2 := with_completion _ (with_cameraX _ s1)).
    assert (H2 : modeGravity s2 = modeGravity s1) by reflexivity.
    rewrite <- H2.
    pose proof (autoJump_gravity false chunks s2) as Ha. cbv zeta in Ha.
    destruct (Qgtb _ _); exact Ha.
Qed.


Lemma handle_gravity speed objects s i :
  rtc gravityStep (modeGravity s) (modeGravity (handle speed objects s i)).
Proof.
  destruct i; unfold handle.
  - destruct (update_gravity false speed (winX objects) (buildChunks objects) s)
      as (mid & Hreset & Hflip).
    assert (Hmid : rtc gravityStep (modeGravity s) mid).
    { eapply rtc_subrel; [|exact Hreset]. intros a b Hab. right. exact Hab. }
    destruct Hflip as [-> | Hflip]; [exact Hmid|].
    eapply rtc_r; [exact Hmid | left; exact Hflip].
  - unfold onPress. destruct (isJumpButtonPressed s); [apply rtc_refl|].
    destruct (triggerInteraction_gravity false false (buildChunks objects) s)
      as [Heq | Hflip].
    + unfold modeGravity in *. simpl. rewrite Heq. apply rtc_refl.
    + apply rtc_once. left. exact Hflip.
  - apply rtc_refl.
Qed.

(** C4 (amended).  gravityDir changes only by (a) a discrete interaction
    in Ball, Swing or Spider mode, which flips it, or (b) a portal
    collision that changes the mode, which resets it to 1.  The
    interaction callback does (a) or nothing; the object loop does (b) or
    nothing; a frame's integration is a chain of (b); every callback of a
    session, and so every session, is a chain of (a) and (b). *)
Theorem gravityDir_flip_or_reset speed objects :
  (forall paused isAutoJump s,
      let s' := triggerInteraction paused isAutoJump (buildChunks objects) s in
      modeGravity s' = modeGravity s
      \/ interactionFlip (modeGravity s) (modeGravity s'))
  /\ (forall phX phY prevX internalPrevY obj s,
         let r := collideObject phX phY prevX internalPrevY obj s in
         modeGravity (fst r) = modeGravity s
         \/ (startsWith_PORTAL (GameObject.type obj) = true
             /\ portalReset (modeGravity s) (modeGravity (fst r))))
  /\ (forall s,
         rtc portalReset (modeGravity s)
             (modeGravity (integrate speed (buildChunks objects) s)))
  /\ (forall s i,
         rtc gravityStep (modeGravity s) (modeGravity (handle speed objects s i)))
  /\ (forall inputs,
         rtc gravityStep (modeGravity initialSim)
             (modeGravity (play speed objects inputs))).
Proof.
  split; [intros; apply triggerInteraction_gravity|].
  split; [intros; eapply outcome_gravity, collideObject_outcome|].
  split; [intros; apply integrate_gravity|].
  split; [intros; apply handle_gravity|].
  intros inputs. unfold play. generalize initialSim.
  induction inputs as [|i inputs IH]; intros s0; simpl; [apply rtc_refl|].
  etransitivity; [apply handle_gravity | apply IH].
Qed.


(** *** The portal gate over a frame *)

Lemma integrate_morphs speed chunks s :
  exists evs,
    events (integrate speed chunks s) = events s ++ evs
    /\ Forall (morphFromGate chunks (Player.x (player s))) evs.
Proof.
  set (P := fun s0 => exists evs,
                 events s0 = events s ++ evs
                 /\ Forall (morphFromGate chunks (Player.x (player s))) evs).
  apply (integrate_invariant P (fun _ => P)); subst P; cbv beta.
  - intros s0 (evs & He & Hf). exists evs. split; [|exact Hf].
    destruct (applyVelocity_fields s0) as (_ & _ & _ & _ & -> & _). exact He.
  - intros steps stepX stepY s0 (evs & He & Hf). exists evs. split; [|exact Hf].
    destruct (advance_fields speed steps stepX stepY s0)
      as (_ & _ & _ & _ & _ & -> & _). exact He.
  - intros ipy obj s0 r Hidx (evs & He & Hf) Ho.
    inversion Ho; subst; simpl fst.
    + exists evs. split; assumption.
    + exists (evs ++ [EvDeath]). split.
      * simpl. rewrite He, app_assoc. reflexivity.
      * apply Forall_app. split; [exact Hf|]. constructor; [exact I | constructor].
    + exists evs. split; assumption.
    + eexists (evs ++ [EvMorph _ _ _]). split.
      * simpl. rewrite He, app_assoc. reflexivity.
      * apply Forall_app. split; [exact Hf|]. constructor; [|constructor].
        exists obj. repeat split; assumption.
  - auto.
  - exists []. rewrite app_nil_r. split; [reflexivity | constructor].
Qed.

(** C3.  A portal acts only on a leading-edge entry.  On the body of the
    object loop: if the body changes anything at a [PORTAL_] object, the
    player's box overlaps the portal's 150-unit-tall box and
    [prevX + PLAYER_SIZE <= obj.x + 15]; once the pre-step right edge is
    past that line the portal does nothing, so a player straddling it is
    not morphed again.  Over a frame: [prevX] is the x the frame started
    with, and every morph event of the frame stems from a portal of the
    index whose gate that x passed. *)
Theorem portal_leading_edge :
  (forall phX phY prevX internalPrevY obj s,
      startsWith_PORTAL (GameObject.type obj) = true ->
      let r := collideObject phX phY prevX internalPrevY obj s in
      (r <> (s, false) ->
         portalOverlap (player s) obj = true
         /\ prevX + PLAYER_SIZE <= GameObject.x obj + 15)
      /\ (GameObject.x obj + 15 < prevX + PLAYER_SIZE -> r = (s, false))
      /\ (Player.mode (player (fst r)) <> Player.mode (player s)
          \/ Player.gravityDir (player (fst r)) <> Player.gravityDir (player s)
          \/ events (fst r) <> events s ->
          prevX + PLAYER_SIZE <= GameObject.x obj + 15))
  /\ (forall speed chunks s,
         exists evs,
           events (integrate speed chunks s) = events s ++ evs
           /\ Forall (morphFromGate chunks (Player.x (player s))) evs).
Proof.
  split.
  - intros. apply portal_gate. assumption.
  - intros. apply integrate_morphs.
Qed.

(** *** The frame's horizontal advance *)

Lemma subStep_x speed steps stepX stepY prevX chunks s :
  Player.x (player (subStep speed steps stepX stepY prevX chunks s))
  = Player.x (player s) + stepX.
Proof.
  unfold subStep.
  apply (collide_invariant (fun s0 => Player.x (player s0) = Player.x (player s) + stepX)).
  - intros obj s0 r _ H Ho. rewrite (outcome_x _ _ _ _ _ Ho). exact H.
  - apply (advance_fields speed steps stepX stepY s).
Qed.

Lemma subSteps_x n speed steps stepX stepY prevX chunks s :
  Player.isDead (player (subSteps n speed steps stepX stepY prevX chunks s)) = false ->
  Player.x (player (subSteps n speed steps stepX stepY prevX chunks s))
  == Player.x (player s) + inject_Z (Z.of_nat n) * stepX.
Proof.
  revert s. induction n as [|n IH]; intros s; simpl subSteps.
  - intros _. change (inject_Z (Z.of_nat 0)) with 0. ring.
  - destruct (Player.isDead (player s)) eqn:Hd; [intros H; congruence|].
    intros Halive. rewrite (IH _ Halive), subStep_x.
    rewrite Nat2Z.inj_succ, <- Z.add_1_r, inject_Z_plus.
    change (inject_Z 1) with 1. ring.
Qed.

(** C9.  The sub-step count is [max(1, ceil(S / 4))]; it is at least 1,
    hence never 0, so the per-sub-step displacements are genuine quotients:
    [stepX * steps == S] and [stepY * steps == vy].  It is the least
    positive count that keeps a horizontal sub-step at 4 units or less, and
    a frame that the player survives advances x by exactly [S]. *)
Theorem stepsOf_positive (speed : Q) :
  stepsOf speed = Z.max 1 (Qceiling (speed / 4))
  /\ (1 <= stepsOf speed)%Z
  /\ stepsOf speed <> 0%Z
  /\ ~ inject_Z (stepsOf speed) == 0
  /\ speed / inject_Z (stepsOf speed) * inject_Z (stepsOf speed) == speed
  /\ (forall vy, vy / inject_Z (stepsOf speed) * inject_Z (stepsOf speed) == vy)
  /\ speed / inject_Z (stepsOf speed) <= 4
  /\ (forall n, (1 <= n)%Z -> speed / inject_Z n <= 4 -> (stepsOf speed <= n)%Z)
  /\ (forall chunks s,
         Player.isDead (player (integrate speed chunks s)) = false ->
         Player.x (player (integrate speed chunks s)) == Player.x (player s) + speed).
Proof.
  destruct (stepsOf_facts speed) as (H1 & H2 & H3 & H4 & H5 & H6 & H7 & H8 & H9).
  repeat split; try assumption.
  intros chunks s Halive. unfold integrate in *.
  rewrite (subSteps_x _ _ _ _ _ _ _ _ Halive).
  destruct (applyVelocity_fields s) as (_ & -> & _).
  rewrite Z2Nat.id by lia.
  field. exact H5.
Qed.

End Frame.

(** ** The Spider teleport scan *)

Section Teleport.
Context {K : Constants}.

Lemma flipGravity_cases g :
  (Qeq_bool g 1 = true /\ flipGravity g = -1)
  \/ (Qeq_bool g 1 = false /\ flipGravity g = 1).
Proof. unfold flipGravity. destruct (Qeq_bool g 1); auto. Qed.

(** A hit of the inner loop names the Block it hit. *)
Lemma scanCandidates_found px y g candidates v :
  scanCandidates px y g candidates = Some v ->
  exists obj,
    In obj candidates /\ GameObject.type obj = BLOCK
    /\ ((g == 1 /\ v = GameObject.y obj - PLAYER_SIZE
         /\ GameObject.y obj <= y + PLAYER_SIZE /\ y < GameObject.y obj)
        \/ (g == -1 /\ v = GameObject.y obj + BLOCK_SIZE
            /\ y <= GameObject.y obj + BLOCK_SIZE /\ GameObject.y obj < y)).
Proof.
  induction candidates as [|obj rest IH]; simpl; [discriminate|].
  intros H.
  assert (Hrest : scanCandidates px y g rest = Some v ->
                  exists obj0, In obj0 (obj :: rest) /\ GameObject.type obj0 = BLOCK
    /\ ((g == 1 /\ v = GameObject.y obj0 - PLAYER_SIZE
         /\ GameObject.y obj0 <= y + PLAYER_SIZE /\ y < GameObject.y obj0)
        \/ (g == -1 /\ v = GameObject.y obj0 + BLOCK_SIZE
            /\ y <= GameObject.y obj0 + BLOCK_SIZE /\ GameObject.y obj0 < y))).
  { intros Hr. destruct (IH Hr) as (o & Hin & Ho). exists o. split; [right; exact Hin | exact Ho]. }
  destruct (GameObject.type obj) eqn:Hty; simpl in H; try (apply Hrest; exact H).
  destruct (Qltb px (GameObject.x obj + BLOCK_SIZE)
            && Qgtb (px + PLAYER_SIZE) (GameObject.x obj)); simpl in H;
    [|apply Hrest; exact H].
  destruct (Qeq_bool g 1 && Qgeb (y + PLAYER_SIZE) (GameObject.y obj)
            && Qltb y (GameObject.y obj)) eqn:H1.
  { injection H as <-. props. exists obj. split; [left; reflexivity|].
    split; [exact Hty|]. left. tauto. }
  destruct (Qeq_bool g (-1) && Qleb y (GameObject.y obj + BLOCK_SIZE)
            && Qgtb y (GameObject.y obj)) eqn:H2.
  { injection H as <-. props. exists obj. split; [left; reflexivity|].
    split; [exact Hty|]. right. tauto. }
  apply Hrest; exact H.
Qed.

(** A hit of the outer loop happened at a row on the scan's side of the
    start that passed the loop guard. *)
Lemma scanRows_found fuel px g step y candidates v :
  scanRows fuel px g step y candidates = Some (Some v) ->
  exists y',
    (0 <= step -> y <= y') /\ (step <= 0 -> y' <= y)
    /\ (if Qeq_bool g 1 then y' < 360 else 0 < y')
    /\ scanCandidates px y' g candidates = Some v.
Proof.
  revert y. induction fuel as [|fuel IH]; intros y; simpl.
  - destruct (if Qeq_bool g 1 then Qltb y 360 else Qgtb y 0); discriminate.
  - destruct (if Qeq_bool g 1 then Qltb y 360 else Qgtb y 0) eqn:Hguard;
      [|discriminate].
    destruct (scanCandidates px y g candidates) as [v'|] eqn:Hscan.
    + intros H. injection H as ->. exists y.
      repeat split; try lra; try exact Hscan.
      destruct (Qeq_bool g 1); props; assumption.
    + intros H. destruct (IH _ H) as (y' & Hup & Hdown & Hg & Hs).
      exists y'. repeat split; try assumption; intros Hstep;
        [specialize (Hup Hstep) | specialize (Hdown Hstep)]; lra.
Qed.

(** The scan ends within [scanFuel] rows: the model's fuel never runs
    out, in either direction. *)
Lemma scanRows_fuel fuel px g y candidates :
  (g = 1 \/ g = -1) ->
  (if Qeq_bool g 1 then 360 - y else y) <= inject_Z (Z.of_nat fuel) * 5 ->
  scanRows fuel px g (g * 5) y candidates <> None.
Proof.
  intros Hg.
  assert (Hq : (g = 1 /\ Qeq_bool g 1 = true) \/ (g = -1 /\ Qeq_bool g 1 = false)).
  { destruct Hg as [-> | ->]; [left | right]; split; reflexivity. }
  clear Hg. revert y. induction fuel as [|fuel IH]; intros y Hy; simpl.
  - change (inject_Z (Z.of_nat 0)) with 0 in Hy.
    destruct Hq as [[-> Hq] | [-> Hq]]; rewrite Hq in *.
    + destruct (Qltb y 360) eqn:Hlt; [props; lra | discriminate].
    + destruct (Qgtb y 0) eqn:Hgt; [props; lra | discriminate].
  - destruct (if Qeq_bool g 1 then Qltb y 360 else Qgtb y 0); [|discriminate].
    destruct (scanCandidates px y g candidates); [discriminate|].
    apply IH.
    rewrite Nat2Z.inj_succ, <- Z.add_1_r, inject_Z_plus in Hy.
    change (inject_Z 1) with 1 in Hy.
    destruct Hq as [[-> Hq] | [-> Hq]]; rewrite Hq in *; lra.
Qed.

Lemma scanFuel_enough g y0 :
  g = 1 \/ g = -1 ->
  (if Qeq_bool g 1 then 360 - (y0 + g * 5) else y0 + g * 5)
  <= inject_Z (Z.of_nat (scanFuel g y0)) * 5.
Proof.
  intros Hg. unfold scanFuel, Math_ceil.
  set (d := if Qeq_bool g 1 then 360 - y0 else y0).
  assert (Hd : d / 5 <= inject_Z (Z.of_nat (Z.to_nat (Qceiling (d / 5))))).
  { eapply Qle_trans; [apply Qle_ceiling|]. rewrite <- Zle_Qle. lia. }
  assert (H5 : d == 5 * (d / 5)) by field.
  revert Hd H5. generalize (d / 5). intros q Hd H5. subst d.
  destruct Hg as [-> | ->].
  - change (Qeq_bool 1 1) with true in *. cbv iota in *. lra.
  - change (Qeq_bool (-1) 1) with false in *. cbv iota in *. lra.
Qed.

(** The teleport's scan always ends by its own guard or by a hit. *)
Lemma spiderTeleport_scan_ends px y0 g candidates :
  let g' := flipGravity g in
  scanRows (scanFuel g' y0) px g' (g' * 5) (y0 + g' * 5) candidates <> None.
Proof.
  intros g'.
  assert (Hg : g' = 1 \/ g' = -1).
  { subst g'. destruct (flipGravity_cases g) as [[_ ->] | [_ ->]]; auto. }
  apply scanRows_fuel; [exact Hg|]. apply scanFuel_enough. exact Hg.
Qed.

(** Where the teleport puts the player: on the world bound in the new
    gravity direction, or on the surface of a Block of the index that a
    scanned row met. *)
Lemma spiderTeleport_y chunks s :
  let y0 := Player.y (player s) in
  let g' := flipGravity (Player.gravityDir (player s)) in
  let y' := Player.y (player (spiderTeleport chunks s)) in
  (y' = 360 \/ y' = 0)
  \/ exists obj row,
      indexed chunks obj /\ GameObject.type obj = BLOCK
      /\ ((y' = GameObject.y obj - PLAYER_SIZE
           /\ y0 + 5 <= row /\ row < 360
           /\ GameObject.y obj <= row + PLAYER_SIZE /\ row < GameObject.y obj)
          \/ (y' = GameObject.y obj + BLOCK_SIZE
              /\ row <= y0 - 5 /\ 0 < row
              /\ row <= GameObject.y obj + BLOCK_SIZE /\ GameObject.y obj < row)).
Proof.
  intros y0 g' y'. subst y'. unfold spiderTeleport. simpl Player.y.
  fold y0. fold g'.
  destruct (scanRows (scanFuel g' y0) (Player.x (player s)) g' (g' * 5)
                     (y0 + g' * 5)
                     (gather chunks (chunkOf (Player.x (player s)))))
    as [[v|]|] eqn:Hscan.
  - right.
    destruct (scanRows_found _ _ _ _ _ _ _ Hscan) as (row & Hup & Hdown & Hgd & Hc).
    destruct (scanCandidates_found _ _ _ _ _ Hc) as (obj & Hin & Hty & Hcase).
    exists obj, row. split; [eapply gather_indexed; exact Hin|].
    split; [exact Hty|].
    subst g'. destruct (flipGravity_cases (Player.gravityDir (player s)))
      as [[_ Hg] | [_ Hg]]; rewrite Hg in *.
    + destruct Hcase as [(Habs & _) | (_ & -> & Hle & Hrow)]; [discriminate Habs|].
      change (Qeq_bool (-1) 1) with false in Hgd. cbv iota in Hgd.
      right. repeat split; try assumption.
      assert (Hs : -1 * 5 <= 0) by lra. specialize (Hdown Hs). lra.
    + destruct Hcase as [(_ & -> & Hle & Hrow) | (Habs & _)]; [|discriminate Habs].
      change (Qeq_bool 1 1) with true in Hgd. cbv iota in Hgd.
      left. repeat split; try assumption.
      assert (Hs : 0 <= 1 * 5) by lra. specialize (Hup Hs). lra.
  - left. destruct (Qeq_bool g' 1); auto.
  - left. destruct (Qeq_bool g' 1); auto.
Qed.

Lemma flipGravity_changes g : ~ flipGravity g == g.
Proof.
  destruct (flipGravity_cases g) as [[Hg ->] | [Hg ->]]; props; lra.
Qed.

(** Whatever the constants, a press in Swing mode flips gravity, grounded
    or not, and leaves the mode alone. *)
Lemma swing_press_flips chunks s :
  Player.mode (player s) = SWING ->
  Player.isDead (player s) = false ->
  let s' := triggerInteraction false false chunks s in
  Player.mode (player s') = SWING
  /\ Player.gravityDir (player s') = flipGravity (Player.gravityDir (player s))
  /\ ~ Player.gravityDir (player s') == Player.gravityDir (player s).
Proof.
  intros Hm Hd. unfold triggerInteraction. rewrite Hd, Hm. simpl.
  repeat split; [exact Hm | apply flipGravity_changes].
Qed.


End Teleport.

(** ** World bounds *)

Section Bounds.
Context {K : Constants}.
Variable objects : list GameObject.t.

Lemma clear_block obj :
  blocksClearOfBounds objects = true ->
  In obj objects -> GameObject.type obj = BLOCK ->
  (GameObject.y obj <= 0 \/ PLAYER_SIZE <= GameObject.y obj)
  /\ (GameObject.y obj + BLOCK_SIZE <= 360 \/ 360 <= GameObject.y obj).
Proof.
  unfold blocksClearOfBounds. rewrite forallb_forall. intros Hall Hin Hty.
  specialize (Hall obj Hin). rewrite Hty in Hall.
  apply andb_true_iff in Hall. destruct Hall as [H1 H2].
  apply orb_true_iff in H1. apply orb_true_iff in H2.
  split; [destruct H1 as [H1|H1] | destruct H2 as [H2|H2]];
    props; auto.
Qed.

Lemma outcome_rests prevX internalPrevY obj s r :
  indexed (buildChunks objects) obj ->
  outcome prevX internalPrevY obj s r ->
  rests objects s -> rests objects (fst r).
Proof.
  intros Hidx Ho Hs. inversion Ho; subst; simpl; try exact Hs.
  right. exists obj. split; [apply indexed_buildChunks; exact Hidx|].
  split; [assumption|]. unfold land. simpl. tauto.
Qed.

Lemma blockOverlap_y p obj :
  blockOverlap p obj = true ->
  Player.y p < GameObject.y obj + BLOCK_SIZE
  /\ GameObject.y obj < Player.y p + PLAYER_SIZE.
Proof. unfold blockOverlap. intros H. props. split; assumption. Qed.

Lemma outcome_inBounds prevX internalPrevY obj s r :
  12 < PLAYER_SIZE -> 12 < BLOCK_SIZE ->
  blocksClearOfBounds objects = true ->
  indexed (buildChunks objects) obj ->
  inBounds internalPrevY ->
  inBounds (Player.y (player s)) ->
  outcome prevX internalPrevY obj s r ->
  inBounds (Player.y (player (fst r))).
Proof.
  intros HP HB Hclear Hidx Hprev Hy Ho. unfold inBounds in *.
  inversion Ho; subst; simpl; try exact Hy.
  apply indexed_buildChunks in Hidx.
  destruct (clear_block obj Hclear Hidx H) as [Htop Hbot].
  destruct (blockOverlap_y _ _ H0) as [Hlt Hgt].
  destruct H3 as [(-> & Habove & _) | (-> & Hbelow & _)]; lra.
Qed.

Lemma triggerInteraction_y paused isAutoJump chunks s :
  let s' := triggerInteraction paused isAutoJump chunks s in
  Player.y (player s') = Player.y (player s)
  \/ Player.y (player s') = Player.y (player (spiderTeleport chunks s)).
Proof.
  unfold triggerInteraction.
  destruct (Player.isDead (player s) || paused); [left; reflexivity|].
  destruct (Player.mode (player s));
    try destruct (negb isAutoJump || onSurfaceRef s);
    try destruct (onSurfaceRef s); auto.
Qed.

Lemma spiderTeleport_rests s : rests objects (spiderTeleport (buildChunks objects) s).
Proof.
  unfold rests.
  destruct (spiderTeleport_y (buildChunks objects) s)
    as [[-> | ->] | (obj & row & Hidx & Hty & Hcase)].
  - left. unfold inBounds. lra.
  - left. unfold inBounds. lra.
  - right. exists obj. split; [apply indexed_buildChunks; exact Hidx|].
    split; [exact Hty|]. tauto.
Qed.

Lemma spiderTeleport_inBounds s :
  blocksClearOfBounds objects = true ->
  inBounds (Player.y (player s)) ->
  inBounds (Player.y (player (spiderTeleport (buildChunks objects) s))).
Proof.
  intros Hclear Hy. unfold inBounds in *.
  destruct (spiderTeleport_y (buildChunks objects) s)
    as [[-> | ->] | (obj & row & Hidx & Hty & Hcase)]; try lra.
  apply indexed_buildChunks in Hidx.
  destruct (clear_block obj Hclear Hidx Hty) as [Htop Hbot].
  destruct Hcase as [(-> & ?) | (-> & ?)]; lra.
Qed.

Lemma integrate_rests speed s :
  rests objects s -> rests objects (integrate speed (buildChunks objects) s).
Proof.
  apply (integrate_invariant (rests objects) (fun _ => rests objects)).
  - intros s0 H. unfold rests.
    destruct (applyVelocity_fields s0) as (_ & _ & -> & _). exact H.
  - intros steps stepX stepY s0 _. left.
    apply (advance_fields speed steps stepX stepY s0).
  - intros ipy obj s0 r Hidx H Ho. eapply outcome_rests; eassumption.
  - auto.
Qed.

Lemma integrate_inBounds speed s :
  12 < PLAYER_SIZE -> 12 < BLOCK_SIZE ->
  blocksClearOfBounds objects = true ->
  inBounds (Player.y (player s)) ->
  inBounds (Player.y (player (integrate speed (buildChunks objects) s))).
Proof.
  intros HP HB Hclear.
  apply (integrate_invariant
           (fun s0 => inBounds (Player.y (player s0)))
           (fun ipy s0 => inBounds ipy /\ inBounds (Player.y (player s0)))).
  - intros s0 H. destruct (applyVelocity_fields s0) as (_ & _ & -> & _). exact H.
  - intros steps stepX stepY s0 H. split; [exact H|].
    apply (advance_fields speed steps stepX stepY s0).
  - intros ipy obj s0 r Hidx [Hprev H] Ho. split; [exact Hprev|].
    apply (outcome_inBounds (Player.x (player s)) ipy obj s0 r); assumption.
  - intros ipy s0 [_ H]. exact H.
Qed.

Lemma autoJump_y paused chunks s :
  let s' := autoJump paused chunks s in
  Player.y (player s') = Player.y (player s)
  \/ Player.y (player s') = Player.y (player (spiderTeleport chunks s)).
Proof.
  unfold autoJump.
  destruct (isJumpButtonPressed s && onSurfaceRef s && negb (actionBufferActive s)).
  - apply (triggerInteraction_y paused true chunks s).
  - destruct (negb (onSurfaceRef s)); left; reflexivity.
Qed.

(** Whatever the sizes, a landing can leave the world bounds: a player at
    the floor with inverted gravity hangs under a block whose bottom is 5
    units below the floor line. *)
Lemma hang_outside_bounds_any_size phX phY prevX :
  0 < PLAYER_SIZE -> 0 < BLOCK_SIZE -> 5 < PLAYER_SIZE + BLOCK_SIZE ->
  let s := mkSim (Player.mk 0 360 0 0 false false BALL (-1)) 0 0 false 0 true false 0 [] in
  let obj := block 0 (365 - BLOCK_SIZE) in
  let r := collideObject phX phY prevX 360 obj s in
  inBounds (Player.y (player s))
  /\ r = (land (365 - BLOCK_SIZE + BLOCK_SIZE) s, false)
  /\ Player.isDead (player (fst r)) = false
  /\ Player.y (player (fst r)) == 365
  /\ ~ inBounds (Player.y (player (fst r))).
Proof.
  intros HP HB Hsum s obj r.
  assert (Hr : r = (land (365 - BLOCK_SIZE + BLOCK_SIZE) s, false)).
  { assert (Hov : blockOverlap (player s) obj = true)
      by (apply blockOverlap_true; cbn; lra).
    destruct (block_cases phX phY prevX 360 obj s eq_refl Hov) as (_ & _ & Hbe & _).
    apply Hbe; [cbn; discriminate|]. cbn. repeat split; lra. }
  rewrite Hr. unfold inBounds. cbn. repeat split; lra.
Qed.


Lemma rests_ext s1 s2 :
  Player.y (player s2) = Player.y (player s1) -> rests objects s1 -> rests objects s2.
Proof. unfold rests. intros ->. auto. Qed.

Lemma emitWin_y wx s :
  Player.y (player (if Qgtb (Player.x (player s)) wx then emit EvWin s else s))
  = Player.y (player s).
Proof. destruct (Qgtb _ _); reflexivity. Qed.

Lemma update_rests paused speed wx s :
  rests objects s -> rests objects (update paused speed wx (buildChunks objects) s).
Proof.
  intros Hs. unfold update.
  destruct paused; [exact Hs|]. simpl player.
  destruct (Player.isDead (player s)); [exact Hs|].
  set (s1 := integrate speed (buildChunks objects) (with_frame (frame s + 1) s)).
  assert (H1 : rests objects s1) by (apply integrate_rests; exact Hs).
  set (s2 := with_completion _ (with_cameraX _ s1)).
  apply (rests_ext (autoJump false (buildChunks objects) s2)); [apply emitWin_y|].
  destruct (autoJump_y false (buildChunks objects) s2) as [Hy | Hy].
  - apply (rests_ext s1); [exact Hy | exact H1].
  - apply (rests_ext (spiderTeleport (buildChunks objects) s2));
      [exact Hy | apply spiderTeleport_rests].
Qed.

Lemma update_inBounds paused speed wx s :
  12 < PLAYER_SIZE -> 12 < BLOCK_SIZE ->
  blocksClearOfBounds objects = true ->
  inBounds (Player.y (player s)) ->
  inBounds (Player.y (player (update paused speed wx (buildChunks objects) s))).
Proof.
  intros HP HB Hclear Hs. unfold update.
  destruct paused; [exact Hs|]. simpl player.
  destruct (Player.isDead (player s)); [exact Hs|].
  set (s1 := integrate speed (buildChunks objects) (with_frame (frame s + 1) s)).
  assert (H1 : inBounds (Player.y (player s1)))
    by (apply integrate_inBounds; assumption).
  set (s2 := with_completion _ (with_cameraX _ s1)).
  rewrite emitWin_y.
  destruct (autoJump_y false (buildChunks objects) s2) as [-> | ->].
  - exact H1.
  - apply spiderTeleport_inBounds; assumption.
Qed.

Lemma onPress_rests paused s :
  rests objects s -> rests objects (onPress paused (buildChunks objects) s).
Proof.
  intros Hs. unfold onPress.
  destruct (isJumpButtonPressed s); [exact Hs|].
  apply (rests_ext (triggerInteraction paused false (buildChunks objects) s));
    [reflexivity|].
  destruct (triggerInteraction_y paused false (buildChunks objects) s) as [Hy | Hy].
  - apply (rests_ext s); [exact Hy | exact Hs].
  - apply (rests_ext (spiderTeleport (buildChunks objects) s));
      [exact Hy | apply spiderTeleport_rests].
Qed.

Lemma onPress_inBounds paused s :
  blocksClearOfBounds objects = true ->
  inBounds (Player.y (player s)) ->
  inBounds (Player.y (player (onPress paused (buildChunks objects) s))).
Proof.
  intros Hclear Hs. unfold onPress.
  destruct (isJumpButtonPressed s); [exact Hs|]. simpl player.
  destruct (triggerInteraction_y paused false (buildChunks objects) s) as [-> | ->].
  - exact Hs.
  - apply spiderTeleport_inBounds; assumption.
Qed.

Lemma play_invariant (P : Sim -> Prop) speed inputs :
  (forall s i, P s -> P (handle speed objects s i)) ->
  P initialSim -> P (play speed objects inputs).
Proof.
  intros Hstep. unfold play. generalize initialSim.
  induction inputs as [|i inputs IH]; intros s Hs; simpl; [exact Hs|].
  apply IH, Hstep, Hs.
Qed.

(** C5 (amended).  The clamp of every sub-step puts y inside [0, 360]
    before the collision checks.  Whatever the inputs, after every
    callback of a session y is inside [0, 360] or is the resting height
    of a Block of the level, on top of it ([obj.y - PLAYER_SIZE]) or under
    it ([obj.y + BLOCK_SIZE]), where a landing or the Spider teleport put
    the player.  When no Block of the level has such a resting height
    outside the bounds, y is inside [0, 360] throughout. *)
Theorem y_in_bounds_or_on_block speed inputs :
  (forall steps stepX stepY s,
      inBounds (Player.y (player (advance speed steps stepX stepY s))))
  /\ (inBounds (Player.y (player (play speed objects inputs)))
      \/ onBlockSurface objects (Player.y (player (play speed objects inputs))))
  /\ (12 < PLAYER_SIZE -> 12 < BLOCK_SIZE ->
      blocksClearOfBounds objects = true ->
      inBounds (Player.y (player (play speed objects inputs)))).
Proof.
  split; [intros; apply advance_fields|].
  split.
  - apply (play_invariant (rests objects)).
    + intros s [| |] Hs; unfold handle.
      * apply update_rests; exact Hs.
      * apply onPress_rests; exact Hs.
      * exact Hs.
    + left. unfold inBounds. simpl. lra.
  - intros HP HB Hclear.
    apply (play_invariant (fun s => inBounds (Player.y (player s)))).
    + intros s [| |] Hs; unfold handle.
      * apply update_inBounds; assumption.
      * apply onPress_inBounds; assumption.
      * exact Hs.
    + unfold inBounds. simpl. lra.
Qed.

End Bounds.

(** ** Win distance, completion and the win event *)

Section Completion.
Context {K : Constants}.

Lemma Math_max_spec a b :
  a <= Math_max a b /\ b <= Math_max a b /\ (Math_max a b = a \/ Math_max a b = b).
Proof.
  unfold Math_max. destruct (Qle_bool a b) eqn:H.
  - apply Qle_bool_iff in H. repeat split; auto; lra.
  - apply Qleb_gt in H. repeat split; auto; lra.
Qed.

Lemma lastObjX_foldl objects acc :
  let m := foldl (fun max obj => Math_max max (GameObject.x obj)) acc objects in
  acc <= m
  /\ (forall obj, In obj objects -> GameObject.x obj <= m)
  /\ (m = acc \/ exists obj, In obj objects /\ m = GameObject.x obj).
Proof.
  revert acc. induction objects as [|o objects IH]; intros acc; simpl.
  - split; [lra|]. split; [intros ? []|]. left. reflexivity.
  - destruct (IH (Math_max acc (GameObject.x o))) as (Hacc & Hall & Hone).
    destruct (Math_max_spec acc (GameObject.x o)) as (Ha & Hb & Hc).
    split; [lra|]. split.
    + intros obj [<- | Hin]; [lra | apply Hall; exact Hin].
    + destruct Hone as [-> | (obj & Hin & ->)].
      * destruct Hc as [-> | ->]; [left; reflexivity|].
        right. exists o. split; [left|]; reflexivity.
      * right. exists obj. split; [right; exact Hin | reflexivity].
Qed.

Lemma winX_max objects obj0 :
  In obj0 objects ->
  (forall obj, In obj objects -> GameObject.x obj <= GameObject.x obj0) ->
  winX objects == Math_max MIN_WIN_DISTANCE (GameObject.x obj0 + 1000).
Proof.
  intros Hin Hmax. unfold winX, lastObjX, MIN_WIN_DISTANCE.
  destruct (lastObjX_foldl objects 0) as (H0 & Hall & Hone). cbv zeta in *.
  set (m := foldl _ 0 objects) in *.
  specialize (Hall obj0 Hin).
  assert (Hm : m == 0 /\ GameObject.x obj0 <= 0 \/ m == GameObject.x obj0).
  { destruct Hone as [-> | (obj & Hobj & ->)].
    - left. split; [reflexivity | exact Hall].
    - right. specialize (Hmax obj Hobj). lra. }
  destruct (Math_max_spec 3000 (m + 1000)) as (A1 & A2 & A3).
  destruct (Math_max_spec 3000 (GameObject.x obj0 + 1000)) as (B1 & B2 & B3).
  destruct A3 as [A3 | A3], B3 as [B3 | B3];
    rewrite A3 in *; rewrite B3 in *; destruct Hm as [[? ?] | ?]; lra.
Qed.

Lemma emitsNoWin_refl s s' : events s' = events s -> emitsNoWin s s'.
Proof. intros H. exists []. rewrite app_nil_r. split; [exact H | intros []]. Qed.

Lemma emitsNoWin_trans s1 s2 s3 :
  emitsNoWin s1 s2 -> emitsNoWin s2 s3 -> emitsNoWin s1 s3.
Proof.
  intros (e1 & H1 & N1) (e2 & H2 & N2). exists (e1 ++ e2).
  split; [rewrite H2, H1, app_assoc; reflexivity|].
  rewrite in_app_iff. tauto.
Qed.

Lemma emitsNoWin_one s e : e <> EvWin -> emitsNoWin s (emit e s).
Proof.
  intros He. exists [e]. split; [reflexivity|].
  intros [H | []]. congruence.
Qed.

Lemma outcome_events prevX internalPrevY obj s r :
  outcome prevX internalPrevY obj s r -> emitsNoWin s (fst r).
Proof.
  intros Ho. inversion Ho; subst; simpl fst.
  - apply emitsNoWin_refl. reflexivity.
  - apply (emitsNoWin_one (with_player (set_isDead true (player s)) s)). discriminate.
  - apply emitsNoWin_refl. reflexivity.
  - apply (emitsNoWin_one
             (with_player (set_gravityDir 1 (set_mode m (player s))) s)).
    discriminate.
Qed.

Lemma integrate_events speed chunks s : emitsNoWin s (integrate speed chunks s).
Proof.
  apply (integrate_invariant (emitsNoWin s) (fun _ => emitsNoWin s)).
  - intros s0 H. eapply emitsNoWin_trans; [exact H|].
    apply emitsNoWin_refl. apply (applyVelocity_fields s0).
  - intros steps stepX stepY s0 H. eapply emitsNoWin_trans; [exact H|].
    apply emitsNoWin_refl. apply (advance_fields speed steps stepX stepY s0).
  - intros ipy obj s0 r _ H Ho. eapply emitsNoWin_trans; [exact H|].
    eapply outcome_events. exact Ho.
  - auto.
  - apply emitsNoWin_refl. reflexivity.
Qed.

Lemma spiderTeleport_events chunks s : emitsNoWin s (spiderTeleport chunks s).
Proof.
  eexists [EvJump; EvTeleport _ _]. split.
  - unfold spiderTeleport. simpl. rewrite <- app_assoc. reflexivity.
  - intros [H | [H | []]]; discriminate.
Qed.

Lemma triggerInteraction_fields paused isAutoJump chunks s :
  let s' := triggerInteraction paused isAutoJump chunks s in
  Player.x (player s') = Player.x (player s)
  /\ Player.isDead (player s') = Player.isDead (player s)
  /\ completion s' = completion s
  /\ emitsNoWin s s'.
Proof.
  unfold triggerInteraction.
  destruct (Player.isDead (player s) || paused);
    [repeat split; apply emitsNoWin_refl; reflexivity|].
  destruct (Player.mode (player s));
    try destruct (negb isAutoJump || onSurfaceRef s);
    try destruct (onSurfaceRef s);
    repeat split;
    try (apply emitsNoWin_refl; reflexivity);
    try (eexists [EvJump]; split; [reflexivity | intros [H | []]; discriminate]).
  all: apply spiderTeleport_events.
Qed.

Lemma autoJump_fields paused chunks s :
  let s' := autoJump paused chunks s in
  Player.x (player s') = Player.x (player s)
  /\ Player.isDead (player s') = Player.isDead (player s)
  /\ completion s' = completion s
  /\ emitsNoWin s s'.
Proof.
  unfold autoJump.
  destruct (isJumpButtonPressed s && onSurfaceRef s && negb (actionBufferActive s)).
  - apply (triggerInteraction_fields paused true chunks s).
  - destruct (negb (onSurfaceRef s)); repeat split; apply emitsNoWin_refl; reflexivity.
Qed.

(** One frame of a live, unpaused player. *)
Lemma update_completion_win speed wx chunks s :
  Player.isDead (player s) = false ->
  let s' := update false speed wx chunks s in
  completionCurrent wx s'
  /\ exists evs, events s' = events s ++ evs
                 /\ (In EvWin evs <-> wx < Player.x (player s')).
Proof.
  intros Halive. unfold update, completionCurrent. simpl player. rewrite Halive.
  set (s1 := integrate speed chunks (with_frame (frame s + 1) s)).
  set (s2 := with_completion _ (with_cameraX _ s1)).
  destruct (autoJump_fields false chunks s2) as (Hx & _ & Hc & (e3 & He3 & Hn3)).
  destruct (integrate_events speed chunks (with_frame (frame s + 1) s))
    as (e1 & He1 & Hn1). fold s1 in He1.
  cbv zeta in *.
  set (s3 := autoJump false chunks s2) in *.
  assert (Hev : events s3 = events s ++ (e1 ++ e3)).
  { rewrite He3. unfold s2. simpl events. rewrite He1, app_assoc. reflexivity. }
  destruct (Qgtb (Player.x (player s3)) wx) eqn:Hwin; props.
  - split; [simpl; rewrite Hc, Hx; reflexivity|].
    exists ((e1 ++ e3) ++ [EvWin]). split.
    + simpl. rewrite Hev, !app_assoc. reflexivity.
    + split; [intros _; exact Hwin|]. intros _.
      apply in_app_iff. right. left. reflexivity.
  - split; [rewrite Hc, Hx; reflexivity|].
    exists (e1 ++ e3). split; [exact Hev|].
    split; [|intros; lra]. rewrite in_app_iff. tauto.
Qed.


Lemma handle_completion speed objects s i :
  (Player.isDead (player s) = false \/ completionCurrent (winX objects) s) ->
  let s' := handle speed objects s i in
  (i = Tick -> completionCurrent (winX objects) s')
  /\ (completionCurrent (winX objects) s -> completionCurrent (winX objects) s')
  /\ (Player.isDead (player s') = false \/ completionCurrent (winX objects) s').
Proof.
  intros Hs. destruct i; unfold handle; cbv zeta.
  - assert (Ht : completionCurrent (winX objects)
                   (update false speed (winX objects) (buildChunks objects) s)).
    { destruct (Player.isDead (player s)) eqn:Hd.
      - destruct Hs as [Hs | Hs]; [discriminate|].
        unfold update. simpl player. rewrite Hd. exact Hs.
      - apply update_completion_win. exact Hd. }
    auto.
  - assert (Hp : forall P : Sim -> Prop,
               P (triggerInteraction false false (buildChunks objects) s) -> P s ->
               P (if isJumpButtonPressed s then s
                  else triggerInteraction false false (buildChunks objects) s)).
    { intros P H1 H2. destruct (isJumpButtonPressed s); assumption. }
    destruct (triggerInteraction_fields false false (buildChunks objects) s)
      as (Hx & Hd & Hc & _).
    unfold onPress, completionCurrent in *. simpl.
    split; [discriminate|]. split.
    + intros H. apply Hp; [rewrite Hc, Hx|]; exact H.
    + apply (Hp (fun s' => Player.isDead (player s') = false
                           \/ completion s' = Math_min 100
                                (Player.x (player s') / winX objects * 100))).
      * rewrite Hd, Hc, Hx. exact Hs.
      * exact Hs.
  - split; [discriminate|]. split; [auto | exact Hs].
Qed.

Lemma play_completion speed objects inputs s :
  (Player.isDead (player s) = false \/ completionCurrent (winX objects) s) ->
  (In Tick inputs \/ completionCurrent (winX objects) s) ->
  completionCurrent (winX objects) (foldl (handle speed objects) s inputs).
Proof.
  revert s. induction inputs as [|i inputs IH]; intros s Hs Ht; simpl.
  - destruct Ht as [[] | Ht]. exact Ht.
  - destruct (handle_completion speed objects s i Hs) as (Htick & Hkeep & Hinv).
    apply IH; [exact Hinv|].
    destruct Ht as [[Hi | Hin] | Hc].
    + right. apply Htick. exact Hi.
    + left. exact Hin.
    + right. apply Hkeep. exact Hc.
Qed.

(** C6.  The win distance of an empty level is [MIN_WIN_DISTANCE]; of a
    level with objects it is [max(MIN_WIN_DISTANCE, maxObjectX + 1000)];
    it is never below [MIN_WIN_DISTANCE], so the completion's quotient is
    well defined.
    A frame of a live player sets the completion to
    [min(100, x / winDistance * 100)] and reports the win exactly when
    [x > winDistance]; in a session the completion equals that of the
    current x from the first frame on. *)
Theorem win_distance_and_completion speed objects :
  winX [] = MIN_WIN_DISTANCE
  /\ MIN_WIN_DISTANCE <= winX objects
  /\ (forall obj0,
         In obj0 objects ->
         (forall obj, In obj objects -> GameObject.x obj <= GameObject.x obj0) ->
         winX objects == Math_max MIN_WIN_DISTANCE (GameObject.x obj0 + 1000))
  /\ (forall s,
         Player.isDead (player s) = false ->
         let s' := update false speed (winX objects) (buildChunks objects) s in
         completion s' = Math_min 100 (Player.x (player s') / winX objects * 100)
         /\ exists evs, events s' = events s ++ evs
                        /\ (In EvWin evs <-> winX objects < Player.x (player s')))
  /\ (forall inputs,
         In Tick inputs ->
         completion (play speed objects inputs)
         = Math_min 100 (Player.x (player (play speed objects inputs))
                         / winX objects * 100)).
Proof.
  split; [reflexivity|].
  split; [apply Math_max_spec|].
  split; [intros; apply winX_max; assumption|].
  split; [intros s Hs; apply update_completion_win; exact Hs|].
  intros inputs Hin. apply play_completion; [left; reflexivity | left; exact Hin].
Qed.


End Completion.

(** ** Spider and Cube fall alike *)

Section Alike.
Context {K : Constants}.

Ltac expose s c H :=
  destruct H as (Hs & Hc & He);
  destruct s as [[sx sy svy srot sdead sjump smode sg] ? ? ? ? ? ? ? ?];
  destruct c as [[cx cy cvy crot cdead cjump cmode cg] ? ? ? ? ? ? ? ?];
  unfold physics, with_player, set_rotation, set_mode in He; cbn in He;
  injection He; intros; subst;
  unfold gravityOnly in Hs, Hc; cbn in Hs, Hc.

Lemma applyVelocity_alike s c :
  fallsAlike s c -> fallsAlike (applyVelocity s) (applyVelocity c).
Proof.
  intros H. expose s c H.
  destruct Hs as [-> | ->], Hc as [-> | ->];
    (split; [|split]); try (unfold gravityOnly; cbn; auto; fail); reflexivity.
Qed.

Lemma advance_alike speed steps stepX stepY s c :
  fallsAlike s c ->
  fallsAlike (advance speed steps stepX stepY s) (advance speed steps stepX stepY c).
Proof.
  intros H. expose s c H.
  unfold advance, clampY, rotate. cbn.
  destruct Hs as [-> | ->], Hc as [-> | ->]; cbn;
    try destruct cjump; cbn;
    destruct (Qgeb (cy + stepY) 360); try destruct (Qleb (cy + stepY) 0);
    (split; [|split]); try (unfold gravityOnly; cbn; auto; fail); reflexivity.
Qed.

Lemma collideObject_alike phX phY prevX internalPrevY obj s c :
  startsWith_PORTAL (GameObject.type obj) = false ->
  fallsAlike s c ->
  fallsAlike (fst (collideObject phX phY prevX internalPrevY obj s))
             (fst (collideObject phX phY prevX internalPrevY obj c))
  /\ snd (collideObject phX phY prevX internalPrevY obj s)
     = snd (collideObject phX phY prevX internalPrevY obj c).
Proof.
  intros Hnp H.
  assert (Hkeep : fallsAlike s c) by exact H.
  expose s c H.
  unfold collideObject.
  destruct (GameObject.type obj) eqn:Hty; try discriminate Hnp.
  - (* Block *)
    unfold blockOverlap. cbn.
    destruct (Qltb cx (GameObject.x obj + BLOCK_SIZE)
              && Qgtb (cx + PLAYER_SIZE) (GameObject.x obj)
              && Qltb cy (GameObject.y obj + BLOCK_SIZE)
              && Qgtb (cy + PLAYER_SIZE) (GameObject.y obj));
      [|split; [exact Hkeep | reflexivity]].
    assert (Hw1 : mode_eqb smode WAVE = false) by (destruct Hs as [-> | ->]; reflexivity).
    assert (Hw2 : mode_eqb cmode WAVE = false) by (destruct Hc as [-> | ->]; reflexivity).
    rewrite Hw1, Hw2.
    destruct (Qleb (internalPrevY + PLAYER_SIZE) (GameObject.y obj + 12)
              && Qgeb (cvy * cg) 0 && Qeq_bool cg 1);
      [|destruct (Qgeb internalPrevY (GameObject.y obj + BLOCK_SIZE - 12)
                  && Qgeb (cvy * cg) 0 && Qeq_bool cg (-1))];
      cbn; (split; [|reflexivity]);
      (split; [|split]); try (unfold gravityOnly; cbn; assumption); reflexivity.
  - (* Spike *)
    destruct (spikeHit phX phY obj); cbn; (split; [|reflexivity]);
      [|exact Hkeep].
    (split; [|split]); try (unfold gravityOnly; cbn; assumption); reflexivity.
  - (* another type, not a portal *)
    cbn in Hnp. cbn. rewrite Hnp. split; [exact Hkeep | reflexivity].
Qed.

Lemma collide_alike phX phY prevX internalPrevY buffer s c :
  (forall obj, In obj buffer -> startsWith_PORTAL (GameObject.type obj) = false) ->
  fallsAlike s c ->
  fallsAlike (collide phX phY prevX internalPrevY buffer s)
             (collide phX phY prevX internalPrevY buffer c).
Proof.
  revert s c. induction buffer as [|obj rest IH]; intros s c Hnp H; simpl; [exact H|].
  destruct (collideObject_alike phX phY prevX internalPrevY obj s c
              (Hnp obj (or_introl eq_refl)) H) as [H1 Hstop].
  destruct (collideObject phX phY prevX internalPrevY obj s) as [s1 b1].
  destruct (collideObject phX phY prevX internalPrevY obj c) as [c1 b2].
  simpl in *. subst b2. destruct b1; [exact H1|].
  apply IH; [|exact H1]. intros o Ho. apply Hnp. right. exact Ho.
Qed.

Lemma alike_fields s c :
  fallsAlike s c ->
  Player.x (player s) = Player.x (player c)
  /\ Player.y (player s) = Player.y (player c)
  /\ Player.vy (player s) = Player.vy (player c)
  /\ Player.isDead (player s) = Player.isDead (player c)
  /\ Player.gravityDir (player s) = Player.gravityDir (player c)
  /\ onSurfaceRef s = onSurfaceRef c
  /\ events s = events c.
Proof. intros H. expose s c H. repeat split. Qed.

Lemma subStep_alike speed steps stepX stepY prevX chunks s c :
  (forall obj, indexed chunks obj -> startsWith_PORTAL (GameObject.type obj) = false) ->
  fallsAlike s c ->
  fallsAlike (subStep speed steps stepX stepY prevX chunks s)
             (subStep speed steps stepX stepY prevX chunks c).
Proof.
  intros Hnp H. unfold subStep.
  pose proof (advance_alike speed steps stepX stepY s c H) as Ha.
  destruct (alike_fields _ _ H) as (_ & Hy & _).
  destruct (alike_fields _ _ Ha) as (Hax & Hay & _).
  rewrite Hy, Hax, Hay.
  apply collide_alike; [|exact Ha].
  intros obj Hin. apply Hnp. eapply gather_indexed. exact Hin.
Qed.

Lemma subSteps_alike n speed steps stepX stepY prevX chunks s c :
  (forall obj, indexed chunks obj -> startsWith_PORTAL (GameObject.type obj) = false) ->
  fallsAlike s c ->
  fallsAlike (subSteps n speed steps stepX stepY prevX chunks s)
             (subSteps n speed steps stepX stepY prevX chunks c).
Proof.
  intros Hnp. revert s c. induction n as [|n IH]; intros s c H; simpl; [exact H|].
  destruct (alike_fields _ _ H) as (_ & _ & _ & Hd & _). rewrite Hd.
  destruct (Player.isDead (player c)); [exact H|].
  apply IH, subStep_alike; assumption.
Qed.

Lemma integrate_alike speed chunks s c :
  (forall obj, indexed chunks obj -> startsWith_PORTAL (GameObject.type obj) = false) ->
  fallsAlike s c ->
  fallsAlike (integrate speed chunks s) (integrate speed chunks c).
Proof.
  intros Hnp H. unfold integrate.
  pose proof (applyVelocity_alike s c H) as Hv.
  destruct (alike_fields _ _ H) as (Hx & _).
  destruct (alike_fields _ _ Hv) as (_ & _ & Hvy & _).
  rewrite Hx, Hvy.
  apply subSteps_alike; assumption.
Qed.


End Alike.

(** ** Mode physics *)

Section ModePhysics.
Context {K : Constants}.

Lemma applyVelocity_eq s :
  applyVelocity s
  = let fv := frameVelocity (Player.mode (player s)) (isJumpButtonPressed s)
                            (robotJumpFrames s) (Player.gravityDir (player s))
                            (Player.vy (player s)) in
    with_player (set_vy (clampVy (fst fv)) (player s))
                (with_robotJumpFrames (snd fv) s).
Proof. unfold applyVelocity. destruct (frameVelocity _ _ _ _ _). reflexivity. Qed.

Lemma frameVelocity_robot pressed jumpFrames gravityDir vy :
  frameVelocity ROBOT pressed jumpFrames gravityDir vy
  = if pressed && (0 <? jumpFrames)%Z && (jumpFrames <? ROBOT_MAX_JUMP_FRAMES)%Z
    then (vy + ROBOT_JUMP_SUSTAIN * gravityDir + GRAVITY * gravityDir,
          (jumpFrames + 1)%Z)
    else (vy + GRAVITY * gravityDir, 0%Z).
Proof.
  unfold frameVelocity. simpl mode_eqb.
  destruct pressed, (0 <? jumpFrames)%Z, (jumpFrames <? ROBOT_MAX_JUMP_FRAMES)%Z;
    reflexivity.
Qed.

(** C7 (amended).  In Robot mode the velocity phase adds
    [ROBOT_JUMP_SUSTAIN * gravityDir] exactly when the button is held and
    the jump-frame counter is inside the window
    [0 < robotJumpFrames < ROBOT_MAX_JUMP_FRAMES]; the counter, set to 1 by
    a Robot jump, then advances by one, and otherwise falls back to 0.
    [GRAVITY * gravityDir] is added in both cases.  Whether the player is
    grounded is not consulted: the phase commutes with any change of
    [onSurfaceRef]. *)
Theorem robot_sustain_rule s :
  Player.mode (player s) = ROBOT ->
  let p := player s in
  let s' := applyVelocity s in
  let window :=
    isJumpButtonPressed s = true
    /\ (0 < robotJumpFrames s < ROBOT_MAX_JUMP_FRAMES)%Z in
  (window ->
     Player.vy (player s')
     = clampVy (Player.vy p + ROBOT_JUMP_SUSTAIN * Player.gravityDir p
                + GRAVITY * Player.gravityDir p)
     /\ robotJumpFrames s' = (robotJumpFrames s + 1)%Z)
  /\ (~ window ->
        Player.vy (player s') = clampVy (Player.vy p + GRAVITY * Player.gravityDir p)
        /\ robotJumpFrames s' = 0%Z)
  /\ (forall grounded,
         applyVelocity (with_onSurface grounded s)
         = with_onSurface grounded (applyVelocity s))
  /\ (forall paused isAutoJump chunks,
         Player.isDead p = false -> paused = false -> onSurfaceRef s = true ->
         robotJumpFrames (triggerInteraction paused isAutoJump chunks s) = 1%Z).
Proof.
  intros Hm p s' window. subst p s' window.
  assert (Hgr : forall grounded,
             applyVelocity (with_onSurface grounded s)
             = with_onSurface grounded (applyVelocity s)).
  { intros g. unfold applyVelocity. simpl.
    destruct (frameVelocity _ _ _ _ _). reflexivity. }
  assert (Hjump : forall paused isAutoJump chunks,
             Player.isDead (player s) = false -> paused = false ->
             onSurfaceRef s = true ->
             robotJumpFrames (triggerInteraction paused isAutoJump chunks s) = 1%Z).
  { intros paused a chunks Hd -> Hs. unfold triggerInteraction.
    rewrite Hd, Hm, Hs. reflexivity. }
  split; [|split; [|split; assumption]];
    rewrite applyVelocity_eq, Hm, frameVelocity_robot;
    destruct (isJumpButtonPressed s && (0 <? robotJumpFrames s)%Z
              && (robotJumpFrames s <? ROBOT_MAX_JUMP_FRAMES)%Z) eqn:Hw;
    try (intros _; split; reflexivity).
  - intros (H1 & H2 & H3). apply Z.ltb_lt in H2, H3.
    rewrite H1, H2, H3 in Hw. discriminate.
  - intros Hn. exfalso. apply Hn.
    apply andb_true_iff in Hw. destruct Hw as [Hw H3].
    apply andb_true_iff in Hw. destruct Hw as [H1 H2].
    apply Z.ltb_lt in H2, H3. auto.
Qed.

(** C10.  In Spider mode the velocity rule is the Cube's: the frame adds
    [GRAVITY * gravityDir] to vy and nothing else, whether or not the
    button is held.  Hence a Spider falls like a Cube: where no portal is
    in reach, a Spider and a Cube that agree on everything but the mode and
    the sprite rotation leave a frame's integration with the same x, y, vy,
    death flag, grounding and events. *)
Theorem spider_velocity_is_cube_gravity :
  (forall pressed jumpFrames gravityDir vy,
      frameVelocity SPIDER pressed jumpFrames gravityDir vy
      = (vy + GRAVITY * gravityDir, 0%Z)
      /\ frameVelocity SPIDER pressed jumpFrames gravityDir vy
         = frameVelocity CUBE pressed jumpFrames gravityDir vy)
  /\ (forall s,
         Player.mode (player s) = SPIDER ->
         Player.vy (player (applyVelocity s))
         = clampVy (Player.vy (player s) + GRAVITY * Player.gravityDir (player s))
         /\ Player.vy (player (applyVelocity (with_pressed (negb (isJumpButtonPressed s)) s)))
            = Player.vy (player (applyVelocity s)))
  /\ (forall speed chunks s c,
         Player.mode (player s) = SPIDER ->
         Player.mode (player c) = CUBE ->
         physics s = physics c ->
         (forall obj, indexed chunks obj ->
                      startsWith_PORTAL (GameObject.type obj) = false) ->
         let s' := integrate speed chunks s in
         let c' := integrate speed chunks c in
         Player.x (player s') = Player.x (player c')
         /\ Player.y (player s') = Player.y (player c')
         /\ Player.vy (player s') = Player.vy (player c')
         /\ Player.isDead (player s') = Player.isDead (player c')
         /\ Player.gravityDir (player s') = Player.gravityDir (player c')
         /\ onSurfaceRef s' = onSurfaceRef c'
         /\ events s' = events c').
Proof.
  split; [|split].
  - intros. split; reflexivity.
  - intros s Hm. unfold applyVelocity. simpl player. rewrite Hm.
    split; reflexivity.
  - intros speed chunks s c Hs Hc He Hnp.
    apply alike_fields, integrate_alike; [exact Hnp|].
    split; [right; exact Hs|]. split; [left; exact Hc | exact He].
Qed.

End ModePhysics.

(** ** Concrete runs *)

Section Runs.
Local Existing Instance sampleConstants.

(** C1, as stated, fails.  Level [levelStep], speed 5, no input.  At the
    first sub-step of frame 7 the buffer is the two blocks in level order.
    The first one gives a grounding outcome (the player lands at 355);
    the loop goes on to the second one, which kills the player. *)
Lemma landing_does_not_end_the_loop :
  let s := stepState in
  let phX := Player.x (player s) + 4 in
  let phY := Player.y (player s) + 4 in
  let prevX := Player.x (player stepBefore) in
  let internalPrevY := Player.y (player stepBefore) in
  Player.isDead (player s) = false
  /\ gather (buildChunks levelStep) (chunkOf (Player.x (player s))) = levelStep
  /\ collideObject phX phY prevX internalPrevY (block 120 395) s = (land 355 s, false)
  /\ visited phX phY prevX internalPrevY levelStep s = levelStep
  /\ Player.isDead (player (collide phX phY prevX internalPrevY levelStep s)) = true
  /\ Player.isDead (player (play 5 levelStep (ticks 7))) = true
  /\ Player.isDead (player (play 5 [block 120 395] (ticks 7))) = false.
Proof. repeat split; reflexivity. Qed.

Lemma resolver_stops_at_first_death_witness :
  let s := stepState in
  let phX := Player.x (player s) + 4 in
  let phY := Player.y (player s) + 4 in
  let prevX := Player.x (player stepBefore) in
  let internalPrevY := Player.y (player stepBefore) in
  Player.isDead (player s) = false
  /\ exists pre obj,
      visited phX phY prevX internalPrevY (gather (buildChunks levelStep) 0) s
      = pre ++ [obj]
      /\ collide phX phY prevX internalPrevY (gather (buildChunks levelStep) 0) s
         = die (collide phX phY prevX internalPrevY pre s).
Proof.
  cbv zeta. split; [reflexivity|].
  assert (Halive : Player.isDead (player stepState) = false) by reflexivity.
  destruct (resolver_stops_at_first_death
              levelStep 0
              (Player.x (player stepState) + 4) (Player.y (player stepState) + 4)
              (Player.x (player stepBefore)) (Player.y (player stepBefore))
              stepState Halive)
    as (_ & _ & _ & _ & Hdead & _).
  assert (Hd : Player.isDead
                 (player (collide (Player.x (player stepState) + 4)
                                  (Player.y (player stepState) + 4)
                                  (Player.x (player stepBefore))
                                  (Player.y (player stepBefore))
                                  (gather (buildChunks levelStep) 0) stepState))
               = true) by reflexivity.
  destruct (Hdead Hd) as (pre & obj & Hv & _ & _ & _ & Hs).
  exists pre, obj. split; [exact Hv | exact Hs].
Defined.

Lemma block_classification_witness :
  let s := stepState in
  GameObject.type (block 120 395) = BLOCK
  /\ blockOverlap (player s) (block 120 395) = true
  /\ collideObject (Player.x (player s) + 4) (Player.y (player s) + 4)
                   (Player.x (player stepBefore)) (Player.y (player stepBefore))
                   (block 120 395) s
     = (land (395 - 40) s, false).
Proof.
  cbv zeta. split; [reflexivity|]. split; [reflexivity|].
  assert (Hov : blockOverlap (player stepState) (block 120 395) = true)
    by reflexivity.
  destruct (block_classification
              (Player.x (player stepState) + 4) (Player.y (player stepState) + 4)
              (Player.x (player stepBefore)) (Player.y (player stepBefore))
              (block 120 395) stepState eq_refl Hov)
    as (_ & Habove & _).
  assert (Hm : Player.mode (player stepState) = CUBE) by reflexivity.
  apply Habove.
  - rewrite Hm. discriminate.
  - split; [apply Qle_bool_iff; reflexivity|].
    split; [apply Qle_bool_iff; reflexivity | reflexivity].
Defined.

Lemma portal_leading_edge_witness :
  let s := swingStraddling in
  startsWith_PORTAL (GameObject.type (portal PORTAL_BALL 100 320)) = true
  /\ portalOverlap (player s) (portal PORTAL_BALL 100 320) = true
  /\ collideObject (Player.x (player s) + 4) (Player.y (player s) + 4)
                   (Player.x (player s)) (Player.y (player s))
                   (portal PORTAL_BALL 100 320) s
     = (s, false).
Proof.
  cbv zeta. split; [reflexivity|]. split; [reflexivity|].
  destruct (proj1 portal_leading_edge
              (Player.x (player swingStraddling) + 4)
              (Player.y (player swingStraddling) + 4)
              (Player.x (player swingStraddling)) (Player.y (player swingStraddling))
              (portal PORTAL_BALL 100 320) swingStraddling eq_refl)
    as (_ & Hpast & _).
  apply Hpast. apply Qltb_lt. reflexivity.
Defined.

Lemma portal_same_mode_noop_witness :
  let s := swingEntering in
  let obj := portal PORTAL_SWING 100 320 in
  portalMode (GameObject.type obj) = Some (Player.mode (player s))
  /\ portalOverlap (player s) obj = true
  /\ Qleb (Player.x (player s) + PLAYER_SIZE) (GameObject.x obj + 15) = true
  /\ collideObject (Player.x (player s) + 4) (Player.y (player s) + 4)
                   (Player.x (player s)) (Player.y (player s)) obj s
     = (s, false).
Proof.
  cbv zeta. split; [reflexivity|]. split; [reflexivity|]. split; [reflexivity|].
  assert (Hm : portalMode (GameObject.type (portal PORTAL_SWING 100 320))
               = Some (Player.mode (player swingEntering))) by reflexivity.
  apply (portal_same_mode_noop
           (Player.x (player swingEntering) + 4) (Player.y (player swingEntering) + 4)
           (Player.x (player swingEntering)) (Player.y (player swingEntering))
           (portal PORTAL_SWING 100 320) swingEntering Hm).
Defined.

(** C4, as stated, fails.  Level [levelSwing], speed 5: after three
    frames the player is a Swing with gravityDir 1; a press flips it to
    -1, in Swing mode and with no portal involved. *)
Lemma swing_press_flips_gravity :
  let s := swingEntering in
  let s' := onPress false (buildChunks levelSwing) s in
  Player.isDead (player s) = false
  /\ Player.mode (player s) = SWING /\ Player.gravityDir (player s) = 1
  /\ Player.mode (player s') = SWING /\ Player.gravityDir (player s') = -1
  /\ events s' = events s ++ [EvJump].
Proof. repeat split; reflexivity. Qed.

(** C5, as stated, fails.  Level [levelHang], speed 5.  The player
    becomes a Ball in frame 3, a press flips its gravity, and in the next
    frame it hangs under the block, whose bottom is at 365: the frame
    ends alive with y = 365, outside [0, 360]. *)
Lemma hanging_under_a_low_block :
  let s := play 5 levelHang (ticks 3 ++ [Press; Release; Tick]) in
  Player.isDead (player s) = false
  /\ Player.mode (player s) = BALL
  /\ Player.y (player s) = 365
  /\ ~ inBounds (Player.y (player s)).
Proof.
  cbv zeta. split; [reflexivity|]. split; [reflexivity|]. split; [reflexivity|].
  intros [_ H]. apply Qle_bool_iff in H.
  assert (E : Qle_bool
                (Player.y (player (play 5 levelHang (ticks 3 ++ [Press; Release; Tick]))))
                360 = false) by reflexivity.
  rewrite E in H. discriminate H.
Qed.

Lemma y_in_bounds_or_on_block_witness :
  12 < PLAYER_SIZE /\ 12 < BLOCK_SIZE
  /\ blocksClearOfBounds levelLong = true
  /\ inBounds (Player.y (player (play 5 levelLong (ticks 40)))).
Proof.
  split; [reflexivity|]. split; [reflexivity|]. split; [reflexivity|].
  destruct (y_in_bounds_or_on_block levelLong 5 (ticks 40)) as (_ & _ & H).
  apply H; reflexivity.
Defined.

Lemma win_distance_and_completion_witness :
  In (block 5000 320) levelLong
  /\ winX levelLong == 6000
  /\ winX levelLong == Math_max MIN_WIN_DISTANCE (5000 + 1000).
Proof.
  split; [right; left; reflexivity|]. split; [reflexivity|].
  destruct (win_distance_and_completion 5 levelLong) as (_ & _ & H & _).
  apply (H (block 5000 320)).
  - right. left. reflexivity.
  - intros obj [<- | [<- | []]]; apply Qle_bool_iff; reflexivity.
Defined.

(** C7, as stated, fails.  Level [levelRobot], speed 5, inputs
    [inputsRobot]: a Robot that jumped into the ceiling is grounded again
    ([onSurfaceRef] is true) with the button held and the counter at 2,
    and the velocity phase adds the sustain acceleration all the same. *)
Lemma robot_sustain_while_grounded :
  let s := robotGrounded in
  let p := player s in
  Player.mode p = ROBOT /\ Player.isDead p = false
  /\ isJumpButtonPressed s = true /\ robotJumpFrames s = 2%Z
  /\ onSurfaceRef s = true
  /\ Player.vy (player (applyVelocity s))
     == Player.vy p + ROBOT_JUMP_SUSTAIN * Player.gravityDir p
        + GRAVITY * Player.gravityDir p
  /\ ~ Player.vy (player (applyVelocity s))
       == Player.vy p + GRAVITY * Player.gravityDir p.
Proof.
  cbv zeta. repeat split; try reflexivity.
  intros H. apply Qeq_bool_iff in H.
  assert (E : Qeq_bool
                (Player.vy (player (applyVelocity robotGrounded)))
                (Player.vy (player robotGrounded)
                 + GRAVITY * Player.gravityDir (player robotGrounded))
              = false) by reflexivity.
  rewrite E in H. discriminate H.
Qed.

Lemma robot_sustain_rule_witness :
  let s := robotGrounded in
  Player.mode (player s) = ROBOT
  /\ robotJumpFrames (applyVelocity s) = 3%Z.
Proof.
  cbv zeta. split; [reflexivity|].
  assert (Hm : Player.mode (player robotGrounded) = ROBOT) by reflexivity.
  destruct (robot_sustain_rule robotGrounded Hm) as (Hin & _).
  destruct Hin as [_ ->]; [|reflexivity].
  split; [reflexivity | split; reflexivity].
Defined.

Lemma spider_velocity_is_cube_gravity_witness :
  let spider := with_player (set_mode SPIDER initialPlayer) initialSim in
  let chunks := buildChunks levelLong in
  Player.mode (player spider) = SPIDER
  /\ Player.mode (player initialSim) = CUBE
  /\ physics spider = physics initialSim
  /\ Player.y (player (integrate 5 chunks spider))
     = Player.y (player (integrate 5 chunks initialSim))
  /\ onSurfaceRef (integrate 5 chunks spider) = onSurfaceRef (integrate 5 chunks initialSim).
Proof.
  cbv zeta. split; [reflexivity|]. split; [reflexivity|]. split; [reflexivity|].
  destruct spider_velocity_is_cube_gravity as (_ & _ & H).
  destruct (H 5 (buildChunks levelLong)
              (with_player (set_mode SPIDER initialPlayer) initialSim) initialSim
              eq_refl eq_refl eq_refl) as (_ & Hy & _ & _ & _ & Hs & _).
  - intros obj Hidx. apply indexed_buildChunks in Hidx.
    destruct Hidx as [<- | [<- | []]]; reflexivity.
  - split; [exact Hy | exact Hs].
Defined.

End Runs.


(** * Further properties of the game canvas *)

(** ** The chunk map, key by key *)

Lemma buildChunks_is_Some objects (chunks : gmap Z (list GameObject.t)) c :
  is_Some (foldl (fun chunks obj =>
                    let chunkId := chunkOf (GameObject.x obj) in
                    <[chunkId := default [] (chunks !! chunkId) ++ [obj]]> chunks)
                 chunks objects !! c)
  <-> is_Some (chunks !! c) \/ exists obj, In obj objects /\ chunkOf (GameObject.x obj) = c.
Proof.
  revert chunks. induction objects as [|o objects IH]; intros chunks; simpl.
  - split; [auto | intros [H | (obj & [] & _)]; exact H].
  - rewrite IH. split.
    + intros [H | (obj & Hin & Hc)].
      * destruct (Z.eq_dec (chunkOf (GameObject.x o)) c) as [Heq | Hne].
        -- right. exists o. auto.
        -- rewrite lookup_insert_ne in H by exact Hne. auto.
      * right. exists obj. auto.
    + intros [H | (obj & [<- | Hin] & Hc)].
      * left. destruct (Z.eq_dec (chunkOf (GameObject.x o)) c) as [<- | Hne].
        -- rewrite lookup_insert_eq. eauto.
        -- rewrite lookup_insert_ne by exact Hne. exact H.
      * left. subst c. rewrite lookup_insert_eq. eauto.
      * right. exists obj. auto.
Qed.

(** X1.  The chunk map is exact.  A chunk id that no object of the level
    falls in is a missing key; a present key holds a non-empty list, the
    level's objects of that chunk in level order; and every object of the
    level is found under the key [floor(x / CHUNK_SIZE)] and under no
    other. *)
Theorem chunk_map_exact objects c :
  (buildChunks objects !! c = None
   <-> forall obj, In obj objects -> chunkOf (GameObject.x obj) <> c)
  /\ (forall l, buildChunks objects !! c = Some l ->
                l = List.filter (inChunk c) objects /\ l <> [])
  /\ (forall obj, In obj objects ->
                  exists l, buildChunks objects !! chunkOf (GameObject.x obj) = Some l
                            /\ In obj l)
  /\ (forall obj l, buildChunks objects !! c = Some l -> In obj l ->
                    In obj objects /\ chunkOf (GameObject.x obj) = c).
Proof.
  assert (Hsome : is_Some (buildChunks objects !! c)
                  <-> exists obj, In obj objects /\ chunkOf (GameObject.x obj) = c).
  { unfold buildChunks. rewrite buildChunks_is_Some, lookup_empty.
    split; [intros [[? H] | H]; [discriminate H | exact H] | auto]. }
  assert (Hfilter : forall l, buildChunks objects !! c = Some l ->
                              l = List.filter (inChunk c) objects).
  { intros l Hl. pose proof (buildChunks_lookup objects c) as H.
    rewrite Hl in H. exact H. }
  split; [|split; [|split]].
  - rewrite eq_None_not_Some, Hsome. split.
    + intros Hno obj Hin Hc. apply Hno. exists obj. auto.
    + intros Hall (obj & Hin & Hc). exact (Hall obj Hin Hc).
  - intros l Hl. split; [apply Hfilter; exact Hl|].
    destruct (proj1 Hsome (ex_intro _ l Hl)) as (obj & Hin & Hc).
    rewrite (Hfilter l Hl). intros Hnil.
    assert (Hobj : In obj (List.filter (inChunk c) objects)).
    { apply filter_In. split; [exact Hin|]. unfold inChunk. apply Z.eqb_eq. exact Hc. }
    rewrite Hnil in Hobj. destruct Hobj.
  - intros obj Hin.
    pose proof (buildChunks_lookup objects (chunkOf (GameObject.x obj))) as H.
    destruct (buildChunks objects !! chunkOf (GameObject.x obj)) as [l|] eqn:Hl.
    + exists l. split; [reflexivity|]. simpl in H. rewrite H.
      apply filter_In. split; [exact Hin|]. unfold inChunk. apply Z.eqb_refl.
    + exfalso. simpl in H.
      assert (Hobj : In obj (List.filter (inChunk (chunkOf (GameObject.x obj))) objects)).
      { apply filter_In. split; [exact Hin|]. unfold inChunk. apply Z.eqb_refl. }
      rewrite <- H in Hobj. destruct Hobj.
  - intros obj l Hl Hin. rewrite (Hfilter l Hl) in Hin.
    apply filter_In in Hin. destruct Hin as [Hin Hc].
    split; [exact Hin|]. unfold inChunk in Hc. apply Z.eqb_eq. exact Hc.
Qed.

(** ** The triangle test *)

Lemma pointInTriangle_inside px py x1 y1 x2 y2 x3 y3 :
  pointInTriangle px py x1 y1 x2 y2 x3 y3 = true ->
  ~ 0.5 * (-y2 * x3 + y1 * (-x2 + x3) + x1 * (y2 - y3) + x2 * y3) == 0
  /\ exists s t,
      0 <= s /\ 0 <= t /\ s + t <= 1
      /\ px == (1 - s - t) * x1 + s * x2 + t * x3
      /\ py == (1 - s - t) * y1 + s * y2 + t * y3.
Proof.
  intros H. unfold pointInTriangle in H.
  apply andb_true_iff in H. destruct H as [H Hu].
  apply andb_true_iff in H. destruct H as [H Ht].
  apply andb_true_iff in H. destruct H as [Ha Hs].
  apply negb_true_iff in Ha. props.
  split; [exact Ha|].
  eexists. eexists. split; [exact Hs|]. split; [exact Ht|].
  split; [lra|]. split; field; lra.
Qed.


(** ** Spikes and the candidate buffer *)

Section Culling.
Context {K : Constants}.

Lemma spikeHit_inside phX phY obj :
  16 <= BLOCK_SIZE ->
  spikeHit phX phY obj = true ->
  exists cx cy,
    (cx = phX \/ cx = phX + (PLAYER_SIZE - 8))
    /\ (cy = phY \/ cy = phY + (PLAYER_SIZE - 8))
    /\ GameObject.x obj + 8 <= cx <= GameObject.x obj + BLOCK_SIZE - 8
    /\ GameObject.y obj + 8 <= cy <= GameObject.y obj + BLOCK_SIZE - 2.
Proof.
  intros HB H. unfold spikeHit in H. apply existsb_exists in H.
  destruct H as ([cx cy] & Hin & Hpit). simpl in Hpit.
  exists cx, cy.
  assert (Hc : (cx = phX \/ cx = phX + (PLAYER_SIZE - 8))
               /\ (cy = phY \/ cy = phY + (PLAYER_SIZE - 8))).
  { simpl in Hin.
    destruct Hin as [E | [E | [E | [E | []]]]]; inversion E; subst; auto. }
  destruct Hc as [Hcx Hcy]. split; [exact Hcx|]. split; [exact Hcy|].
  apply pointInTriangle_inside in Hpit.
  destruct Hpit as (_ & s & t & Hs & Ht & Hst & Ex & Ey).
  revert Ex Ey. generalize (GameObject.x obj), (GameObject.y obj). intros ox oy Ex Ey.
  assert (Hsb : 0 <= s * (BLOCK_SIZE - 16)) by (apply Qmult_le_0_compat; lra).
  assert (Htb : 0 <= t * (BLOCK_SIZE - 16)) by (apply Qmult_le_0_compat; lra).
  assert (Hub : 0 <= (1 - s - t) * (BLOCK_SIZE - 16)) by (apply Qmult_le_0_compat; lra).
  assert (Hs1 : 0 <= (1 - s) * (BLOCK_SIZE - 16)) by (apply Qmult_le_0_compat; lra).
  assert (Ex' : cx == ox + 8 + s * (BLOCK_SIZE - 16) / 2 + t * (BLOCK_SIZE - 16)).
  { rewrite Ex. field. }
  assert (Ey' : cy == oy + BLOCK_SIZE - 2 - s * (BLOCK_SIZE - 16) - 6 * s).
  { rewrite Ey. field. }
  assert (Eu : (1 - s - t) * (BLOCK_SIZE - 16)
               == BLOCK_SIZE - 16 - s * (BLOCK_SIZE - 16) - t * (BLOCK_SIZE - 16)) by ring.
  assert (E1 : (1 - s) * (BLOCK_SIZE - 16)
               == BLOCK_SIZE - 16 - s * (BLOCK_SIZE - 16)) by ring.
  assert (Eh : s * (BLOCK_SIZE - 16) / 2 == (1 # 2) * (s * (BLOCK_SIZE - 16))) by field.
  rewrite Eh in Ex'.
  revert Hsb Htb Hub Hs1 Ex' Ey' Eu E1.
  generalize (s * (BLOCK_SIZE - 16)), (t * (BLOCK_SIZE - 16)),
             ((1 - s - t) * (BLOCK_SIZE - 16)), ((1 - s) * (BLOCK_SIZE - 16)).
  intros a b c d. intros. lra.
Qed.

Lemma chunk_window px ox :
  0 <= BLOCK_SIZE <= 600 -> PLAYER_SIZE <= 1200 ->
  px < ox + BLOCK_SIZE -> ox < px + PLAYER_SIZE ->
  (chunkOf px - 1 <= chunkOf ox <= chunkOf px + 2)%Z.
Proof.
  intros HB HP H1 H2. unfold chunkOf, Math_floor, CHUNK_SIZE.
  pose proof (Qfloor_le (px / 600)) as Pa.
  pose proof (Qlt_floor (px / 600)) as Pb.
  pose proof (Qfloor_le (ox / 600)) as Oa.
  pose proof (Qlt_floor (ox / 600)) as Ob.
  assert (Ep : px == 600 * (px / 600)) by field.
  assert (Eo : ox == 600 * (ox / 600)) by field.
  revert Pa Pb Oa Ob Ep Eo.
  generalize (px / 600), (ox / 600). intros p o Pa Pb Oa Ob Ep Eo.
  rewrite inject_Z_plus in Pb, Ob. change (inject_Z 1) with 1 in Pb, Ob.
  split.
  - assert (Hlt : inject_Z (Qfloor p) < inject_Z (Qfloor o + 2)).
    { rewrite inject_Z_plus. change (inject_Z 2) with 2. lra. }
    rewrite <- Zlt_Qlt in Hlt. lia.
  - assert (Hlt : inject_Z (Qfloor o) < inject_Z (Qfloor p + 3)).
    { rewrite inject_Z_plus. change (inject_Z 3) with 3. lra. }
    rewrite <- Zlt_Qlt in Hlt. lia.
Qed.

Lemma gather_window objects pChunk obj :
  In obj objects ->
  (pChunk - 1 <= chunkOf (GameObject.x obj) <= pChunk + 2)%Z ->
  In obj (gather (buildChunks objects) pChunk).
Proof.
  intros Hin Hc. rewrite gather_buildChunks.
  assert (Hcase : chunkOf (GameObject.x obj) = (pChunk - 1)%Z
                  \/ chunkOf (GameObject.x obj) = pChunk
                  \/ chunkOf (GameObject.x obj) = (pChunk + 1)%Z
                  \/ chunkOf (GameObject.x obj) = (pChunk + 2)%Z) by lia.
  rewrite !in_app_iff, !filter_In. unfold inChunk.
  destruct Hcase as [E | [E | [E | E]]]; rewrite E, Z.eqb_refl; tauto.
Qed.

Lemma collideObject_touches prevX internalPrevY obj s :
  16 <= BLOCK_SIZE -> 8 <= PLAYER_SIZE ->
  let p := player s in
  collideObject (Player.x p + 4) (Player.y p + 4) prevX internalPrevY obj s <> (s, false) ->
  Player.x p < GameObject.x obj + BLOCK_SIZE
  /\ GameObject.x obj < Player.x p + PLAYER_SIZE.
Proof.
  intros HB HP p H. subst p. unfold collideObject in H.
  destruct (GameObject.type obj) eqn:Ht; cbv beta iota zeta in H.
  1: { destruct (blockOverlap (player s) obj) eqn:Hov; [|exfalso; apply H; reflexivity].
       unfold blockOverlap in Hov. props. split; assumption. }
  1: { destruct (spikeHit _ _ obj) eqn:Hs; [|exfalso; apply H; reflexivity].
       apply spikeHit_inside in Hs; [|exact HB].
       destruct Hs as (cx & cy & [-> | ->] & _ & Hx & _); lra. }
  all: destruct (startsWith_PORTAL _); [|exfalso; apply H; reflexivity].
  all: destruct (portalOverlap (player s) obj) eqn:Hov; [|exfalso; apply H; reflexivity].
  all: unfold portalOverlap in Hov; props; split; assumption.
Qed.


(** X4.  The chunk window loses no collision.  With tiles of 16 to 600
    units and a player of 8 to 1200, every object of the level whose tile
    the player's box overlaps horizontally is in the candidate buffer
    gathered around the player's chunk, and so is every object for which
    the loop body would do anything at all. *)
Theorem candidate_buffer_complete objects prevX internalPrevY obj s :
  16 <= BLOCK_SIZE <= 600 -> 8 <= PLAYER_SIZE <= 1200 ->
  In obj objects ->
  let p := player s in
  (Player.x p < GameObject.x obj + BLOCK_SIZE
   /\ GameObject.x obj < Player.x p + PLAYER_SIZE)
  \/ collideObject (Player.x p + 4) (Player.y p + 4) prevX internalPrevY obj s
     <> (s, false) ->
  In obj (gather (buildChunks objects) (chunkOf (Player.x p))).
Proof.
  intros HB HP Hin p H.
  assert (Hx : Player.x p < GameObject.x obj + BLOCK_SIZE
               /\ GameObject.x obj < Player.x p + PLAYER_SIZE).
  { destruct H as [H | H]; [exact H|].
    apply (collideObject_touches prevX internalPrevY obj s); [lra | lra | exact H]. }
  apply gather_window; [exact Hin|].
  apply chunk_window; [split; lra | lra | apply Hx | apply Hx].
Qed.


End Culling.

(** ** Invariants of a session *)

Section Session.
Context {K : Constants}.

Lemma gravityStep_unit a b :
  rtc gravityStep a b -> snd a = 1 \/ snd a = -1 -> snd b = 1 \/ snd b = -1.
Proof.
  induction 1 as [|a b c Hab _ IH]; [auto|].
  intros _. apply IH.
  destruct Hab as [Hf | Hr].
  - inversion Hf; subst; simpl; unfold flipGravity; destruct (Qeq_bool g 1); auto.
  - inversion Hr; subst; simpl; auto.
Qed.

(** X5.  [gravityDir] is a sign.  Every callback keeps it in {1, -1}, so
    after any sequence of frames, presses and releases it is 1 or -1: the
    values the landing tests compare it with. *)
Theorem gravityDir_is_a_sign speed objects :
  (forall s i, unitGravity s -> unitGravity (handle speed objects s i))
  /\ (forall inputs, unitGravity (play speed objects inputs)).
Proof.
  split.
  - intros s i Hs.
    exact (gravityStep_unit _ _ (handle_gravity speed objects s i) Hs).
  - intros inputs. apply play_invariant.
    + intros s i Hs.
      exact (gravityStep_unit _ _ (handle_gravity speed objects s i) Hs).
    + left. reflexivity.
Qed.

Lemma modeFromLevel_ext objects s1 s2 :
  Player.mode (player s2) = Player.mode (player s1) ->
  modeFromLevel objects s1 -> modeFromLevel objects s2.
Proof. unfold modeFromLevel. intros ->. auto. Qed.

Lemma flip_keeps_mode s s' :
  modeGravity s' = modeGravity s \/ interactionFlip (modeGravity s) (modeGravity s') ->
  Player.mode (player s') = Player.mode (player s).
Proof.
  unfold modeGravity. intros [H | H].
  - congruence.
  - inversion H; congruence.
Qed.

Lemma outcome_modeFromLevel objects prevX internalPrevY obj s r :
  In obj objects ->
  outcome prevX internalPrevY obj s r ->
  modeFromLevel objects s -> modeFromLevel objects (fst r).
Proof.
  intros Hin Ho Hs. inversion Ho; subst; simpl fst.
  - exact Hs.
  - exact Hs.
  - exact Hs.
  - right. exists obj. auto.
Qed.

Lemma integrate_modeFromLevel objects speed s :
  modeFromLevel objects s ->
  modeFromLevel objects (integrate speed (buildChunks objects) s).
Proof.
  intros Hs.
  apply (integrate_invariant (modeFromLevel objects) (fun _ => modeFromLevel objects)).
  - intros s0. apply modeFromLevel_ext.
    pose proof (applyVelocity_fields s0) as (H & _).
    unfold modeGravity in H. congruence.
  - intros steps stepX stepY s0. apply modeFromLevel_ext.
    apply (advance_fields speed steps stepX stepY s0).
  - intros ipy obj s0 r Hidx H0 Ho.
    eapply outcome_modeFromLevel; [|exact Ho|exact H0].
    apply indexed_buildChunks. exact Hidx.
  - auto.
  - exact Hs.
Qed.

Lemma handle_modeFromLevel speed objects s i :
  modeFromLevel objects s -> modeFromLevel objects (handle speed objects s i).
Proof.
  intros Hs. destruct i; unfold handle.
  - unfold update. simpl player.
    destruct (Player.isDead (player s)); [exact Hs|].
    set (s1 := integrate speed (buildChunks objects) (with_frame (frame s + 1) s)).
    assert (H1 : modeFromLevel objects s1) by (apply integrate_modeFromLevel; exact Hs).
    set (s2 := with_completion _ (with_cameraX _ s1)).
    apply (modeFromLevel_ext objects s1); [|exact H1].
    transitivity (Player.mode (player (autoJump false (buildChunks objects) s2))).
    + destruct (Qgtb _ _); reflexivity.
    + apply (flip_keeps_mode s2). apply autoJump_gravity.
  - unfold onPress. destruct (isJumpButtonPressed s); [exact Hs|].
    apply (modeFromLevel_ext objects s); [|exact Hs].
    apply (flip_keeps_mode s (with_pressed true _)).
    apply (triggerInteraction_gravity false false (buildChunks objects) s).
  - exact Hs.
Qed.

Lemma integrate_without_portals speed chunks s :
  (forall obj, indexed chunks obj -> startsWith_PORTAL (GameObject.type obj) = false) ->
  modeGravity (integrate speed chunks s) = modeGravity s.
Proof.
  intros Hno.
  apply (integrate_invariant (fun s0 => modeGravity s0 = modeGravity s)
                             (fun _ s0 => modeGravity s0 = modeGravity s)).
  - intros s0 <-. apply (applyVelocity_fields s0).
  - intros steps stepX stepY s0 <-. unfold modeGravity.
    destruct (advance_fields speed steps stepX stepY s0) as (_ & _ & -> & -> & _).
    reflexivity.
  - intros ipy obj s0 r Hidx <- Ho.
    destruct (outcome_gravity _ _ _ _ _ Ho) as [H | [Hp _]]; [exact H|].
    rewrite (Hno obj Hidx) in Hp. discriminate Hp.
  - auto.
  - reflexivity.
Qed.

Lemma cube_never_flips s s' :
  modeGravity s = (CUBE, 1) ->
  modeGravity s' = modeGravity s \/ interactionFlip (modeGravity s) (modeGravity s') ->
  modeGravity s' = (CUBE, 1).
Proof.
  intros Hs [H | H].
  - congruence.
  - rewrite Hs in H. inversion H.
Qed.

Lemma handle_without_portals speed objects s i :
  (forall obj, In obj objects -> startsWith_PORTAL (GameObject.type obj) = false) ->
  modeGravity s = (CUBE, 1) -> modeGravity (handle speed objects s i) = (CUBE, 1).
Proof.
  intros Hno Hs. destruct i; unfold handle.
  - unfold update. simpl player.
    destruct (Player.isDead (player s)); [exact Hs|].
    set (s1 := integrate speed (buildChunks objects) (with_frame (frame s + 1) s)).
    assert (H1 : modeGravity s1 = (CUBE, 1)).
    { unfold s1. rewrite integrate_without_portals; [exact Hs|].
      intros obj Hidx. apply Hno, indexed_buildChunks, Hidx. }
    set (s2 := with_completion _ (with_cameraX _ s1)).
    assert (H2 : modeGravity (autoJump false (buildChunks objects) s2) = (CUBE, 1)).
    { apply (cube_never_flips s2); [exact H1 | apply autoJump_gravity]. }
    destruct (Qgtb _ _); exact H2.
  - unfold onPress. destruct (isJumpButtonPressed s); [exact Hs|].
    apply (cube_never_flips s (with_pressed true _)); [exact Hs|].
    apply (triggerInteraction_gravity false false (buildChunks objects) s).
  - exact Hs.
Qed.

(** X6.  The mode comes from the level.  After any session the player is
    a Cube or has the mode of a portal that is an object of the level.  In
    a level without portals the player is a Cube under gravity 1 after
    every callback. *)
Theorem mode_comes_from_a_portal speed objects inputs :
  modeFromLevel objects (play speed objects inputs)
  /\ ((forall obj, In obj objects -> startsWith_PORTAL (GameObject.type obj) = false) ->
      modeGravity (play speed objects inputs) = (CUBE, 1)).
Proof.
  split.
  - apply play_invariant; [apply handle_modeFromLevel | left; reflexivity].
  - intros Hno.
    apply (play_invariant objects (fun s => modeGravity s = (CUBE, 1))); [|reflexivity].
    intros s i. apply handle_without_portals. exact Hno.
Qed.

Lemma clampVy_bound v : - MAX_VY <= clampVy v <= MAX_VY.
Proof.
  unfold clampVy, MAX_VY.
  destruct (Qgtb v 12) eqn:H1.
  - destruct (Qltb 12 (- (12))) eqn:H2; props; lra.
  - destruct (Qltb v (- (12))) eqn:H2; props; lra.
Qed.

Lemma advance_vy speed steps stepX stepY s :
  let s' := advance speed steps stepX stepY s in
  Player.vy (player s') = Player.vy (player s) \/ Player.vy (player s') = 0.
Proof.
  unfold advance, clampY.
  set (p := rotate speed steps (isJumpButtonPressed s) _).
  assert (Hp : Player.vy p = Player.vy (player s)).
  { unfold p. destruct (rotate_fields speed steps (isJumpButtonPressed s)
      (set_y (Player.y (player s) + stepY) (set_x (Player.x (player s) + stepX) (player s))))
      as (_ & _ & -> & _). reflexivity. }
  simpl player.
  destruct (Qgeb (Player.y p) 360); [right; reflexivity|].
  destruct (Qleb (Player.y p) 0); [right; reflexivity|].
  left. exact Hp.
Qed.

Lemma outcome_vy prevX internalPrevY obj s r :
  outcome prevX internalPrevY obj s r ->
  Player.vy (player (fst r)) = Player.vy (player s) \/ Player.vy (player (fst r)) = 0.
Proof.
  intros Ho. inversion Ho; subst; simpl; auto.
Qed.

(** X7.  Terminal velocity.  Whatever the state, the mode and the held
    button, the vertical velocity a frame's integration leaves is within
    [-MAX_VY, MAX_VY]: the clamp bounds it, and the sub-steps only keep it
    or set it to 0. *)
Theorem terminal_velocity speed chunks s :
  - MAX_VY <= Player.vy (player (integrate speed chunks s)) <= MAX_VY.
Proof.
  unfold integrate.
  set (P := fun s0 : Sim => - MAX_VY <= Player.vy (player s0) <= MAX_VY).
  assert (Hkeep : forall a b : Sim,
             Player.vy (player b) = Player.vy (player a) \/ Player.vy (player b) = 0 ->
             P a -> P b).
  { unfold P, MAX_VY. intros a b [-> | ->] Ha; [exact Ha | lra]. }
  apply (subSteps_invariant P).
  - intros s0 H0.
    apply (subStep_invariant P (fun _ => P)).
    + intros s1. apply Hkeep, advance_vy.
    + intros ipy obj s1 r _ H1 Ho. revert H1. apply Hkeep. eapply outcome_vy, Ho.
    + auto.
    + exact H0.
  - unfold P, applyVelocity.
    destruct (frameVelocity _ _ _ _ _) as [frameVy jumpFrames]. simpl.
    apply clampVy_bound.
Qed.

Lemma deaths_emit e s :
  deaths (emit e s) = (deaths s + if isDeath e then 1 else 0)%nat.
Proof.
  unfold deaths. simpl events. rewrite List.filter_app, length_app. simpl.
  destruct (isDeath e); reflexivity.
Qed.

Lemma deathLogged_ext s1 s2 :
  events s2 = events s1 -> Player.isDead (player s2) = Player.isDead (player s1) ->
  deathLogged s1 -> deathLogged s2.
Proof. unfold deathLogged, deaths. intros -> ->. auto. Qed.

Lemma outcome_deathLogged prevX internalPrevY obj s r :
  outcome prevX internalPrevY obj s r ->
  Player.isDead (player s) = false -> deathLogged s ->
  deathLogged (fst r) /\ Player.isDead (player (fst r)) = snd r.
Proof.
  intros Ho Halive Hs. unfold deathLogged in *. rewrite Halive in Hs.
  inversion Ho; subst; simpl fst; simpl snd.
  - rewrite Halive. auto.
  - unfold die. rewrite deaths_emit. simpl. unfold deaths in *. simpl events.
    rewrite Hs. auto.
  - simpl. rewrite Halive. auto.
  - rewrite deaths_emit. simpl. rewrite Halive. unfold deaths in *. simpl events.
    rewrite Hs. auto.
Qed.

Lemma collide_deathLogged phX phY prevX internalPrevY buffer s :
  Player.isDead (player s) = false -> deathLogged s ->
  deathLogged (collide phX phY prevX internalPrevY buffer s).
Proof.
  revert s. induction buffer as [|obj rest IH]; intros s Halive Hs; simpl; [exact Hs|].
  pose proof (collideObject_outcome phX phY prevX internalPrevY obj s) as Ho.
  destruct (outcome_deathLogged _ _ _ _ _ Ho Halive Hs) as [H1 H2].
  destruct (collideObject phX phY prevX internalPrevY obj s) as [s1 stop].
  simpl in H1, H2. destruct stop; [exact H1|].
  apply IH; assumption.
Qed.

Lemma subSteps_deathLogged n speed steps stepX stepY prevX chunks s :
  deathLogged s -> deathLogged (subSteps n speed steps stepX stepY prevX chunks s).
Proof.
  revert s. induction n as [|n IH]; intros s Hs; simpl; [exact Hs|].
  destruct (Player.isDead (player s)) eqn:Halive; [exact Hs|].
  apply IH. unfold subStep.
  destruct (advance_fields speed steps stepX stepY s) as (_ & _ & _ & _ & Hd & He & _).
  apply collide_deathLogged.
  - rewrite Hd. exact Halive.
  - apply (deathLogged_ext s); assumption.
Qed.

Lemma integrate_deathLogged speed chunks s :
  deathLogged s -> deathLogged (integrate speed chunks s).
Proof.
  intros Hs. unfold integrate. apply subSteps_deathLogged.
  destruct (applyVelocity_fields s) as (_ & _ & _ & Hd & He & _).
  apply (deathLogged_ext s); assumption.
Qed.

Lemma triggerInteraction_deaths paused isAutoJump chunks s :
  let s' := triggerInteraction paused isAutoJump chunks s in
  deaths s' = deaths s /\ Player.isDead (player s') = Player.isDead (player s).
Proof.
  unfold triggerInteraction.
  destruct (Player.isDead (player s) || paused); [auto|].
  destruct (Player.mode (player s));
    try destruct (negb isAutoJump || onSurfaceRef s);
    try destruct (onSurfaceRef s);
    try (split; reflexivity);
    try (rewrite deaths_emit; simpl; split; [apply Nat.add_0_r | reflexivity]).
  all: unfold spiderTeleport; rewrite deaths_emit; simpl isDeath; cbv zeta.
  all: split; [|reflexivity].
  all: rewrite Nat.add_0_r; unfold deaths; simpl events.
  all: rewrite List.filter_app, length_app; simpl; apply Nat.add_0_r.
Qed.

Lemma handle_deathLogged speed objects s i :
  deathLogged s -> deathLogged (handle speed objects s i).
Proof.
  intros Hs. destruct i; unfold handle.
  - unfold update. simpl player.
    destruct (Player.isDead (player s)) eqn:Hd.
    + apply (deathLogged_ext s); [reflexivity | reflexivity | exact Hs].
    + set (s1 := integrate speed (buildChunks objects) (with_frame (frame s + 1) s)).
      assert (H1 : deathLogged s1).
      { apply integrate_deathLogged.
        apply (deathLogged_ext s); [reflexivity | reflexivity | exact Hs]. }
      set (s2 := with_completion _ (with_cameraX _ s1)).
      assert (H2 : deathLogged (autoJump false (buildChunks objects) s2)).
      { unfold autoJump.
        destruct (isJumpButtonPressed s2 && onSurfaceRef s2 && negb (actionBufferActive s2)).
        - destruct (triggerInteraction_deaths false true (buildChunks objects) s2)
            as [Ha Hb].
          unfold deathLogged in *. unfold deaths in *. simpl.
          rewrite Ha, Hb. exact H1.
        - destruct (negb (onSurfaceRef s2)); exact H1. }
      destruct (Qgtb _ _); [|exact H2].
      unfold deathLogged in *. rewrite deaths_emit. simpl.
      rewrite Nat.add_0_r. exact H2.
  - unfold onPress. destruct (isJumpButtonPressed s).
    + apply (deathLogged_ext s); [reflexivity | reflexivity | exact Hs].
    + destruct (triggerInteraction_deaths false false (buildChunks objects) s)
        as [Ha Hb].
      unfold deathLogged in *. unfold deaths in *. simpl. rewrite Ha, Hb. exact Hs.
  - exact Hs.
Qed.

Lemma handle_dead speed objects s i :
  Player.isDead (player s) = true ->
  let s' := handle speed objects s i in
  player s' = player s /\ events s' = events s
  /\ completion s' = completion s /\ cameraX s' = cameraX s.
Proof.
  intros Hd. destruct i; unfold handle.
  - unfold update. simpl player. rewrite Hd. auto.
  - unfold onPress, triggerInteraction. rewrite Hd. simpl.
    destruct (isJumpButtonPressed s); auto.
  - auto.
Qed.

Lemma foldl_dead speed objects more s :
  Player.isDead (player s) = true ->
  let s' := foldl (handle speed objects) s more in
  player s' = player s /\ events s' = events s
  /\ completion s' = completion s /\ cameraX s' = cameraX s.
Proof.
  revert s. induction more as [|i more IH]; intros s Hd; simpl; [auto|].
  destruct (handle_dead speed objects s i Hd) as (Hp & He & Hc & Hx).
  cbv zeta in IH. rewrite <- Hp, <- He, <- Hc, <- Hx.
  apply IH. rewrite Hp. exact Hd.
Qed.

(** X8.  Death is final and is logged once.  After any session the event
    log holds exactly one death sequence if the player is dead and none if
    alive; and once the player is dead, whatever callbacks follow leave
    the player, the event log, the completion and the camera as they
    are. *)
Theorem death_is_final speed objects inputs :
  deathLogged (play speed objects inputs)
  /\ (forall more,
         Player.isDead (player (play speed objects inputs)) = true ->
         let s' := play speed objects (inputs ++ more) in
         player s' = player (play speed objects inputs)
         /\ events s' = events (play speed objects inputs)
         /\ completion s' = completion (play speed objects inputs)
         /\ cameraX s' = cameraX (play speed objects inputs)).
Proof.
  split.
  - apply play_invariant; [apply handle_deathLogged | reflexivity].
  - intros more Hd. unfold play. rewrite foldl_app.
    apply foldl_dead. exact Hd.
Qed.



Lemma integrate_x_le speed chunks s :
  0 <= speed ->
  Player.x (player s) <= Player.x (player (integrate speed chunks s)).
Proof.
  intros Hsp. unfold integrate.
  destruct (stepsOf_facts speed) as (_ & H2 & _ & _ & H5 & H6 & _).
  assert (Hq : 1 <= inject_Z (stepsOf speed)).
  { change 1 with (inject_Z 1). rewrite <- Zle_Qle. exact H2. }
  assert (HstepX : 0 <= speed / inject_Z (stepsOf speed)).
  { apply Qle_shift_div_l; lra. }
  apply (subSteps_invariant (fun s0 => Player.x (player s) <= Player.x (player s0))).
  - intros s0 H0. rewrite subStep_x. lra.
  - destruct (applyVelocity_fields s) as (_ & -> & _). lra.
Qed.









Lemma Math_min_100 a b :
  0 <= a -> a <= b ->
  0 <= Math_min 100 a /\ Math_min 100 a <= Math_min 100 b /\ Math_min 100 b <= 100.
Proof.
  intros Ha Hab. unfold Math_min.
  destruct (Qle_bool 100 a) eqn:E1; destruct (Qle_bool 100 b) eqn:E2;
    try apply Qle_bool_iff in E1; try apply Qle_bool_iff in E2;
    try apply Qleb_gt in E1; try apply Qleb_gt in E2; lra.
Qed.

Lemma winX_positive objects : 0 < winX objects.
Proof.
  unfold winX.
  destruct (Math_max_spec MIN_WIN_DISTANCE (lastObjX objects + 1000)) as (H & _).
  unfold MIN_WIN_DISTANCE in *. lra.
Qed.

Lemma completion_of_x_mono wx a b :
  0 < wx -> 0 <= a -> a <= b -> 0 <= a / wx * 100 /\ a / wx * 100 <= b / wx * 100.
Proof.
  intros Hw Ha Hab.
  assert (Hi : 0 <= / wx) by (apply Qinv_le_0_compat; lra).
  assert (H0 : 0 <= a * / wx) by (apply Qmult_le_0_compat; assumption).
  assert (H1 : a * / wx <= b * / wx) by (apply Qmult_le_compat_r; assumption).
  unfold Qdiv. revert H0 H1. generalize (a * / wx), (b * / wx). intros u v ? ?. lra.
Qed.

Lemma handle_progress speed objects s i :
  0 <= speed ->
  progressSound (winX objects) s ->
  progressSound (winX objects) (handle speed objects s i)
  /\ completion s <= completion (handle speed objects s i).
Proof.
  intros Hsp (Hx & Hc0 & Hc). pose proof (winX_positive objects) as Hw.
  assert (Hsame : forall s', Player.x (player s') = Player.x (player s) ->
                             completion s' = completion s ->
                             progressSound (winX objects) s'
                             /\ completion s <= completion s').
  { intros s' Ex Ec. unfold progressSound. rewrite Ex, Ec.
    repeat split; try assumption. lra. }
  destruct i; unfold handle.
  - unfold update. simpl player.
    destruct (Player.isDead (player s)); [apply Hsame; reflexivity|].
    set (s1 := integrate speed (buildChunks objects) (with_frame (frame s + 1) s)).
    assert (H1 : Player.x (player s) <= Player.x (player s1)).
    { apply (integrate_x_le speed (buildChunks objects) (with_frame (frame s + 1) s)).
      exact Hsp. }
    set (s2 := with_completion _ (with_cameraX _ s1)).
    destruct (autoJump_fields false (buildChunks objects) s2) as (Ex & _ & Ec & _).
    set (s3 := autoJump false (buildChunks objects) s2) in *.
    assert (E : forall (A : Type) (f : Sim -> A),
               (forall e s0, f (emit e s0) = f s0) ->
               f (if Qgtb (Player.x (player s3)) (winX objects)
                  then emit EvWin s3 else s3) = f s3).
    { intros A f Hf'. destruct (Qgtb _ _); [apply Hf' | reflexivity]. }
    unfold progressSound.
    rewrite (E _ completion), (E _ (fun s0 => Player.x (player s0))) by reflexivity.
    rewrite Ex, Ec. simpl.
    destruct (completion_of_x_mono (winX objects) _ _ Hw Hx H1) as [Hq0 Hq1].
    destruct (Math_min_100 _ _ Hq0 Hq1) as (Hm0 & Hm1 & Hm2).
    assert (Hq2 : 0 <= Player.x (player s1) / winX objects * 100) by lra.
    destruct (Math_min_100 _ _ Hq2 (Qle_refl _)) as (Hn0 & _).
    repeat split; try lra.
  - unfold onPress.
    destruct (triggerInteraction_fields false false (buildChunks objects) s)
      as (Ex & _ & Ec & _).
    destruct (isJumpButtonPressed s); apply Hsame; simpl; auto.
  - apply Hsame; reflexivity.
Qed.

Lemma run_progress speed objects more s :
  0 <= speed ->
  progressSound (winX objects) s ->
  progressSound (winX objects) (foldl (handle speed objects) s more)
  /\ completion s <= completion (foldl (handle speed objects) s more).
Proof.
  intros Hsp. revert s. induction more as [|i more IH]; intros s Hs; simpl.
  - split; [exact Hs | lra].
  - destruct (handle_progress speed objects s i Hsp Hs) as [H1 H2].
    destruct (IH _ H1) as [H3 H4]. split; [exact H3 | lra].
Qed.

(** X10.  The progress bar never goes back.  With a speed that is not
    negative, the completion shown after any session is between 0 and
    100, and whatever callbacks follow do not lower it. *)
Theorem progress_never_goes_back speed objects inputs more :
  0 <= speed ->
  let c := completion (play speed objects inputs) in
  let c' := completion (play speed objects (inputs ++ more)) in
  0 <= c /\ c <= c' /\ c' <= 100.
Proof.
  intros Hsp c c'. subst c c'. unfold play. rewrite foldl_app.
  pose proof (winX_positive objects) as Hw.
  assert (H0 : progressSound (winX objects) initialSim).
  { unfold progressSound. simpl.
    assert (Hx : 0 <= 50) by lra.
    destruct (completion_of_x_mono (winX objects) 50 50 Hw Hx (Qle_refl _)) as [Hq _].
    destruct (Math_min_100 _ _ Hq (Qle_refl _)) as (Hm & _).
    repeat split; lra. }
  destruct (run_progress speed objects inputs initialSim Hsp H0) as [H1 H2].
  destruct (run_progress speed objects more _ Hsp H1) as [(Hx & Hc0 & Hc) H4].
  destruct H1 as (Hx1 & Hc1 & _).
  assert (Hq : 0 <= Player.x (player (foldl (handle speed objects)
                 (foldl (handle speed objects) initialSim inputs) more))
               / winX objects * 100).
  { apply (completion_of_x_mono (winX objects) _ _ Hw Hx (Qle_refl _)). }
  destruct (Math_min_100 _ _ Hq (Qle_refl _)) as (_ & _ & Hm).
  repeat split; lra.
Qed.


Lemma scanCandidates_column px y g candidates v :
  scanCandidates px y g candidates = Some v ->
  exists obj,
    In obj candidates /\ GameObject.type obj = BLOCK
    /\ px < GameObject.x obj + BLOCK_SIZE /\ GameObject.x obj < px + PLAYER_SIZE.
Proof.
  induction candidates as [|obj rest IH]; simpl; [discriminate|].
  destruct (match GameObject.type obj with BLOCK => true | _ => false end
            && Qltb px (GameObject.x obj + BLOCK_SIZE)
            && Qgtb (px + PLAYER_SIZE) (GameObject.x obj)) eqn:Hcol.
  - intros H.
    assert (Hobj : GameObject.type obj = BLOCK
                   /\ px < GameObject.x obj + BLOCK_SIZE
                   /\ GameObject.x obj < px + PLAYER_SIZE).
    { props. destruct (GameObject.type obj); try discriminate. auto. }
    destruct (Qeq_bool g 1 && Qgeb (y + PLAYER_SIZE) (GameObject.y obj)
              && Qltb y (GameObject.y obj));
      [exists obj; split; [left; reflexivity | exact Hobj]|].
    destruct (Qeq_bool g (-1) && Qleb y (GameObject.y obj + BLOCK_SIZE)
              && Qgtb y (GameObject.y obj));
      [exists obj; split; [left; reflexivity | exact Hobj]|].
    destruct (IH H) as (o & Hin & Ho). exists o. split; [right; exact Hin | exact Ho].
  - intros H. destruct (IH H) as (o & Hin & Ho).
    exists o. split; [right; exact Hin | exact Ho].
Qed.

(** X11.  The Spider interaction.  For a living Spider on a surface the
    interaction flips gravity, zeroes the velocity, leaves [x] and the
    mode, ends on a surface and logs a jump and the teleport from the old
    y to the new.  The scan always ends; when no Block of the candidate
    buffer overlaps the player's column, the player lands on the world
    bound the new gravity points to: 360 under gravity 1, 0 under -1. *)
Theorem spider_interaction isAutoJump chunks s :
  Player.mode (player s) = SPIDER ->
  Player.isDead (player s) = false ->
  onSurfaceRef s = true ->
  let p := player s in
  let s' := triggerInteraction false isAutoJump chunks s in
  let g' := flipGravity (Player.gravityDir p) in
  Player.gravityDir (player s') = g'
  /\ Player.vy (player s') = 0
  /\ Player.x (player s') = Player.x p
  /\ Player.mode (player s') = SPIDER
  /\ onSurfaceRef s' = true
  /\ events s' = events s ++ [EvJump; EvTeleport (Player.y p) (Player.y (player s'))]
  /\ ((forall obj, In obj (gather chunks (chunkOf (Player.x p))) ->
                   GameObject.type obj = BLOCK ->
                   ~ (Player.x p < GameObject.x obj + BLOCK_SIZE
                      /\ GameObject.x obj < Player.x p + PLAYER_SIZE)) ->
      Player.y (player s') = if Qeq_bool g' 1 then 360 else 0).
Proof.
  intros Hm Hd Hsurf p s' g'. subst p s' g'.
  unfold triggerInteraction. rewrite Hd, Hm, Hsurf. simpl orb. cbv iota.
  unfold spiderTeleport. cbv zeta. simpl.
  rewrite Hm. repeat split.
  - rewrite <- app_assoc. reflexivity.
  - intros Hclear.
    pose proof (spiderTeleport_scan_ends (Player.x (player s)) (Player.y (player s))
                  (Player.gravityDir (player s)) (gather chunks (chunkOf (Player.x (player s)))))
      as Hends. cbv zeta in Hends.
    destruct (scanRows _ _ _ _ _ _) as [[v|]|] eqn:Hscan.
    + exfalso. apply scanRows_found in Hscan. destruct Hscan as (y' & _ & _ & _ & Hc).
      apply scanCandidates_column in Hc. destruct Hc as (obj & Hin & Ht & Hx).
      exact (Hclear obj Hin Ht Hx).
    + reflexivity.
    + exfalso. apply Hends. reflexivity.
Qed.

Lemma outcome_pressed prevX internalPrevY obj s r :
  outcome prevX internalPrevY obj s r ->
  isJumpButtonPressed (fst r) = isJumpButtonPressed s.
Proof. intros Ho. inversion Ho; subst; reflexivity. Qed.

Lemma integrate_pressed speed chunks s :
  isJumpButtonPressed (integrate speed chunks s) = isJumpButtonPressed s.
Proof.
  apply (integrate_invariant (fun s0 => isJumpButtonPressed s0 = isJumpButtonPressed s)
                             (fun _ s0 => isJumpButtonPressed s0 = isJumpButtonPressed s)).
  - intros s0 <-. apply (applyVelocity_fields s0).
  - intros steps stepX stepY s0 <-. apply (advance_fields speed steps stepX stepY s0).
  - intros ipy obj s0 r _ <- Ho. eapply outcome_pressed, Ho.
  - auto.
  - reflexivity.
Qed.

Lemma triggerInteraction_pressed paused isAutoJump chunks s :
  isJumpButtonPressed (triggerInteraction paused isAutoJump chunks s)
  = isJumpButtonPressed s.
Proof.
  unfold triggerInteraction.
  destruct (Player.isDead (player s) || paused); [auto|].
  destruct (Player.mode (player s));
    try destruct (negb isAutoJump || onSurfaceRef s);
    try destruct (onSurfaceRef s);
    reflexivity.
Qed.

Lemma handle_pressed speed objects s i :
  i <> Release -> isJumpButtonPressed s = true ->
  isJumpButtonPressed (handle speed objects s i) = true.
Proof.
  intros Hi Hp. destruct i; [| reflexivity | congruence].
  unfold handle, update. simpl player.
  destruct (Player.isDead (player s)); [exact Hp|].
  set (s1 := integrate speed (buildChunks objects) (with_frame (frame s + 1) s)).
  assert (H1 : isJumpButtonPressed s1 = true).
  { unfold s1. rewrite integrate_pressed. exact Hp. }
  set (s2 := with_completion _ (with_cameraX _ s1)).
  assert (H2 : isJumpButtonPressed (autoJump false (buildChunks objects) s2) = true).
  { unfold autoJump.
    destruct (isJumpButtonPressed s2 && onSurfaceRef s2 && negb (actionBufferActive s2)).
    - simpl. rewrite triggerInteraction_pressed. exact H1.
    - destruct (negb (onSurfaceRef s2)); exact H1. }
  destruct (Qgtb _ _); exact H2.
Qed.

Lemma press_while_held speed objects s :
  isJumpButtonPressed s = true -> handle speed objects s Press = s.
Proof.
  intros Hp. unfold handle, onPress. rewrite Hp.
  destruct s. simpl in Hp. subst. reflexivity.
Qed.

(** X12.  A held button interacts once.  After a press, and until the
    next release, the button stays held through every frame, and a
    further press callback (a key repeat) changes nothing: the session
    with the repeated press is the session without it. *)
Theorem held_button_interacts_once speed objects before held after :
  ~ In Release held ->
  play speed objects (before ++ [Press] ++ held ++ [Press] ++ after)
  = play speed objects (before ++ [Press] ++ held ++ after).
Proof.
  intros Hheld. unfold play. rewrite !foldl_app. f_equal.
  apply (press_while_held speed objects).
  set (s := foldl (handle speed objects) initialSim before).
  change (foldl (handle speed objects) s [Press]) with (handle speed objects s Press).
  assert (Hp : isJumpButtonPressed (handle speed objects s Press) = true) by reflexivity.
  revert Hp. generalize (handle speed objects s Press). clear s.
  induction held as [|i held IH]; intros s Hp; simpl; [exact Hp|].
  apply IH.
  - intros Hin. apply Hheld. right. exact Hin.
  - apply handle_pressed; [|exact Hp].
    intros ->. apply Hheld. left. reflexivity.
Qed.


Lemma outcome_refs prevX internalPrevY obj s r :
  outcome prevX internalPrevY obj s r ->
  actionBufferActive (fst r) = actionBufferActive s
  /\ (onSurfaceRef s = true -> onSurfaceRef (fst r) = true).
Proof. intros Ho. inversion Ho; subst; simpl; auto. Qed.

Lemma integrate_refs speed chunks s :
  actionBufferActive (integrate speed chunks s) = actionBufferActive s
  /\ (onSurfaceRef s = true -> onSurfaceRef (integrate speed chunks s) = true).
Proof.
  apply (integrate_invariant
           (fun s0 => actionBufferActive s0 = actionBufferActive s
                      /\ (onSurfaceRef s = true -> onSurfaceRef s0 = true))
           (fun _ s0 => actionBufferActive s0 = actionBufferActive s
                        /\ (onSurfaceRef s = true -> onSurfaceRef s0 = true))).
  - intros s0 [H1 H2]. unfold applyVelocity.
    destruct (frameVelocity _ _ _ _ _). simpl. auto.
  - intros steps stepX stepY s0 [H1 H2]. unfold advance, clampY, land. simpl player.
    destruct (Qgeb _ 360); [simpl; auto|]. destruct (Qleb _ 0); simpl; auto.
  - intros ipy obj s0 r _ [H1 H2] Ho.
    destruct (outcome_refs _ _ _ _ _ Ho) as [H3 H4].
    split; [congruence | auto].
  - auto.
  - auto.
Qed.

Lemma flipGravity_twice g : g = 1 \/ g = -1 -> flipGravity (flipGravity g) = g.
Proof. intros [-> | ->]; reflexivity. Qed.

(** X19.  A Spider press held into the next frame teleports twice.  A
    living Spider on a surface, button up and auto-repeat free, teleports
    when the button goes down.  The teleport ends on a surface with the
    button held, so the auto-repeat rule of the next frame fires at once:
    if the player is alive and a Spider after that frame's integration,
    it teleports again, and with no portal reset in between gravity is
    back where it was before the press.  The auto-repeat is then taken
    and the player on a surface. *)
Theorem spider_press_held_teleports_twice speed objects s :
  Player.mode (player s) = SPIDER ->
  Player.isDead (player s) = false ->
  onSurfaceRef s = true ->
  isJumpButtonPressed s = false ->
  actionBufferActive s = false ->
  unitGravity s ->
  let s1 := handle speed objects s Press in
  let mid := integrate speed (buildChunks objects) (with_frame (frame s1 + 1) s1) in
  let s2 := handle speed objects s1 Tick in
  Player.gravityDir (player s1) = flipGravity (Player.gravityDir (player s))
  /\ (Player.isDead (player mid) = false ->
      Player.mode (player mid) = SPIDER ->
      Player.gravityDir (player s2) = flipGravity (Player.gravityDir (player mid))
      /\ actionBufferActive s2 = true
      /\ onSurfaceRef s2 = true
      /\ (Player.gravityDir (player mid) = Player.gravityDir (player s1) ->
          Player.gravityDir (player s2) = Player.gravityDir (player s))).
Proof.
  intros Hm Hd Hsurf Hup Hbuf Hg s1 mid s2.
  assert (E1 : s1 = with_pressed true (spiderTeleport (buildChunks objects) s)).
  { unfold s1, handle, onPress, triggerInteraction.
    rewrite Hup, Hd, Hm, Hsurf. reflexivity. }
  assert (G1 : Player.gravityDir (player s1) = flipGravity (Player.gravityDir (player s)))
    by (rewrite E1; reflexivity).
  assert (Hd1 : Player.isDead (player s1) = false) by (rewrite E1; exact Hd).
  assert (Hp1 : isJumpButtonPressed s1 = true) by (rewrite E1; reflexivity).
  assert (Hb1 : actionBufferActive s1 = false) by (rewrite E1; exact Hbuf).
  assert (Hs1 : onSurfaceRef s1 = true) by (rewrite E1; reflexivity).
  clearbody s1. clear E1.
  split; [exact G1|].
  intros Halive Hspider.
  destruct (integrate_refs speed (buildChunks objects) (with_frame (frame s1 + 1) s1))
    as [Hb Hs]. fold mid in Hb, Hs.
  assert (Hp : isJumpButtonPressed mid = true).
  { unfold mid. rewrite integrate_pressed. exact Hp1. }
  assert (Hb' : actionBufferActive mid = false) by (rewrite Hb; exact Hb1).
  assert (Hs' : onSurfaceRef mid = true) by (apply Hs; exact Hs1).
  assert (E2 : s2 = let s' := with_completion
                                (Math_min 100 (Player.x (player mid) / winX objects * 100))
                                (with_cameraX (Player.x (player mid) - 150) mid) in
                    let s3 := with_actionBuffer true
                                (spiderTeleport (buildChunks objects) s') in
                    if Qgtb (Player.x (player s3)) (winX objects)
                    then emit EvWin s3 else s3).
  { unfold s2, handle, update. simpl player. rewrite Hd1. fold mid.
    clearbody mid.
    unfold autoJump, triggerInteraction. simpl.
    rewrite Hp, Hs', Hb', Halive, Hspider. reflexivity. }
  clearbody s2 mid. subst s2. cbv zeta.
  assert (G2 : forall s3 : Sim,
             Player.gravityDir
               (player (if Qgtb (Player.x (player s3)) (winX objects)
                        then emit EvWin s3 else s3))
             = Player.gravityDir (player s3)
             /\ actionBufferActive (if Qgtb (Player.x (player s3)) (winX objects)
                                    then emit EvWin s3 else s3)
                = actionBufferActive s3
             /\ onSurfaceRef (if Qgtb (Player.x (player s3)) (winX objects)
                              then emit EvWin s3 else s3)
                = onSurfaceRef s3).
  { intros s3. destruct (Qgtb _ _); auto. }
  destruct (G2 (with_actionBuffer true
                  (spiderTeleport (buildChunks objects)
                     (with_completion
                        (Math_min 100 (Player.x (player mid) / winX objects * 100))
                        (with_cameraX (Player.x (player mid) - 150) mid)))))
    as (-> & -> & ->).
  split; [reflexivity|]. split; [reflexivity|]. split; [reflexivity|].
  intros Hsame. simpl. rewrite Hsame, G1. apply flipGravity_twice. exact Hg.
Qed.

End Session.

(** ** The draw buffer *)

Section Drawing.
Context {K : Constants}.
Variable GAME_WIDTH : Q.

Lemma drawBuffer_In objects cameraX obj :
  In obj (drawBuffer GAME_WIDTH (buildChunks objects) cameraX)
  <-> In obj objects
      /\ (Math_floor ((cameraX - 100) / CHUNK_SIZE) <= chunkOf (GameObject.x obj)
          <= Math_floor ((cameraX + GAME_WIDTH + 100) / CHUNK_SIZE))%Z.
Proof.
  unfold drawBuffer, drawChunks. rewrite in_concat. split.
  - intros (l & Hl & Hin). apply in_map_iff in Hl. destruct Hl as (c & <- & Hc).
    rewrite buildChunks_lookup in Hin. apply filter_In in Hin.
    destruct Hin as [Hin Hch]. unfold inChunk in Hch. apply Z.eqb_eq in Hch.
    apply list_elem_of_In, elem_of_seqZ in Hc.
    split; [exact Hin|]. rewrite Hch. lia.
  - intros [Hin Hc]. exists (default [] (buildChunks objects !! chunkOf (GameObject.x obj))).
    split.
    + apply in_map_iff. exists (chunkOf (GameObject.x obj)). split; [reflexivity|].
      apply list_elem_of_In, elem_of_seqZ. lia.
    + rewrite buildChunks_lookup. apply filter_In. split; [exact Hin|].
      unfold inChunk. apply Z.eqb_refl.
Qed.

(** X13.  The draw buffer covers the viewport.  With tiles of 0 to 100
    units, every object of the level whose tile meets the visible span
    [cameraX, cameraX + GAME_WIDTH] is in the draw buffer; and whatever is
    in the draw buffer is an object of the level that starts less than 700
    units before the span and less than 700 after it. *)
Theorem draw_buffer_covers_viewport objects cameraX obj :
  0 <= BLOCK_SIZE <= 100 ->
  In obj objects ->
  (cameraX <= GameObject.x obj + BLOCK_SIZE
   /\ GameObject.x obj <= cameraX + GAME_WIDTH ->
   In obj (drawBuffer GAME_WIDTH (buildChunks objects) cameraX))
  /\ (forall o, In o (drawBuffer GAME_WIDTH (buildChunks objects) cameraX) ->
                In o objects
                /\ cameraX - 700 < GameObject.x o < cameraX + GAME_WIDTH + 700).
Proof.
  intros HB Hin. split.
  - intros [H1 H2]. apply drawBuffer_In. split; [exact Hin|].
    unfold chunkOf, Math_floor, CHUNK_SIZE. split; apply Qfloor_resp_le.
    + apply Qmult_le_compat_r; [lra|]. apply Qinv_le_0_compat. lra.
    + apply Qmult_le_compat_r; [lra|]. apply Qinv_le_0_compat. lra.
  - intros o Ho. apply drawBuffer_In in Ho. destruct Ho as [Ho [H1 H2]].
    split; [exact Ho|].
    unfold chunkOf, Math_floor, CHUNK_SIZE in *.
    pose proof (Qlt_floor ((cameraX - 100) / 600)) as Pa.
    pose proof (Qfloor_le ((cameraX + GAME_WIDTH + 100) / 600)) as Pb.
    pose proof (Qfloor_le (GameObject.x o / 600)) as Oa.
    pose proof (Qlt_floor (GameObject.x o / 600)) as Ob.
    assert (Ea : cameraX - 100 == 600 * ((cameraX - 100) / 600)) by field.
    assert (Eb : cameraX + GAME_WIDTH + 100 == 600 * ((cameraX + GAME_WIDTH + 100) / 600))
      by field.
    assert (Eo : GameObject.x o == 600 * (GameObject.x o / 600)) by field.
    rewrite Zle_Qle in H1, H2.
    rewrite inject_Z_plus in Pa, Ob. change (inject_Z 1) with 1 in Pa, Ob.
    revert Pa Pb Oa Ob Ea Eb Eo H1 H2.
    generalize ((cameraX - 100) / 600), ((cameraX + GAME_WIDTH + 100) / 600),
               (GameObject.x o / 600).
    intros a b c. intros. lra.
Qed.

End Drawing.



(** * Pausing *)










(** * The level editor *)

(** ** Sorting by layer *)

Lemma insertBy_Permutation {A : Type} (le : A -> A -> bool) a l :
  Permutation (Editor.insertBy le a l) (a :: l).
Proof.
  induction l as [|b rest IH]; simpl; [reflexivity|].
  destruct (le a b); [reflexivity|].
  rewrite IH. apply perm_swap.
Qed.

Lemma sortBy_Permutation {A : Type} (le : A -> A -> bool) l :
  Permutation (Editor.sortBy le l) l.
Proof.
  induction l as [|a rest IH]; simpl; [reflexivity|].
  rewrite insertBy_Permutation, IH. reflexivity.
Qed.

Lemma In_sortBy {A : Type} (le : A -> A -> bool) l a :
  In a (Editor.sortBy le l) <-> In a l.
Proof.
  split; apply Permutation_in; [|symmetry]; apply sortBy_Permutation.
Qed.

(** The head of a sorted list is below every element, for a total and
    transitive comparison. *)
Lemma sortBy_head {A : Type} (le : A -> A -> bool) l h :
  (forall a b, le a b = true \/ le b a = true) ->
  (forall a b c, le a b = true -> le b c = true -> le a c = true) ->
  head (Editor.sortBy le l) = Some h ->
  In h l /\ forall c, In c l -> le h c = true.
Proof.
  intros Htot Htrans. revert h. induction l as [|a rest IH]; intros h; simpl.
  - discriminate.
  - destruct (Editor.sortBy le rest) as [|b sorted] eqn:Hs; simpl.
    + intros [= <-].
      assert (Hrest : rest = []).
      { apply Permutation_nil. rewrite <- Hs. apply sortBy_Permutation. }
      subst rest. split; [left; reflexivity|].
      intros c [<- | []]. destruct (Htot a a); assumption.
    + destruct (IH b eq_refl) as [Hb Hmin].
      destruct (le a b) eqn:Hab; simpl; intros [= <-].
      * split; [left; reflexivity|].
        intros c [<- | Hc]; [destruct (Htot a a); assumption|].
        eapply Htrans; [exact Hab | apply Hmin, Hc].
      * split; [right; exact Hb|].
        intros c [<- | Hc]; [|apply Hmin, Hc].
        destruct (Htot b a) as [H | H]; [exact H | congruence].
Qed.

Lemma byLayerDesc_total a b :
  Editor.byLayerDesc a b = true \/ Editor.byLayerDesc b a = true.
Proof.
  unfold Editor.byLayerDesc.
  destruct (Qle_bool (Obj.zOf b) (Obj.zOf a)) eqn:E; [left; reflexivity|].
  right. apply Qleb_gt in E. apply Qle_bool_iff. lra.
Qed.

Lemma byLayerDesc_trans a b c :
  Editor.byLayerDesc a b = true -> Editor.byLayerDesc b c = true ->
  Editor.byLayerDesc a c = true.
Proof.
  unfold Editor.byLayerDesc. rewrite !Qle_bool_iff. lra.
Qed.


(** ** The editor's index and its view *)

Section EditorView.
Context {K : Constants}.
Variable GAME_WIDTH : Q.

Lemma pushChunk_In o (index : gmap Z (list Obj.t)) i c o' :
  In o' (default [] (Editor.pushChunk o index i !! c))
  <-> In o' (default [] (index !! c)) \/ (o' = o /\ c = i).
Proof.
  unfold Editor.pushChunk.
  destruct (Z.eq_dec i c) as [-> | Hne].
  - rewrite lookup_insert_eq. simpl. rewrite in_app_iff. simpl. intuition auto.
  - rewrite lookup_insert_ne by exact Hne. intuition congruence.
Qed.

Lemma pushChunks_In o chunks (index : gmap Z (list Obj.t)) c o' :
  In o' (default [] (foldl (Editor.pushChunk o) index chunks !! c))
  <-> In o' (default [] (index !! c)) \/ (o' = o /\ In c chunks).
Proof.
  revert index. induction chunks as [|i chunks IH]; intros index; simpl.
  - intuition auto.
  - rewrite IH, pushChunk_In. intuition auto.
Qed.

Lemma index_In objs (index : gmap Z (list Obj.t)) c o' :
  In o' (default [] (foldl (fun index o => foldl (Editor.pushChunk o) index
                                                 (Editor.chunksOf o))
                           index objs !! c))
  <-> In o' (default [] (index !! c)) \/ (In o' objs /\ In c (Editor.chunksOf o')).
Proof.
  revert index. induction objs as [|o objs IH]; intros index; simpl.
  - intuition auto.
  - rewrite IH, pushChunks_In. split.
    + intros [[H | [-> H]] | [H1 H2]]; auto.
    + intros [H | [[<- | H1] H2]]; auto.
Qed.

Lemma spatialIndex_In objects c o :
  In o (default [] (Editor.spatialIndex objects !! c))
  <-> In o objects /\ In c (Editor.chunksOf o).
Proof.
  unfold Editor.spatialIndex. rewrite index_In, lookup_empty, In_sortBy. simpl.
  intuition auto.
Qed.

Lemma foldl_concat {A B C : Type} (g : A -> B -> A) (f : C -> list B) ids st :
  foldl (fun st i => foldl g st (f i)) st ids = foldl g st (concat (map f ids)).
Proof.
  revert st. induction ids as [|i ids IH]; intros st; simpl; [reflexivity|].
  rewrite IH, foldl_app. reflexivity.
Qed.

Lemma pushVisible_gathered viewLeft viewRight scanned st o :
  gathered viewLeft viewRight scanned st ->
  gathered viewLeft viewRight (scanned ++ [o])
           (Editor.pushVisible viewLeft viewRight st o).
Proof.
  destruct st as [vis proc]. intros (Ha & Hb & Hc & Hd). simpl in *.
  assert (Hweak : gathered viewLeft viewRight (scanned ++ [o]) (vis, proc)
                  \/ ~ (Obj.id o ∈ proc
                        \/ ~ (viewLeft <= Obj.x o + BLOCK_SIZE /\ Obj.x o <= viewRight))).
  { destruct (decide (Obj.id o ∈ proc)) as [Hin | Hnin].
    - left. repeat split; simpl; try apply Ha; auto.
      + apply in_app_iff. left. apply Hc. assumption.
      + apply Hc. assumption.
      + apply Hc. assumption.
      + intros o' Ho' H1 H2. apply in_app_iff in Ho'.
        destruct Ho' as [Ho' | [<- | []]]; auto.
    - destruct (Qgeb (Obj.x o + BLOCK_SIZE) viewLeft && Qleb (Obj.x o) viewRight) eqn:Hov.
      + right. props. intros [Hp | Hp]; [exact (Hnin Hp) | apply Hp; split; assumption].
      + left. repeat split; simpl; try apply Ha; auto.
        * apply in_app_iff. left. apply Hc. assumption.
        * apply Hc. assumption.
        * apply Hc. assumption.
        * intros o' Ho' H1 H2. apply in_app_iff in Ho'.
          destruct Ho' as [Ho' | [<- | []]]; auto.
          exfalso. apply andb_false_iff in Hov. destruct Hov as [Hov | Hov]; props; lra. }
  unfold Editor.pushVisible.
  destruct (bool_decide (Obj.id o ∈ proc)) eqn:Hdec.
  - apply bool_decide_eq_true in Hdec.
    destruct Hweak as [H | H]; [exact H | exfalso; apply H; left; exact Hdec].
  - apply bool_decide_eq_false in Hdec.
    destruct (Qgeb (Obj.x o + BLOCK_SIZE) viewLeft && Qleb (Obj.x o) viewRight) eqn:Hov.
    + props. repeat split; simpl.
      * intros Hs. rewrite map_app, in_app_iff. simpl.
        apply elem_of_union in Hs. destruct Hs as [Hs | Hs].
        -- apply elem_of_singleton in Hs. auto.
        -- left. apply Ha. exact Hs.
      * rewrite map_app, in_app_iff. simpl. intros [Hs | [Hs | []]].
        -- apply elem_of_union. right. apply Ha. exact Hs.
        -- apply elem_of_union. left. apply elem_of_singleton. auto.
      * rewrite map_app. apply NoDup_app. split; [exact Hb|]. split.
        -- intros s Hs Hk. simpl in Hk. apply list_elem_of_singleton in Hk. subst s.
           apply Hdec, Ha. apply list_elem_of_In. exact Hs.
        -- apply NoDup_singleton.
      * apply in_app_iff in H1. rewrite in_app_iff.
        destruct H1 as [H1 | [<- | []]]; [left; apply Hc, H1 | right; left; reflexivity].
      * apply in_app_iff in H1.
        destruct H1 as [H1 | [<- | []]]; [apply Hc, H1 | assumption].
      * apply in_app_iff in H1.
        destruct H1 as [H1 | [<- | []]]; [apply Hc, H1 | assumption].
      * intros o' Ho' H1' H2'. apply in_app_iff in Ho'. apply elem_of_union.
        destruct Ho' as [Ho' | [<- | []]].
        -- right. apply Hd; assumption.
        -- left. apply elem_of_singleton. reflexivity.
    + destruct Hweak as [H | H]; [exact H|].
      exfalso. apply H. right. intros [H1 H2].
      apply andb_false_iff in Hov. destruct Hov as [Hov | Hov]; props; lra.
Qed.

Lemma foldl_gathered viewLeft viewRight scanned :
  gathered viewLeft viewRight scanned
           (foldl (Editor.pushVisible viewLeft viewRight) ([], ∅) scanned).
Proof.
  induction scanned as [|o scanned IH] using rev_ind.
  - split; [|split; [|split]]; simpl.
    + intros s. split; [intros H; apply elem_of_empty in H; destruct H | intros []].
    + apply NoDup_nil_2.
    + intros o [].
    + intros o [].
  - rewrite foldl_app. simpl. apply pushVisible_gathered. exact IH.
Qed.

Lemma NoDup_map_inj {A B : Type} (f : A -> B) l a b :
  NoDup (map f l) -> In a l -> In b l -> f a = f b -> a = b.
Proof.
  induction l as [|c l IH]; simpl; [intros _ []|].
  rewrite NoDup_cons. intros [Hc Hl] [<- | Ha] [<- | Hb] Hf; auto.
  - exfalso. apply Hc. rewrite Hf. apply list_elem_of_In, in_map, Hb.
  - exfalso. apply Hc. rewrite <- Hf. apply list_elem_of_In, in_map, Ha.
Qed.

Lemma scanned_In objects ids o :
  In o (concat (map (fun i => default [] (Editor.spatialIndex objects !! i)) ids))
  <-> In o objects /\ exists c, In c ids /\ In c (Editor.chunksOf o).
Proof.
  rewrite in_concat. split.
  - intros (l & Hl & Ho). apply in_map_iff in Hl. destruct Hl as (c & <- & Hc).
    apply spatialIndex_In in Ho. destruct Ho as [Ho Hch]. eauto.
  - intros (Ho & c & Hc & Hch).
    exists (default [] (Editor.spatialIndex objects !! c)). split.
    + apply in_map_iff. eauto.
    + apply spatialIndex_In. auto.
Qed.

Lemma view_meets_chunks scrollX o :
  0 <= BLOCK_SIZE -> 0 <= GAME_WIDTH ->
  scrollX <= Obj.x o + BLOCK_SIZE -> Obj.x o <= scrollX + GAME_WIDTH ->
  exists c,
    In c (seqZ (Math_floor (scrollX / Editor.CHUNK_SIZE))
               (Math_floor ((scrollX + GAME_WIDTH) / Editor.CHUNK_SIZE)
                - Math_floor (scrollX / Editor.CHUNK_SIZE) + 1))
    /\ In c (Editor.chunksOf o).
Proof.
  intros HB HG H1 H2. unfold Editor.chunksOf, Math_floor, Editor.CHUNK_SIZE.
  assert (Hmono : forall a b, a <= b -> (Qfloor (a / 400) <= Qfloor (b / 400))%Z).
  { intros a b Hab. apply Qfloor_resp_le.
    apply Qmult_le_compat_r; [exact Hab|]. apply Qinv_le_0_compat. lra. }
  assert (E1 : (Qfloor (Obj.x o / 400) <= Qfloor ((Obj.x o + BLOCK_SIZE) / 400))%Z)
    by (apply Hmono; lra).
  assert (E2 := Hmono scrollX (Obj.x o + BLOCK_SIZE) H1).
  assert (E3 := Hmono (Obj.x o) (scrollX + GAME_WIDTH) H2).
  assert (E4 : (Qfloor (scrollX / 400) <= Qfloor ((scrollX + GAME_WIDTH) / 400))%Z)
    by (apply Hmono; lra).
  exists (Z.max (Qfloor (Obj.x o / 400)) (Qfloor (scrollX / 400))).
  rewrite <- !list_elem_of_In, !elem_of_seqZ.
  lia.
Qed.

(** X14.  The editor draws what is in view, once.  With a tile and a
    canvas of non-negative width, the objects the render effect gathers
    from the chunk index have pairwise different ids, are objects of the
    level and meet the view [scrollX, scrollX + GAME_WIDTH]; and when the
    ids of the level are pairwise different, every object of the level
    that meets the view is gathered: an object lying across a chunk border
    is neither lost nor drawn twice. *)
Theorem editor_view_is_exact objects scrollX :
  0 <= BLOCK_SIZE -> 0 <= GAME_WIDTH ->
  let vis := Editor.visibleObjects GAME_WIDTH (Editor.spatialIndex objects) scrollX in
  NoDup (map Obj.id vis)
  /\ (forall o, In o vis ->
                In o objects
                /\ scrollX <= Obj.x o + BLOCK_SIZE /\ Obj.x o <= scrollX + GAME_WIDTH)
  /\ (NoDup (map Obj.id objects) ->
      forall o, In o objects ->
                scrollX <= Obj.x o + BLOCK_SIZE -> Obj.x o <= scrollX + GAME_WIDTH ->
                In o vis).
Proof.
  intros HB HG vis. subst vis. unfold Editor.visibleObjects, Editor.gatherVisible.
  rewrite (foldl_concat (Editor.pushVisible scrollX (scrollX + GAME_WIDTH))
                        (fun i => default [] (Editor.spatialIndex objects !! i))).
  set (ids := seqZ _ _).
  set (scanned := concat _).
  destruct (foldl_gathered scrollX (scrollX + GAME_WIDTH) scanned) as (Ha & Hb & Hc & Hd).
  destruct (foldl _ _ scanned) as [vis proc]. simpl in *.
  split; [|split].
  - assert (Hp : Permutation (map Obj.id (Editor.sortBy Editor.byLayer vis))
                             (map Obj.id vis))
      by apply Permutation_map, sortBy_Permutation.
    rewrite Hp. exact Hb.
  - intros o Ho. apply In_sortBy in Ho. destruct (Hc o Ho) as (Hs & H1 & H2).
    apply scanned_In in Hs. destruct Hs as [Hs _]. auto.
  - intros Hids o Ho H1 H2. apply In_sortBy.
    destruct (view_meets_chunks scrollX o HB HG H1 H2) as (c & Hc1 & Hc2).
    assert (Hs : In o scanned) by (apply scanned_In; eauto).
    pose proof (Hd o Hs H1 H2) as Hid. apply Ha in Hid.
    apply in_map_iff in Hid. destruct Hid as (o' & Hid & Ho').
    assert (Ho'' : In o' objects).
    { destruct (Hc o' Ho') as (Hs' & _). apply scanned_In in Hs'. apply Hs'. }
    rewrite <- (NoDup_map_inj Obj.id objects o' o Hids Ho'' Ho Hid). exact Ho'.
Qed.


End EditorView.


(** ** Clicks on the editor canvas *)

Section EditorClick.
Context {K : Constants}.

Lemma clickedObj_topmost objects worldX worldY o :
  Editor.clickedObj objects worldX worldY = Some o ->
  In o objects /\ Editor.hit worldX worldY o = true
  /\ forall c, In c objects -> Editor.hit worldX worldY c = true ->
               Obj.zOf c <= Obj.zOf o.
Proof.
  unfold Editor.clickedObj. intros H.
  apply (sortBy_head _ _ _ byLayerDesc_total byLayerDesc_trans) in H.
  destruct H as [Hin Hmin]. apply filter_In in Hin. destruct Hin as [Hin Hhit].
  split; [exact Hin|]. split; [exact Hhit|].
  intros c Hc Hch. apply Qle_bool_iff. apply (Hmin c). apply filter_In. auto.
Qed.

Lemma clickedObj_None objects worldX worldY :
  Editor.clickedObj objects worldX worldY = None ->
  forall c, In c objects -> Editor.hit worldX worldY c = false.
Proof.
  unfold Editor.clickedObj. intros H c Hc.
  destruct (Editor.hit worldX worldY c) eqn:Hhit; [|reflexivity].
  assert (Hin : In c (Editor.sortBy Editor.byLayerDesc
                        (List.filter (Editor.hit worldX worldY) objects))).
  { apply In_sortBy, filter_In. auto. }
  destruct (Editor.sortBy _ _); [destruct Hin | discriminate H].
Qed.

Lemma findIndex_Some {A : Type} (p : A -> bool) l a :
  In a l -> p a = true ->
  exists idx b,
    Editor.findIndex p l = Some idx /\ l !! idx = Some b /\ p b = true
    /\ forall j c, (j < idx)%nat -> l !! j = Some c -> p c = false.
Proof.
  induction l as [|c l IH]; simpl; [intros []|].
  intros Hin Hp. destruct (p c) eqn:Hc.
  - exists O, c. repeat split; auto. intros j c' Hj. lia.
  - destruct Hin as [-> | Hin]; [congruence|].
    destruct (IH Hin Hp) as (idx & b & -> & Hb & Hpb & Hfirst).
    exists (S idx), b. repeat split; auto.
    intros [|j] c' Hj Hc'; simpl in Hc'; [congruence|].
    apply (Hfirst j c'); [lia | exact Hc'].
Qed.

Lemma snap_contains snapToGrid world :
  0 < BLOCK_SIZE ->
  Editor.snap snapToGrid world <= world
  /\ world <= Editor.snap snapToGrid world + BLOCK_SIZE.
Proof.
  intros HB. unfold Editor.snap, Math_floor. destruct snapToGrid.
  - pose proof (Qfloor_le (world / BLOCK_SIZE)) as Ha.
    pose proof (Qlt_floor (world / BLOCK_SIZE)) as Hb.
    rewrite inject_Z_plus in Hb. change (inject_Z 1) with 1 in Hb.
    assert (E : world == world / BLOCK_SIZE * BLOCK_SIZE) by (field; lra).
    assert (H1 : inject_Z (Qfloor (world / BLOCK_SIZE)) * BLOCK_SIZE
                 <= world / BLOCK_SIZE * BLOCK_SIZE)
      by (apply Qmult_le_compat_r; lra).
    assert (H2 : world / BLOCK_SIZE * BLOCK_SIZE
                 <= (inject_Z (Qfloor (world / BLOCK_SIZE)) + 1) * BLOCK_SIZE)
      by (apply Qmult_le_compat_r; lra).
    assert (E2 : (inject_Z (Qfloor (world / BLOCK_SIZE)) + 1) * BLOCK_SIZE
                 == inject_Z (Qfloor (world / BLOCK_SIZE)) * BLOCK_SIZE + BLOCK_SIZE)
      by ring.
    rewrite E2 in H2. rewrite <- E in H1, H2. split; assumption.
  - assert (E : BLOCK_SIZE / 2 == (1 # 2) * BLOCK_SIZE) by field.
    rewrite E. split; lra.
Qed.

Lemma placed_is_hit snapToGrid id t z worldX worldY :
  0 < BLOCK_SIZE ->
  Editor.hit worldX worldY
    (Obj.mk (GameObject.mk id t (Editor.snap snapToGrid worldX)
                           (Editor.snap snapToGrid worldY)) z) = true.
Proof.
  intros HB. unfold Editor.hit, Obj.x, Obj.y. simpl.
  destruct (snap_contains snapToGrid worldX HB).
  destruct (snap_contains snapToGrid worldY HB).
  repeat (apply andb_true_iff; split); apply Qle_bool_iff; assumption.
Qed.

(** What a click of a placing tool leaves: a level with the clicked
    object replaced or, over free space, one object more; either way an
    object of the tool's type on the snapped position, under the click. *)
Lemma place_result snapToGrid t now worldX worldY st :
  0 < BLOCK_SIZE ->
  let st' := Editor.handleCanvasClick false snapToGrid (Editor.Place t) now
                                      worldX worldY st in
  length (Editor.objects st')
  = (length (Editor.objects st)
     + match Editor.clickedObj (Editor.objects st) worldX worldY with
       | Some _ => 0
       | None => 1
       end)%nat
  /\ exists o, In o (Editor.objects st')
               /\ Obj.type o = t
               /\ Obj.x o = Editor.snap snapToGrid worldX
               /\ Obj.y o = Editor.snap snapToGrid worldY
               /\ Editor.hit worldX worldY o = true.
Proof.
  intros HB. unfold Editor.handleCanvasClick. simpl.
  destruct (Editor.clickedObj (Editor.objects st) worldX worldY) as [o|] eqn:Hclick.
  - destruct (clickedObj_topmost _ _ _ _ Hclick) as (Hin & _ & _).
    destruct (findIndex_Some (fun o' => String.eqb (Obj.id o') (Obj.id o))
                             (Editor.objects st) o Hin (String.eqb_refl _))
      as (idx & b & -> & Hb & _ & _).
    simpl. split; [rewrite length_insert; lia|].
    eexists. split.
    + apply list_elem_of_In. eapply list_elem_of_lookup_2.
      apply list_lookup_insert_eq. eapply lookup_lt_Some, Hb.
    + repeat split. apply placed_is_hit. exact HB.
  - simpl. split; [rewrite length_app; simpl; lia|].
    eexists. split; [apply in_app_iff; right; left; reflexivity|].
    repeat split. apply placed_is_hit. exact HB.
Qed.

(** X15.  Placing never stacks.  With a positive tile size, a click of a
    placing tool leaves an object of the tool's type on the snapped
    position, which lies under the click, grid snapping on or off; it
    replaces the top-most object under the click or, over free space, adds
    one object.  A second placing click on the same point, with whatever
    tool, adds nothing. *)
Theorem placing_never_stacks snapToGrid t1 t2 now1 now2 worldX worldY st :
  0 < BLOCK_SIZE ->
  let st1 := Editor.handleCanvasClick false snapToGrid (Editor.Place t1) now1
                                      worldX worldY st in
  let st2 := Editor.handleCanvasClick false snapToGrid (Editor.Place t2) now2
                                      worldX worldY st1 in
  length (Editor.objects st1)
  = (length (Editor.objects st)
     + match Editor.clickedObj (Editor.objects st) worldX worldY with
       | Some _ => 0
       | None => 1
       end)%nat
  /\ (exists o, In o (Editor.objects st1)
                /\ Obj.type o = t1
                /\ Obj.x o = Editor.snap snapToGrid worldX
                /\ Obj.y o = Editor.snap snapToGrid worldY
                /\ Editor.snap snapToGrid worldX <= worldX
                   <= Editor.snap snapToGrid worldX + BLOCK_SIZE
                /\ Editor.snap snapToGrid worldY <= worldY
                   <= Editor.snap snapToGrid worldY + BLOCK_SIZE)
  /\ length (Editor.objects st2) = length (Editor.objects st1).
Proof.
  intros HB st1 st2.
  destruct (place_result snapToGrid t1 now1 worldX worldY st HB)
    as (Hlen & o & Hin & Ht & Hx & Hy & Hhit).
  fold st1 in Hlen, Hin.
  split; [exact Hlen|]. split.
  - exists o. repeat split; try assumption; apply snap_contains; exact HB.
  - destruct (place_result snapToGrid t2 now2 worldX worldY st1 HB) as (Hlen2 & _).
    fold st2 in Hlen2. rewrite Hlen2.
    destruct (Editor.clickedObj (Editor.objects st1) worldX worldY) eqn:Hclick; [lia|].
    rewrite (clickedObj_None _ _ _ Hclick o Hin) in Hhit. discriminate Hhit.
Qed.

Lemma pushUndo_stack st :
  let st' := Editor.pushUndo st in
  Editor.objects st' = Editor.objects st
  /\ Editor.selectedId st' = Editor.selectedId st
  /\ last (Editor.undoStack st') = Some (Editor.objects st)
  /\ (length (Editor.undoStack st') <= 50)%nat
  /\ Editor.redoStack st' = [].
Proof.
  unfold Editor.pushUndo. simpl. repeat split.
  - apply last_snoc.
  - rewrite length_app, length_drop. simpl. lia.
Qed.

(** X16.  A click takes the top-most object under it.  The object a
    click picks is an object of the level under the click whose layer no
    other object under the click exceeds.  The eraser removes exactly the
    objects with the id of that object and clears a selection of it; the
    selection tool selects its id and changes nothing else.  A click on
    free space erases nothing and selects nothing.  The eraser pushes the
    level it found on the undo stack, which it keeps to 50 snapshots, and
    clears the redo stack. *)
Theorem click_takes_the_topmost snapToGrid now worldX worldY st :
  let picked := Editor.clickedObj (Editor.objects st) worldX worldY in
  let erased := Editor.handleCanvasClick false snapToGrid Editor.ERASER now
                                         worldX worldY st in
  let selected := Editor.handleCanvasClick false snapToGrid Editor.SELECT now
                                           worldX worldY st in
  (forall o, picked = Some o ->
     (In o (Editor.objects st) /\ Editor.hit worldX worldY o = true
      /\ forall c, In c (Editor.objects st) -> Editor.hit worldX worldY c = true ->
                   Obj.zOf c <= Obj.zOf o)
     /\ (forall c, In c (Editor.objects erased)
                   <-> In c (Editor.objects st) /\ Obj.id c <> Obj.id o)
     /\ Editor.selectedId erased <> Some (Obj.id o)
     /\ (Obj.id o <> EmptyString -> Editor.selectedId selected = Some (Obj.id o)))
  /\ (picked = None ->
      (forall c, In c (Editor.objects st) -> Editor.hit worldX worldY c = false)
      /\ Editor.objects erased = Editor.objects st
      /\ Editor.selectedId erased = Editor.selectedId st
      /\ Editor.selectedId selected = None)
  /\ (last (Editor.undoStack erased) = Some (Editor.objects st)
      /\ (length (Editor.undoStack erased) <= 50)%nat
      /\ Editor.redoStack erased = [])
  /\ (Editor.objects selected = Editor.objects st
      /\ Editor.undoStack selected = Editor.undoStack st
      /\ Editor.redoStack selected = Editor.redoStack st).
Proof.
  intros picked erased selected. subst picked erased selected.
  unfold Editor.handleCanvasClick. simpl.
  split; [|split; [|split]].
  - intros o Hclick. rewrite Hclick. simpl.
    split; [apply clickedObj_topmost; exact Hclick|]. split; [|split].
    + intros c. rewrite filter_In, negb_true_iff.
      split; intros [H1 H2]; (split; [exact H1|]).
      * intros E. rewrite E, String.eqb_refl in H2. discriminate H2.
      * apply String.eqb_neq. exact H2.
    + destruct (Editor.selectedId st) as [sid|]; [|discriminate].
      destruct (String.eqb sid (Obj.id o)) eqn:E; [discriminate|].
      apply String.eqb_neq in E. congruence.
    + intros Hne. apply String.eqb_neq in Hne. rewrite Hne. reflexivity.
  - intros Hclick. rewrite Hclick. simpl.
    split; [apply clickedObj_None; exact Hclick | auto].
  - destruct (pushUndo_stack st) as (_ & _ & H1 & H2 & H3).
    destruct (Editor.clickedObj _ _ _); simpl; auto.
  - auto.
Qed.





End EditorClick.


(** ** The roof *)

Section EditorRoof.
Context {K : Constants}.
Variable roofId : Q -> string.

Lemma isRoofAt_proper x x' o :
  x == x' -> Editor.isRoofAt x o = Editor.isRoofAt x' o.
Proof.
  intros E. unfold Editor.isRoofAt. f_equal. f_equal.
  destruct (Qeq_bool (Obj.x o) x) eqn:E1; destruct (Qeq_bool (Obj.x o) x') eqn:E2;
    try reflexivity; props.
  - exfalso. apply E2. rewrite E1. exact E.
  - exfalso. apply E1. rewrite E2. symmetry. exact E.
Qed.

Lemma isRoofAt_roofBlock x : Editor.isRoofAt x (Editor.roofBlock roofId x) = true.
Proof.
  unfold Editor.isRoofAt, Editor.roofBlock, Obj.x, Obj.y, Obj.type. simpl.
  rewrite Qeq_bool_refl. reflexivity.
Qed.

Lemma roofLoop_spec fuel : forall x maxX l,
  0 < BLOCK_SIZE ->
  maxX < x + inject_Z (Z.of_nat fuel) * BLOCK_SIZE ->
  exists added,
    Editor.roofLoop roofId fuel x maxX l = Some (l ++ added)
    /\ Forall (fun o => exists x', o = Editor.roofBlock roofId x' /\ x <= x' <= maxX) added
    /\ forall k : nat,
        x + inject_Z (Z.of_nat k) * BLOCK_SIZE <= maxX ->
        exists o, In o (l ++ added)
                  /\ Editor.isRoofAt (x + inject_Z (Z.of_nat k) * BLOCK_SIZE) o = true.
Proof.
  assert (Hstop : forall fuel x maxX l,
             0 < BLOCK_SIZE -> Qleb x maxX = false ->
             exists added,
               Editor.roofLoop roofId fuel x maxX l = Some (l ++ added)
               /\ Forall (fun o => exists x', o = Editor.roofBlock roofId x'
                                              /\ x <= x' <= maxX) added
               /\ forall k : nat,
                   x + inject_Z (Z.of_nat k) * BLOCK_SIZE <= maxX ->
                   exists o, In o (l ++ added)
                             /\ Editor.isRoofAt (x + inject_Z (Z.of_nat k) * BLOCK_SIZE) o
                                = true).
  { intros f x maxX l HB Hle. exists []. rewrite app_nil_r. split.
    - destruct f; simpl; rewrite Hle; reflexivity.
    - split; [constructor|]. intros k Hk. exfalso. props.
      assert (0 <= inject_Z (Z.of_nat k)).
      { change 0 with (inject_Z 0). rewrite <- Zle_Qle. lia. }
      assert (0 <= inject_Z (Z.of_nat k) * BLOCK_SIZE) by (apply Qmult_le_0_compat; lra).
      lra. }
  induction fuel as [|fuel IH]; intros x maxX l HB Hfuel.
  - apply Hstop; [exact HB|]. apply Qleb_gt.
    change (inject_Z (Z.of_nat 0)) with 0 in Hfuel. lra.
  - destruct (Qleb x maxX) eqn:Hle; [|apply Hstop; assumption].
    simpl. rewrite Hle.
    set (l' := if negb (existsb (Editor.isRoofAt x) l)
               then l ++ [Editor.roofBlock roofId x] else l).
    assert (Hl' : exists pre, l' = l ++ pre
                  /\ Forall (fun o => exists x', o = Editor.roofBlock roofId x'
                                                 /\ x <= x' <= maxX) pre
                  /\ exists o, In o l' /\ Editor.isRoofAt x o = true).
    { unfold l'. destruct (existsb (Editor.isRoofAt x) l) eqn:Hex; simpl.
      - exists []. rewrite app_nil_r. split; [reflexivity|]. split; [constructor|].
        apply existsb_exists in Hex. exact Hex.
      - exists [Editor.roofBlock roofId x]. split; [reflexivity|]. split.
        + constructor; [|constructor]. exists x. props. split; [reflexivity | lra].
        + exists (Editor.roofBlock roofId x). split.
          * apply in_app_iff. right. left. reflexivity.
          * apply isRoofAt_roofBlock. }
    destruct Hl' as (pre & Epre & Fpre & o0 & Ho0 & Hroof0).
    assert (Hfuel' : maxX < x + BLOCK_SIZE + inject_Z (Z.of_nat fuel) * BLOCK_SIZE).
    { rewrite Nat2Z.inj_succ in Hfuel. unfold Z.succ in Hfuel.
      rewrite inject_Z_plus in Hfuel. change (inject_Z 1) with 1 in Hfuel.
      assert (E : (inject_Z (Z.of_nat fuel) + 1) * BLOCK_SIZE
                  == BLOCK_SIZE + inject_Z (Z.of_nat fuel) * BLOCK_SIZE) by ring.
      rewrite E in Hfuel. lra. }
    destruct (IH (x + BLOCK_SIZE) maxX l' HB Hfuel') as (added & Hrun & Fadded & Hcover).
    exists (pre ++ added). rewrite app_assoc, <- Epre.
    split; [exact Hrun|]. split.
    + apply Forall_app. split; [exact Fpre|].
      eapply Forall_impl; [exact Fadded|].
      intros o (x' & -> & Hx'). exists x'. split; [reflexivity | lra].
    + intros [|k] Hk.
      * exists o0. split; [apply in_app_iff; left; exact Ho0|].
        rewrite <- Hroof0. apply isRoofAt_proper.
        change (inject_Z (Z.of_nat 0)) with 0. ring.
      * assert (E : x + inject_Z (Z.of_nat (S k)) * BLOCK_SIZE
                    == x + BLOCK_SIZE + inject_Z (Z.of_nat k) * BLOCK_SIZE).
        { rewrite Nat2Z.inj_succ. unfold Z.succ. rewrite inject_Z_plus.
          change (inject_Z 1) with 1. ring. }
        rewrite E in Hk. destruct (Hcover k Hk) as (o & Ho & Hroof).
        exists o. split; [exact Ho|].
        rewrite <- Hroof. apply isRoofAt_proper. exact E.
Qed.

Lemma roofMaxX_ge objects : 1000 <= Editor.roofMaxX objects.
Proof.
  unfold Editor.roofMaxX.
  assert (H : forall acc, acc <= foldl (fun max o => Math_max max (Obj.x o)) acc objects).
  { induction objects as [|o objects IH]; intros acc; simpl; [lra|].
    eapply Qle_trans; [|apply IH]. apply Math_max_spec. }
  specialize (H 0). lra.
Qed.

(** X18.  The roof is complete.  With a positive tile size [autoRoof]
    ends; it keeps the level's objects and adds Blocks of layer 0 on the
    line y = 0, between x = 0 and the right end (the largest x of the
    level, or 0, plus 1000); afterwards every grid position k * BLOCK_SIZE
    up to the right end holds a Block at y = 0; and the level it found is
    the last snapshot of the undo stack. *)
Theorem autoRoof_is_complete st :
  0 < BLOCK_SIZE ->
  exists st' added,
    Editor.autoRoof roofId st = Some st'
    /\ Editor.objects st' = Editor.objects st ++ added
    /\ Forall (fun o => Obj.type o = BLOCK /\ Obj.y o = 0 /\ Obj.z o = Some 0
                        /\ 0 <= Obj.x o <= Editor.roofMaxX (Editor.objects st)) added
    /\ (forall k : nat,
           inject_Z (Z.of_nat k) * BLOCK_SIZE <= Editor.roofMaxX (Editor.objects st) ->
           exists o, In o (Editor.objects st')
                     /\ Obj.type o = BLOCK
                     /\ Obj.x o == inject_Z (Z.of_nat k) * BLOCK_SIZE
                     /\ Obj.y o == 0)
    /\ last (Editor.undoStack st') = Some (Editor.objects st)
    /\ Editor.selectedId st' = Editor.selectedId st.
Proof.
  intros HB. unfold Editor.autoRoof.
  set (maxX := Editor.roofMaxX (Editor.objects st)).
  pose proof (roofMaxX_ge (Editor.objects st)) as Hmax. fold maxX in Hmax.
  assert (Hfuel : maxX < 0 + inject_Z (Z.of_nat (Editor.roofFuel maxX)) * BLOCK_SIZE).
  { unfold Editor.roofFuel, Math_floor.
    assert (Hq : 0 <= maxX / BLOCK_SIZE).
    { apply Qle_shift_div_l; lra. }
    assert (Hf : (0 <= Qfloor (maxX / BLOCK_SIZE))%Z).
    { change 0%Z with (Qfloor 0). apply Qfloor_resp_le. exact Hq. }
    rewrite Z2Nat.id by lia.
    pose proof (Qlt_floor (maxX / BLOCK_SIZE)) as Hlt.
    assert (E : maxX == maxX / BLOCK_SIZE * BLOCK_SIZE) by (field; lra).
    assert (H1 : maxX / BLOCK_SIZE * BLOCK_SIZE
                 < inject_Z (Qfloor (maxX / BLOCK_SIZE) + 1) * BLOCK_SIZE)
      by (apply Qmult_lt_compat_r; assumption).
    rewrite <- E in H1. lra. }
  destruct (roofLoop_spec (Editor.roofFuel maxX) 0 maxX (Editor.objects st) HB Hfuel)
    as (added & Hrun & Fadded & Hcover).
  rewrite Hrun. eexists. exists added. split; [reflexivity|]. simpl.
  split; [reflexivity|]. split; [|split; [|split]].
  - eapply Forall_impl; [exact Fadded|].
    intros o (x' & -> & Hx'). repeat split; apply Hx'.
  - intros k Hk.
    assert (Hk' : 0 + inject_Z (Z.of_nat k) * BLOCK_SIZE <= maxX) by lra.
    destruct (Hcover k Hk') as (o & Ho & Hroof).
    exists o. split; [exact Ho|].
    unfold Editor.isRoofAt in Hroof. props.
    split; [destruct (Obj.type o); try discriminate; reflexivity|].
    split; [|assumption].
    match goal with H : Obj.x o == _ |- _ => rewrite H end. ring.
  - apply last_snoc.
  - reflexivity.
Qed.

End EditorRoof.


(** ** Further runs *)

Section FurtherRuns.
Local Existing Instance sampleConstants.


Lemma candidate_buffer_complete_witness :
  In (spike 100 360) (gather (buildChunks levelSpike) (chunkOf 75)).
Proof.
  assert (HB : 16 <= BLOCK_SIZE <= 600) by (split; apply Qle_bool_iff; reflexivity).
  assert (HP : 8 <= PLAYER_SIZE <= 1200) by (split; apply Qle_bool_iff; reflexivity).
  apply (candidate_buffer_complete levelSpike 50 360 (spike 100 360) spikeState HB HP).
  - left. reflexivity.
  - left. split; reflexivity.
Defined.

Lemma progress_never_goes_back_witness :
  0 <= completion (play 5 levelLong (ticks 2))
  /\ completion (play 5 levelLong (ticks 2))
     <= completion (play 5 levelLong (ticks 2 ++ ticks 1))
  /\ completion (play 5 levelLong (ticks 2 ++ ticks 1)) <= 100.
Proof.
  apply (progress_never_goes_back 5 levelLong (ticks 2) (ticks 1)).
  apply Qle_bool_iff. reflexivity.
Defined.

Lemma spider_interaction_witness :
  Player.gravityDir (player (triggerInteraction false false (buildChunks []) spiderState))
  = -1
  /\ Player.y (player (triggerInteraction false false (buildChunks []) spiderState)) = 0.
Proof.
  destruct (spider_interaction false (buildChunks []) spiderState eq_refl eq_refl eq_refl)
    as (H1 & _ & _ & _ & _ & _ & H7).
  split; [exact H1|].
  apply H7. intros obj Hin. destruct Hin.
Defined.

Lemma held_button_interacts_once_witness :
  play 5 levelLong ([] ++ [Press] ++ [Tick] ++ [Press] ++ [])
  = play 5 levelLong ([] ++ [Press] ++ [Tick] ++ []).
Proof.
  apply (held_button_interacts_once 5 levelLong [] [Tick] []).
  intros [H | []]. discriminate H.
Defined.

Lemma draw_buffer_covers_viewport_witness :
  In (block 0 320) (drawBuffer 800 (buildChunks levelLong) 0).
Proof.
  assert (HB : 0 <= BLOCK_SIZE <= 100) by (split; apply Qle_bool_iff; reflexivity).
  apply (draw_buffer_covers_viewport 800 levelLong 0 (block 0 320) HB).
  - left. reflexivity.
  - split; apply Qle_bool_iff; reflexivity.
Defined.

Lemma editor_view_is_exact_witness :
  In (Obj.mk (GameObject.mk "a" BLOCK 380 360) None)
     (Editor.visibleObjects 800 (Editor.spatialIndex editorLevel) 0).
Proof.
  assert (HB : 0 <= BLOCK_SIZE) by (apply Qle_bool_iff; reflexivity).
  assert (HG : 0 <= 800) by (apply Qle_bool_iff; reflexivity).
  destruct (editor_view_is_exact 800 editorLevel 0 HB HG) as (_ & _ & H).
  apply H.
  - apply NoDup_cons. split; [|apply NoDup_singleton].
    intros Hin. apply list_elem_of_singleton in Hin. discriminate Hin.
  - left. reflexivity.
  - apply Qle_bool_iff. reflexivity.
  - apply Qle_bool_iff. reflexivity.
Defined.

Lemma placing_never_stacks_witness :
  length (Editor.objects
            (Editor.handleCanvasClick false true (Editor.Place SPIKE) "2" 100 100
               (Editor.handleCanvasClick false true (Editor.Place BLOCK) "1" 100 100
                                         editorState)))
  = length (Editor.objects
              (Editor.handleCanvasClick false true (Editor.Place BLOCK) "1" 100 100
                                        editorState)).
Proof.
  assert (HB : 0 < BLOCK_SIZE) by reflexivity.
  apply (placing_never_stacks true BLOCK SPIKE "1" "2" 100 100 editorState HB).
Defined.


Lemma autoRoof_is_complete_witness :
  exists st', Editor.autoRoof (fun _ => "roof"%string) editorState = Some st'.
Proof.
  assert (HB : 0 < BLOCK_SIZE) by reflexivity.
  destruct (autoRoof_is_complete (fun _ => "roof"%string) editorState HB)
    as (st' & added & H & _).
  exists st'. exact H.
Defined.


Lemma spider_press_held_teleports_twice_witness :
  Player.gravityDir (player (handle 5 [] (handle 5 [] spiderState Press) Tick))
  = Player.gravityDir (player spiderState).
Proof.
  assert (Hm : Player.mode (player spiderState) = SPIDER) by reflexivity.
  assert (Hd : Player.isDead (player spiderState) = false) by reflexivity.
  assert (Hs : onSurfaceRef spiderState = true) by reflexivity.
  assert (Hp : isJumpButtonPressed spiderState = false) by reflexivity.
  assert (Hb : actionBufferActive spiderState = false) by reflexivity.
  assert (Hg : unitGravity spiderState) by (left; reflexivity).
  destruct (spider_press_held_teleports_twice 5 [] spiderState Hm Hd Hs Hp Hb Hg)
    as (_ & H).
  destruct H as (_ & _ & _ & H); [reflexivity | reflexivity |].
  apply H. reflexivity.
Defined.






End FurtherRuns.
